(** * The unarXive LaTeX pipeline: source normalisation and GORC extraction

    A shallow embedding of [normalize_arxiv_dump.py] (encoding resolver,
    main-file locator, citation-macro fixes) and of
    [convert_latex_to_gorc.py] (author parser, paragraph extractor,
    document-tree extractor), followed by the properties of these
    functions that the specification states.

    Python strings are sequences of Unicode code points: a character is a
    code point [N], a string a [list] of them, and offsets count code
    points, as [re] and slicing do.  Exceptions are values of [result]. *)

From Stdlib Require Import String Ascii List NArith ZArith Arith Bool Lia Sorted.
Import ListNotations.
Local Open Scope N_scope.
Local Open Scope list_scope.
Set Implicit Arguments.
Local Set Warnings "-register-all".

(** ** Strings *)

Definition char := N.
Definition str := list char.

(** A string literal of the source, all of whose characters are ASCII. *)
Definition lit (s : string) : str := map N_of_ascii (list_ascii_of_string s).

Definition in_ranges (t : list (N * N)) (c : char) : bool :=
  existsb (fun r => (fst r <=? c) && (c <=? snd r)) t.

(** [str.isspace], which is also what [\s] matches in a [str] pattern and
    what [str.strip] and [str.split] (no argument) treat as blank. *)
Definition space_ranges : list (N * N) :=
  [ (0x9, 0xD); (0x1C, 0x20); (0x85, 0x85); (0xA0, 0xA0); (0x1680, 0x1680);
    (0x2000, 0x200A); (0x2028, 0x2029); (0x202F, 0x202F); (0x205F, 0x205F);
    (0x3000, 0x3000) ].

Definition is_space : char -> bool := in_ranges space_ranges.

(** What [\d] matches in a [str] pattern: the decimal digits of Unicode
    (category Nd), here the table of Unicode 14.0 as CPython 3.11 ships it. *)
Definition digit_ranges : list (N * N) :=
  [
    (0x30, 0x39); (0x660, 0x669); (0x6F0, 0x6F9); (0x7C0, 0x7C9); (0x966, 0x96F);
    (0x9E6, 0x9EF); (0xA66, 0xA6F); (0xAE6, 0xAEF); (0xB66, 0xB6F); (0xBE6, 0xBEF);
    (0xC66, 0xC6F); (0xCE6, 0xCEF); (0xD66, 0xD6F); (0xDE6, 0xDEF); (0xE50, 0xE59);
    (0xED0, 0xED9); (0xF20, 0xF29); (0x1040, 0x1049); (0x1090, 0x1099); (0x17E0, 0x17E9);
    (0x1810, 0x1819); (0x1946, 0x194F); (0x19D0, 0x19D9); (0x1A80, 0x1A89); (0x1A90, 0x1A99);
    (0x1B50, 0x1B59); (0x1BB0, 0x1BB9); (0x1C40, 0x1C49); (0x1C50, 0x1C59); (0xA620, 0xA629);
    (0xA8D0, 0xA8D9); (0xA900, 0xA909); (0xA9D0, 0xA9D9); (0xA9F0, 0xA9F9); (0xAA50, 0xAA59);
    (0xABF0, 0xABF9); (0xFF10, 0xFF19); (0x104A0, 0x104A9); (0x10D30, 0x10D39);
    (0x11066, 0x1106F); (0x110F0, 0x110F9); (0x11136, 0x1113F); (0x111D0, 0x111D9);
    (0x112F0, 0x112F9); (0x11450, 0x11459); (0x114D0, 0x114D9); (0x11650, 0x11659);
    (0x116C0, 0x116C9); (0x11730, 0x11739); (0x118E0, 0x118E9); (0x11950, 0x11959);
    (0x11C50, 0x11C59); (0x11D50, 0x11D59); (0x11DA0, 0x11DA9); (0x16A60, 0x16A69);
    (0x16AC0, 0x16AC9); (0x16B50, 0x16B59); (0x1D7CE, 0x1D7FF); (0x1E140, 0x1E149);
    (0x1E2F0, 0x1E2F9); (0x1E950, 0x1E959); (0x1FBF0, 0x1FBF9) ].

Definition is_digit : char -> bool := in_ranges digit_ranges.

(** [str.upper] maps every code point through Unicode's full upper-case
    mapping (Unicode 14.0).  [upper_runs] lists the one-to-one part as
    (first, last, step, image of first); [upper_special] the code points
    whose upper case is several code points long. *)
Definition upper_runs : list (N * N * N * N) :=
  [
    (0x61, 0x7A, 1, 0x41); (0xB5, 0xB5, 1, 0x39C); (0xE0, 0xF6, 1, 0xC0);
    (0xF8, 0xFE, 1, 0xD8); (0xFF, 0xFF, 1, 0x178); (0x101, 0x12F, 2, 0x100);
    (0x131, 0x131, 1, 0x49); (0x133, 0x137, 2, 0x132); (0x13A, 0x148, 2, 0x139);
    (0x14B, 0x177, 2, 0x14A); (0x17A, 0x17E, 2, 0x179); (0x17F, 0x17F, 1, 0x53);
    (0x180, 0x180, 1, 0x243); (0x183, 0x185, 2, 0x182); (0x188, 0x188, 1, 0x187);
    (0x18C, 0x18C, 1, 0x18B); (0x192, 0x192, 1, 0x191); (0x195, 0x195, 1, 0x1F6);
    (0x199, 0x199, 1, 0x198); (0x19A, 0x19A, 1, 0x23D); (0x19E, 0x19E, 1, 0x220);
    (0x1A1, 0x1A5, 2, 0x1A0); (0x1A8, 0x1A8, 1, 0x1A7); (0x1AD, 0x1AD, 1, 0x1AC);
    (0x1B0, 0x1B0, 1, 0x1AF); (0x1B4, 0x1B6, 2, 0x1B3); (0x1B9, 0x1B9, 1, 0x1B8);
    (0x1BD, 0x1BD, 1, 0x1BC); (0x1BF, 0x1BF, 1, 0x1F7); (0x1C5, 0x1C5, 1, 0x1C4);
    (0x1C6, 0x1C6, 1, 0x1C4); (0x1C8, 0x1C8, 1, 0x1C7); (0x1C9, 0x1C9, 1, 0x1C7);
    (0x1CB, 0x1CB, 1, 0x1CA); (0x1CC, 0x1CC, 1, 0x1CA); (0x1CE, 0x1DC, 2, 0x1CD);
    (0x1DD, 0x1DD, 1, 0x18E); (0x1DF, 0x1EF, 2, 0x1DE); (0x1F2, 0x1F2, 1, 0x1F1);
    (0x1F3, 0x1F3, 1, 0x1F1); (0x1F5, 0x1F5, 1, 0x1F4); (0x1F9, 0x21F, 2, 0x1F8);
    (0x223, 0x233, 2, 0x222); (0x23C, 0x23C, 1, 0x23B); (0x23F, 0x240, 1, 0x2C7E);
    (0x242, 0x242, 1, 0x241); (0x247, 0x24F, 2, 0x246); (0x250, 0x250, 1, 0x2C6F);
    (0x251, 0x251, 1, 0x2C6D); (0x252, 0x252, 1, 0x2C70); (0x253, 0x253, 1, 0x181);
    (0x254, 0x254, 1, 0x186); (0x256, 0x257, 1, 0x189); (0x259, 0x259, 1, 0x18F);
    (0x25B, 0x25B, 1, 0x190); (0x25C, 0x25C, 1, 0xA7AB); (0x260, 0x260, 1, 0x193);
    (0x261, 0x261, 1, 0xA7AC); (0x263, 0x263, 1, 0x194); (0x265, 0x265, 1, 0xA78D);
    (0x266, 0x266, 1, 0xA7AA); (0x268, 0x268, 1, 0x197); (0x269, 0x269, 1, 0x196);
    (0x26A, 0x26A, 1, 0xA7AE); (0x26B, 0x26B, 1, 0x2C62); (0x26C, 0x26C, 1, 0xA7AD);
    (0x26F, 0x26F, 1, 0x19C); (0x271, 0x271, 1, 0x2C6E); (0x272, 0x272, 1, 0x19D);
    (0x275, 0x275, 1, 0x19F); (0x27D, 0x27D, 1, 0x2C64); (0x280, 0x280, 1, 0x1A6);
    (0x282, 0x282, 1, 0xA7C5); (0x283, 0x283, 1, 0x1A9); (0x287, 0x287, 1, 0xA7B1);
    (0x288, 0x288, 1, 0x1AE); (0x289, 0x289, 1, 0x244); (0x28A, 0x28B, 1, 0x1B1);
    (0x28C, 0x28C, 1, 0x245); (0x292, 0x292, 1, 0x1B7); (0x29D, 0x29D, 1, 0xA7B2);
    (0x29E, 0x29E, 1, 0xA7B0); (0x345, 0x345, 1, 0x399); (0x371, 0x373, 2, 0x370);
    (0x377, 0x377, 1, 0x376); (0x37B, 0x37D, 1, 0x3FD); (0x3AC, 0x3AC, 1, 0x386);
    (0x3AD, 0x3AF, 1, 0x388); (0x3B1, 0x3C1, 1, 0x391); (0x3C2, 0x3C2, 1, 0x3A3);
    (0x3C3, 0x3CB, 1, 0x3A3); (0x3CC, 0x3CC, 1, 0x38C); (0x3CD, 0x3CE, 1, 0x38E);
    (0x3D0, 0x3D0, 1, 0x392); (0x3D1, 0x3D1, 1, 0x398); (0x3D5, 0x3D5, 1, 0x3A6);
    (0x3D6, 0x3D6, 1, 0x3A0); (0x3D7, 0x3D7, 1, 0x3CF); (0x3D9, 0x3EF, 2, 0x3D8);
    (0x3F0, 0x3F0, 1, 0x39A); (0x3F1, 0x3F1, 1, 0x3A1); (0x3F2, 0x3F2, 1, 0x3F9);
    (0x3F3, 0x3F3, 1, 0x37F); (0x3F5, 0x3F5, 1, 0x395); (0x3F8, 0x3F8, 1, 0x3F7);
    (0x3FB, 0x3FB, 1, 0x3FA); (0x430, 0x44F, 1, 0x410); (0x450, 0x45F, 1, 0x400);
    (0x461, 0x481, 2, 0x460); (0x48B, 0x4BF, 2, 0x48A); (0x4C2, 0x4CE, 2, 0x4C1);
    (0x4CF, 0x4CF, 1, 0x4C0); (0x4D1, 0x52F, 2, 0x4D0); (0x561, 0x586, 1, 0x531);
    (0x10D0, 0x10FA, 1, 0x1C90); (0x10FD, 0x10FF, 1, 0x1CBD); (0x13F8, 0x13FD, 1, 0x13F0);
    (0x1C80, 0x1C80, 1, 0x412); (0x1C81, 0x1C81, 1, 0x414); (0x1C82, 0x1C82, 1, 0x41E);
    (0x1C83, 0x1C84, 1, 0x421); (0x1C85, 0x1C85, 1, 0x422); (0x1C86, 0x1C86, 1, 0x42A);
    (0x1C87, 0x1C87, 1, 0x462); (0x1C88, 0x1C88, 1, 0xA64A); (0x1D79, 0x1D79, 1, 0xA77D);
    (0x1D7D, 0x1D7D, 1, 0x2C63); (0x1D8E, 0x1D8E, 1, 0xA7C6); (0x1E01, 0x1E95, 2, 0x1E00);
    (0x1E9B, 0x1E9B, 1, 0x1E60); (0x1EA1, 0x1EFF, 2, 0x1EA0); (0x1F00, 0x1F07, 1, 0x1F08);
    (0x1F10, 0x1F15, 1, 0x1F18); (0x1F20, 0x1F27, 1, 0x1F28); (0x1F30, 0x1F37, 1, 0x1F38);
    (0x1F40, 0x1F45, 1, 0x1F48); (0x1F51, 0x1F57, 2, 0x1F59); (0x1F60, 0x1F67, 1, 0x1F68);
    (0x1F70, 0x1F71, 1, 0x1FBA); (0x1F72, 0x1F75, 1, 0x1FC8); (0x1F76, 0x1F77, 1, 0x1FDA);
    (0x1F78, 0x1F79, 1, 0x1FF8); (0x1F7A, 0x1F7B, 1, 0x1FEA); (0x1F7C, 0x1F7D, 1, 0x1FFA);
    (0x1FB0, 0x1FB1, 1, 0x1FB8); (0x1FBE, 0x1FBE, 1, 0x399); (0x1FD0, 0x1FD1, 1, 0x1FD8);
    (0x1FE0, 0x1FE1, 1, 0x1FE8); (0x1FE5, 0x1FE5, 1, 0x1FEC); (0x214E, 0x214E, 1, 0x2132);
    (0x2170, 0x217F, 1, 0x2160); (0x2184, 0x2184, 1, 0x2183); (0x24D0, 0x24E9, 1, 0x24B6);
    (0x2C30, 0x2C5F, 1, 0x2C00); (0x2C61, 0x2C61, 1, 0x2C60); (0x2C65, 0x2C65, 1, 0x23A);
    (0x2C66, 0x2C66, 1, 0x23E); (0x2C68, 0x2C6C, 2, 0x2C67); (0x2C73, 0x2C73, 1, 0x2C72);
    (0x2C76, 0x2C76, 1, 0x2C75); (0x2C81, 0x2CE3, 2, 0x2C80); (0x2CEC, 0x2CEE, 2, 0x2CEB);
    (0x2CF3, 0x2CF3, 1, 0x2CF2); (0x2D00, 0x2D25, 1, 0x10A0); (0x2D27, 0x2D27, 1, 0x10C7);
    (0x2D2D, 0x2D2D, 1, 0x10CD); (0xA641, 0xA66D, 2, 0xA640); (0xA681, 0xA69B, 2, 0xA680);
    (0xA723, 0xA72F, 2, 0xA722); (0xA733, 0xA76F, 2, 0xA732); (0xA77A, 0xA77C, 2, 0xA779);
    (0xA77F, 0xA787, 2, 0xA77E); (0xA78C, 0xA78C, 1, 0xA78B); (0xA791, 0xA793, 2, 0xA790);
    (0xA794, 0xA794, 1, 0xA7C4); (0xA797, 0xA7A9, 2, 0xA796); (0xA7B5, 0xA7C3, 2, 0xA7B4);
    (0xA7C8, 0xA7CA, 2, 0xA7C7); (0xA7D1, 0xA7D1, 1, 0xA7D0); (0xA7D7, 0xA7D9, 2, 0xA7D6);
    (0xA7F6, 0xA7F6, 1, 0xA7F5); (0xAB53, 0xAB53, 1, 0xA7B3); (0xAB70, 0xABBF, 1, 0x13A0);
    (0xFF41, 0xFF5A, 1, 0xFF21); (0x10428, 0x1044F, 1, 0x10400);
    (0x104D8, 0x104FB, 1, 0x104B0); (0x10597, 0x105A1, 1, 0x10570);
    (0x105A3, 0x105B1, 1, 0x1057C); (0x105B3, 0x105B9, 1, 0x1058C);
    (0x105BB, 0x105BC, 1, 0x10594); (0x10CC0, 0x10CF2, 1, 0x10C80);
    (0x118C0, 0x118DF, 1, 0x118A0); (0x16E60, 0x16E7F, 1, 0x16E40);
    (0x1E922, 0x1E943, 1, 0x1E900) ].

Definition upper_special : list (N * str) :=
  [
    (0xDF, [0x53; 0x53]); (0x149, [0x2BC; 0x4E]); (0x1F0, [0x4A; 0x30C]);
    (0x390, [0x399; 0x308; 0x301]); (0x3B0, [0x3A5; 0x308; 0x301]); (0x587, [0x535; 0x552]);
    (0x1E96, [0x48; 0x331]); (0x1E97, [0x54; 0x308]); (0x1E98, [0x57; 0x30A]);
    (0x1E99, [0x59; 0x30A]); (0x1E9A, [0x41; 0x2BE]); (0x1F50, [0x3A5; 0x313]);
    (0x1F52, [0x3A5; 0x313; 0x300]); (0x1F54, [0x3A5; 0x313; 0x301]);
    (0x1F56, [0x3A5; 0x313; 0x342]); (0x1F80, [0x1F08; 0x399]); (0x1F81, [0x1F09; 0x399]);
    (0x1F82, [0x1F0A; 0x399]); (0x1F83, [0x1F0B; 0x399]); (0x1F84, [0x1F0C; 0x399]);
    (0x1F85, [0x1F0D; 0x399]); (0x1F86, [0x1F0E; 0x399]); (0x1F87, [0x1F0F; 0x399]);
    (0x1F88, [0x1F08; 0x399]); (0x1F89, [0x1F09; 0x399]); (0x1F8A, [0x1F0A; 0x399]);
    (0x1F8B, [0x1F0B; 0x399]); (0x1F8C, [0x1F0C; 0x399]); (0x1F8D, [0x1F0D; 0x399]);
    (0x1F8E, [0x1F0E; 0x399]); (0x1F8F, [0x1F0F; 0x399]); (0x1F90, [0x1F28; 0x399]);
    (0x1F91, [0x1F29; 0x399]); (0x1F92, [0x1F2A; 0x399]); (0x1F93, [0x1F2B; 0x399]);
    (0x1F94, [0x1F2C; 0x399]); (0x1F95, [0x1F2D; 0x399]); (0x1F96, [0x1F2E; 0x399]);
    (0x1F97, [0x1F2F; 0x399]); (0x1F98, [0x1F28; 0x399]); (0x1F99, [0x1F29; 0x399]);
    (0x1F9A, [0x1F2A; 0x399]); (0x1F9B, [0x1F2B; 0x399]); (0x1F9C, [0x1F2C; 0x399]);
    (0x1F9D, [0x1F2D; 0x399]); (0x1F9E, [0x1F2E; 0x399]); (0x1F9F, [0x1F2F; 0x399]);
    (0x1FA0, [0x1F68; 0x399]); (0x1FA1, [0x1F69; 0x399]); (0x1FA2, [0x1F6A; 0x399]);
    (0x1FA3, [0x1F6B; 0x399]); (0x1FA4, [0x1F6C; 0x399]); (0x1FA5, [0x1F6D; 0x399]);
    (0x1FA6, [0x1F6E; 0x399]); (0x1FA7, [0x1F6F; 0x399]); (0x1FA8, [0x1F68; 0x399]);
    (0x1FA9, [0x1F69; 0x399]); (0x1FAA, [0x1F6A; 0x399]); (0x1FAB, [0x1F6B; 0x399]);
    (0x1FAC, [0x1F6C; 0x399]); (0x1FAD, [0x1F6D; 0x399]); (0x1FAE, [0x1F6E; 0x399]);
    (0x1FAF, [0x1F6F; 0x399]); (0x1FB2, [0x1FBA; 0x399]); (0x1FB3, [0x391; 0x399]);
    (0x1FB4, [0x386; 0x399]); (0x1FB6, [0x391; 0x342]); (0x1FB7, [0x391; 0x342; 0x399]);
    (0x1FBC, [0x391; 0x399]); (0x1FC2, [0x1FCA; 0x399]); (0x1FC3, [0x397; 0x399]);
    (0x1FC4, [0x389; 0x399]); (0x1FC6, [0x397; 0x342]); (0x1FC7, [0x397; 0x342; 0x399]);
    (0x1FCC, [0x397; 0x399]); (0x1FD2, [0x399; 0x308; 0x300]); (0x1FD3, [0x399; 0x308; 0x301]);
    (0x1FD6, [0x399; 0x342]); (0x1FD7, [0x399; 0x308; 0x342]); (0x1FE2, [0x3A5; 0x308; 0x300]);
    (0x1FE3, [0x3A5; 0x308; 0x301]); (0x1FE4, [0x3A1; 0x313]); (0x1FE6, [0x3A5; 0x342]);
    (0x1FE7, [0x3A5; 0x308; 0x342]); (0x1FF2, [0x1FFA; 0x399]); (0x1FF3, [0x3A9; 0x399]);
    (0x1FF4, [0x38F; 0x399]); (0x1FF6, [0x3A9; 0x342]); (0x1FF7, [0x3A9; 0x342; 0x399]);
    (0x1FFC, [0x3A9; 0x399]); (0xFB00, [0x46; 0x46]); (0xFB01, [0x46; 0x49]);
    (0xFB02, [0x46; 0x4C]); (0xFB03, [0x46; 0x46; 0x49]); (0xFB04, [0x46; 0x46; 0x4C]);
    (0xFB05, [0x53; 0x54]); (0xFB06, [0x53; 0x54]); (0xFB13, [0x544; 0x546]);
    (0xFB14, [0x544; 0x535]); (0xFB15, [0x544; 0x53B]); (0xFB16, [0x54E; 0x546]);
    (0xFB17, [0x544; 0x53D]) ].

Fixpoint assoc_N {A} (k : N) (l : list (N * A)) : option A :=
  match l with
  | [] => None
  | (k', v) :: l' => if k =? k' then Some v else assoc_N k l'
  end.

Fixpoint upper_run (c : char) (t : list (N * N * N * N)) : char :=
  match t with
  | [] => c
  | (lo, hi, step, img) :: t' =>
      if (lo <=? c) && (c <=? hi) && ((c - lo) mod step =? 0)
      then img + (c - lo) else upper_run c t'
  end.

Definition upper_char (c : char) : str :=
  match assoc_N c upper_special with
  | Some u => u
  | None => [upper_run c upper_runs]
  end.

Definition upper (s : str) : str := flat_map upper_char s.

Local Close Scope N_scope.

Definition str_eqb (a b : str) : bool :=
  if list_eq_dec N.eq_dec a b then true else false.

(** [s[a:b]] for [0 <= a <= b]. *)
Definition slice (s : str) (a b : nat) : str := firstn (b - a) (skipn a s).

(** ** Exceptions *)

Inductive exn : Type :=
| AttributeError
| IndexError
| UnicodeDecodeError
| LookupError
| OSError
| OtherError.

Inductive result (A : Type) : Type :=
| Ok (a : A)
| Raise (e : exn).
Arguments Ok {A} a.
Arguments Raise {A} e.

Definition bind {A B} (m : result A) (f : A -> result B) : result B :=
  match m with
  | Ok a => f a
  | Raise e => Raise e
  end.

Notation "x <- m ;; k" := (bind m (fun x => k))
  (at level 61, m at next level, right associativity).
Notation "' p <- m ;; k" := (bind m (fun x => let p := x in k))
  (at level 61, p pattern, m at next level, right associativity).

Definition exn_eqb (a b : exn) : bool :=
  match a, b with
  | AttributeError, AttributeError | IndexError, IndexError
  | UnicodeDecodeError, UnicodeDecodeError | LookupError, LookupError
  | OSError, OSError | OtherError, OtherError => true
  | _, _ => false
  end.

(** [try: m except e: handler]. *)
Definition try_except {A} (m : result A) (e : exn) (handler : A) : result A :=
  match m with
  | Ok a => Ok a
  | Raise e' => if exn_eqb e e' then Ok handler else Raise e'
  end.

Fixpoint mapM {A B} (f : A -> result B) (l : list A) : result (list B) :=
  match l with
  | [] => Ok []
  | a :: l' => b <- f a ;; bs <- mapM f l' ;; Ok (b :: bs)
  end.

(** ** Regular expressions, as [re] runs them

    A pattern is kept as its syntax tree and run by a backtracking
    matcher with the priorities of [re]: the left alternative first, a
    greedy quantifier tries one more round before stopping and a lazy one
    stops before trying one more round.  A round of a quantifier has to
    consume input (every quantified sub-pattern of this program does). *)

Inductive regex : Type :=
| Eps
| Chr (f : char -> bool)
| Seq (r1 r2 : regex)
| Alt (r1 r2 : regex)
| Rep (greedy : bool) (lo : nat) (hi : option nat) (r : regex)
| Grp (n : nat) (r : regex)
| Bos
| Eos.

(** Captured groups, most recent first. *)
Definition caps := list (nat * str).

Fixpoint group (n : nat) (g : caps) : str :=
  match g with
  | [] => []
  | (m, w) :: g' => if Nat.eqb n m then w else group n g'
  end.

Definition below (hi : option nat) (n : nat) : bool :=
  match hi with
  | None => true
  | Some h => Nat.ltb n h
  end.

Definition orelse {A} (a : option A) (b : unit -> option A) : option A :=
  match a with
  | Some x => Some x
  | None => b tt
  end.

Section Run.
Variable A : Type.
(** A continuation gets the position reached, the text left and the
    groups captured so far. *)
Definition cont := nat -> str -> caps -> option A.

(** The rounds of a quantifier over [body], [n] of them done.  The
    text left bounds the rounds still possible, and [fuel] starts as
    its length. *)
Fixpoint rounds (body : nat -> str -> caps -> cont -> option A)
  (greedy : bool) (lo : nat) (hi : option nat) (k : cont)
  (fuel n pos : nat) (s : str) (g : caps) {struct fuel} : option A :=
  let stop (_ : unit) := if Nat.leb lo n then k pos s g else None in
  let more (_ : unit) :=
    match fuel with
    | O => None
    | S fuel' =>
        if below hi n then
          body pos s g
            (fun p' s' g' =>
               if Nat.ltb (length s') (length s)
               then rounds body greedy lo hi k fuel' (S n) p' s' g'
               else None)
        else None
    end in
  if greedy then orelse (more tt) stop else orelse (stop tt) more.

Fixpoint run (r : regex) (pos : nat) (s : str) (g : caps) (k : cont)
  {struct r} : option A :=
  match r with
  | Eps => k pos s g
  | Chr f =>
      match s with
      | c :: s' => if f c then k (S pos) s' g else None
      | [] => None
      end
  | Seq r1 r2 => run r1 pos s g (fun p' s' g' => run r2 p' s' g' k)
  | Alt r1 r2 => orelse (run r1 pos s g k) (fun _ => run r2 pos s g k)
  | Grp n r1 =>
      run r1 pos s g
        (fun p' s' g' => k p' s' ((n, firstn (p' - pos) s) :: g'))
  | Bos => if Nat.eqb pos 0 then k pos s g else None
  | Eos =>
      match s with
      | [] => k pos s g
      | [c] => if (c =? 10)%N then k pos s g else None
      | _ => None
      end
  | Rep greedy lo hi r1 =>
      rounds (run r1) greedy lo hi k (length s) 0 pos s g
  end.
End Run.

(** One attempt at [pos]: where the match ends and its groups.  With
    [must_advance] an empty match is refused, so that the matcher
    backtracks into a longer one. *)
Definition match_at (r : regex) (must_advance : bool) (pos : nat) (s : str)
  : option (nat * caps) :=
  run r pos s []
    (fun p' _ g' =>
       if must_advance && Nat.eqb p' pos then None else Some (p', g')).

Record Match : Type := mkMatch
  { m_start : nat; m_end : nat; m_group0 : str; m_groups : caps }.

Definition found (pos : nat) (s : str) (x : nat * caps) : Match :=
  mkMatch pos (fst x) (firstn (fst x - pos) s) (snd x).

(** [m.group(n)]. *)
Definition m_group (n : nat) (m : Match) : str :=
  match n with
  | O => m_group0 m
  | _ => group n (m_groups m)
  end.

(** The scanner behind [finditer] and [sub]: [s] is the text from [pos]
    on, of which the first [skip] characters belong to the match just
    reported.  After an empty match the next search starts at the same
    place and has to advance. *)
Fixpoint scan (r : regex) (pos : nat) (s : str) (skip : nat) {struct s}
  : list Match :=
  let next (n : nat) :=
    match s with
    | [] => []
    | _ :: s' => scan r (S pos) s' n
    end in
  match skip with
  | S n => next n
  | O =>
      match match_at r false pos s with
      | None => next O
      | Some x =>
          found pos s x ::
          (if Nat.eqb (fst x) pos then
             match match_at r true pos s with
             | None => next O
             | Some y => found pos s y :: next (fst y - pos - 1)
             end
           else next (fst x - pos - 1))
      end
  end.

(** [re.finditer(r, text)]. *)
Definition finditer (r : regex) (text : str) : list Match := scan r 0 text 0.

(** [re.match(r, text)] and [re.search(r, text)], as truth values. *)
Definition is_some {A} (o : option A) : bool :=
  match o with
  | Some _ => true
  | None => false
  end.

Definition re_match (r : regex) (text : str) : bool :=
  is_some (match_at r false 0 text).

Fixpoint search_from (r : regex) (pos : nat) (s : str) : bool :=
  if is_some (match_at r false pos s) then true
  else match s with
       | [] => false
       | _ :: s' => search_from r (S pos) s'
       end.

Definition re_search (r : regex) (text : str) : bool := search_from r 0 text.

(** A replacement template: literal text and group references. *)
Inductive titem : Type :=
| TLit (s : str)
| TGroup (n : nat).

Definition expand (t : list titem) (m : Match) : str :=
  flat_map (fun i => match i with TLit s => s | TGroup n => m_group n m end) t.

(** The text rebuilt around the matches: [s] is the text from [pos] on. *)
Fixpoint rebuild (t : list titem) (ms : list Match) (pos : nat) (s : str)
  : str :=
  match ms with
  | [] => s
  | m :: ms' =>
      firstn (m_start m - pos) s ++ expand t m
        ++ rebuild t ms' (m_end m) (skipn (m_end m - pos) s)
  end.

(** [re.sub(r, template, text)]. *)
Definition sub (r : regex) (t : list titem) (text : str) : str :=
  rebuild t (finditer r text) 0 text.

(** Pattern syntax. *)
Definition code (a : ascii) : char := N_of_ascii a.
Arguments code a%_char.

Definition chr (a : ascii) : regex := Chr (N.eqb (code a)).
Definition not_chr (a : ascii) : regex := Chr (fun x => negb (x =? code a)%N).
Arguments chr a%_char.
Arguments not_chr a%_char.

Fixpoint seqs (l : list regex) : regex :=
  match l with
  | [] => Eps
  | [r] => r
  | r :: l' => Seq r (seqs l')
  end.

Fixpoint alts (l : list regex) : regex :=
  match l with
  | [] => Chr (fun _ => false)
  | [r] => r
  | r :: l' => Alt r (alts l')
  end.

Definition lits (s : string) : regex :=
  seqs (map (fun c => Chr (N.eqb c)) (lit s)).

(** [re.I] on a [str] pattern: a character matches the pattern letter
    when its lower case is the letter's, or one of the few characters
    [re] declares equivalent to it.  For the ASCII letters these are the
    two cases of the letter and, besides, U+0130 and U+0131 for [i],
    U+212A for [k] and U+017F for [s]. *)
Definition ci (p : char) (c : char) : bool :=
  (let lo := if (65 <=? p) && (p <=? 90) then p + 32 else p in
   if (97 <=? lo) && (lo <=? 122) then
     (c =? lo) || (c =? lo - 32)
     || ((lo =? 105) && ((c =? 0x130) || (c =? 0x131)))
     || ((lo =? 107) && (c =? 0x212A))
     || ((lo =? 115) && (c =? 0x17F))
   else c =? p)%N.

Definition lits_ci (s : string) : regex := seqs (map (fun p => Chr (ci p)) (lit s)).

Definition ws : regex := Chr is_space.
Definition star (r : regex) : regex := Rep true 0 None r.
Definition plus (r : regex) : regex := Rep true 1 None r.
Definition opt (r : regex) : regex := Rep true 0 (Some 1) r.
Definition star_lazy (r : regex) : regex := Rep false 0 None r.
Definition plus_lazy (r : regex) : regex := Rep false 1 None r.

(** ** String methods *)

Fixpoint lstrip (s : str) : str :=
  match s with
  | c :: s' => if is_space c then lstrip s' else s
  | [] => []
  end.

Definition rstrip (s : str) : str := rev (lstrip (rev s)).

(** [s.strip()]. *)
Definition strip (s : str) : str := rstrip (lstrip s).

(** [s.split(sep)] for a separator of one character. *)
Fixpoint split_on (sep : char) (s : str) : list str :=
  match s with
  | [] => [[]]
  | c :: s' =>
      if (c =? sep)%N then [] :: split_on sep s'
      else match split_on sep s' with
           | w :: l => (c :: w) :: l
           | [] => [[c]]
           end
  end.

(** [s.split()]: the maximal runs of characters that are not blank. *)
Fixpoint split (s : str) : list str :=
  match s with
  | [] => []
  | c :: s' =>
      if is_space c then split s'
      else match s' with
           | [] => [[c]]
           | c' :: _ =>
               if is_space c' then [c] :: split s'
               else match split s' with
                    | w :: l => (c :: w) :: l
                    | [] => [[c]]
                    end
           end
  end.

(** [sep.join(l)]. *)
Fixpoint join (sep : str) (l : list str) : str :=
  match l with
  | [] => []
  | [w] => w
  | w :: l' => w ++ sep ++ join sep l'
  end.

Fixpoint startswith (p s : str) : bool :=
  match p, s with
  | [], _ => true
  | a :: p', b :: s' => (a =? b)%N && startswith p' s'
  | _ :: _, [] => false
  end.

Definition endswith (p s : str) : bool := startswith (rev p) (rev s).

(** [l[-1]] and [l[0]]. *)
Definition index_last {A} (l : list A) : result A :=
  match rev l with
  | x :: _ => Ok x
  | [] => Raise IndexError
  end.

Definition index_first {A} (l : list A) : result A :=
  match l with
  | x :: _ => Ok x
  | [] => Raise IndexError
  end.

(** [s.rfind(c)], with [-1] when [c] does not occur. *)
Fixpoint rfind_from (c : char) (s : str) (i : Z) (best : Z) : Z :=
  match s with
  | [] => best
  | x :: s' => rfind_from c s' (i + 1)%Z (if (x =? c)%N then i else best)
  end.

Definition rfind (c : char) (s : str) : Z := rfind_from c s 0%Z (-1)%Z.

(** [os.path.splitext] on a POSIX host: the extension starts at the last
    dot of the last path component, unless only dots precede it there. *)
Definition splitext (p : str) : str * str :=
  let sepIndex := rfind (code "/") p in
  let dotIndex := rfind (code ".") p in
  if (sepIndex <? dotIndex)%Z
     && existsb (fun c => negb (c =? code ".")%N)
          (slice p (Z.to_nat (sepIndex + 1)) (Z.to_nat dotIndex))
  then (firstn (Z.to_nat dotIndex) p, skipn (Z.to_nat dotIndex) p)
  else (p, []).

(** * normalize_arxiv_dump.py *)

Definition MAIN_TEX_PATT : regex :=
  Grp 1 (seqs [lits_ci "\begin"; star ws; chr "{"; star ws;
               lits_ci "document"; star ws; chr "}"]).

Definition PDF_EXT_PATT : regex := seqs [Bos; chr "."; lits_ci "pdf"; Eos].
Definition GZ_EXT_PATT : regex := seqs [Bos; chr "."; lits_ci "gz"; Eos].
Definition TEX_EXT_PATT : regex := seqs [Bos; chr "."; lits_ci "tex"; Eos].

Definition NON_TEXT_PATT : regex :=
  seqs [Bos; chr ".";
        Grp 1 (alts [lits_ci "pdf"; lits_ci "eps"; lits_ci "jpg";
                     lits_ci "png"; lits_ci "gif"]);
        Eos].

Definition PRE_FIX_NATBIB : bool := true.

Definition NATBIB_PATT : regex :=
  seqs [lits_ci "\cite";
        Grp 1 (alts [lits_ci "t"; lits_ci "p"; lits_ci "alt"; lits_ci "alp";
                     lits_ci "author"; lits_ci "year"; lits_ci "yearpar"]);
        star_lazy ws; opt (chr "*"); star_lazy ws;
        star_lazy (Grp 2 (seqs [chr "["; star_lazy (not_chr "]"); chr "]";
                                star_lazy ws]));
        star_lazy ws; opt (chr "*"); star_lazy ws;
        chr "{"; Grp 3 (plus_lazy (not_chr "}")); chr "}"].

Definition PRE_FIX_BIBOPT : bool := true.

Definition BIBOPT_PATT : regex :=
  seqs [lits_ci "\bibitem"; star_lazy ws;
        chr "["; star_lazy (not_chr "]"); chr "]"].

Definition PRE_FILTER_MATH : bool := false.

(** ** Reading a file as text

    Decoding is done by the interpreter and two libraries; what they
    answer on a given byte string is the host's business. *)

Definition bytes := list N.

(** What opening a path for reading gives: the bytes of the file, or the
    exception [open] raises. *)
Definition file := result bytes.

Record Host : Type := mkHost
  { (** [f.read()] on a file opened in text mode: a strict decode with
        the locale's encoding. *)
    text_read : bytes -> result str;
    (** [magic.Magic(mime_encoding=True).from_buffer]. *)
    magic_from_buffer : bytes -> str;
    (** [blob.decode(encoding)], and with [errors='replace'] when the
        flag is set. *)
    decode : bytes -> str -> bool -> result str;
    (** [chardet.detect(blob)['encoding']]. *)
    chardet_detect : bytes -> option str;
    (** [gzip.open(path, 'rb').read()] on a file with these bytes. *)
    gzip_read : bytes -> result bytes;
    (** [latexpand], given the [.bbl] file if any and the main file:
        the output file it leaves behind. *)
    latexpand : option str -> str -> file }.

(** A label is used when it is neither [None] nor empty. *)
Definition truthy (o : option str) : option str :=
  match o with
  | Some (c :: s) => Some (c :: s)
  | _ => None
  end.

Inductive str_or_false : Type :=
| AStr (s : str)
| AFalse.

Section Resolver.
Variable h : Host.

Definition read_file (f : file) : result str :=
  blob <- f ;;
  match text_read h blob with
  | Ok cntnt => Ok cntnt
  | Raise UnicodeDecodeError =>
      let encoding := magic_from_buffer h blob in
      match decode h blob encoding false with
      | Ok cntnt => Ok cntnt
      | Raise UnicodeDecodeError | Raise LookupError =>
          match truthy (chardet_detect h blob) with
          | Some encoding =>
              match decode h blob encoding true with
              | Ok cntnt => Ok cntnt
              | Raise _ => Ok []
              end
          | None => Ok []
          end
      | Raise e => Raise e
      end
  | Raise e => Raise e
  end.

Definition read_gzipped_file (f : file) : result str_or_false :=
  raw <- f ;;
  blob <- gzip_read h raw ;;
  let encoding := magic_from_buffer h blob in
  match decode h blob encoding false with
  | Ok cntnt => Ok (AStr cntnt)
  | Raise UnicodeDecodeError | Raise LookupError =>
      match truthy (chardet_detect h blob) with
      | None => Ok AFalse
      | Some encoding =>
          cntnt <- decode h blob encoding true ;;
          Ok (AStr cntnt)
      end
  | Raise e => Raise e
  end.

(** ** The main file of a paper

    [dir] is what [os.listdir] gives for the paper's directory, each
    name with its file. *)
Definition is_tex (tfn : str) : bool :=
  re_match TEX_EXT_PATT (snd (splitext tfn)).

Definition has_marker (cntnt : str) : bool := re_search MAIN_TEX_PATT cntnt.

(** The first loop: the [.tex] files. *)
Fixpoint tex_files (dir : list (str * file)) (main_tex_path : option str)
  (ignored_names : list (str * file)) : option str * list (str * file) :=
  match dir with
  | [] => (main_tex_path, ignored_names)
  | (tfn, f) :: dir' =>
      if negb (is_tex tfn)
      then tex_files dir' main_tex_path (ignored_names ++ [(tfn, f)])
      else match read_file f with
           | Raise _ => tex_files dir' main_tex_path ignored_names
           | Ok cntnt =>
               tex_files dir'
                 (if has_marker cntnt then Some tfn else main_tex_path)
                 ignored_names
           end
  end.

(** The second loop: the other files. *)
Fixpoint other_files (ignored_names : list (str * file))
  (main_tex_path : option str) : option str :=
  match ignored_names with
  | [] => main_tex_path
  | (tfn, f) :: l =>
      if re_match NON_TEXT_PATT (snd (splitext tfn))
      then other_files l main_tex_path
      else match read_file f with
           | Raise _ => other_files l main_tex_path
           | Ok cntnt =>
               other_files l
                 (if has_marker cntnt then Some tfn else main_tex_path)
           end
  end.

Definition main_tex (dir : list (str * file)) : option str :=
  let '(main_tex_path, ignored_names) := tex_files dir None [] in
  match main_tex_path with
  | Some tfn => Some tfn
  | None => other_files ignored_names None
  end.

(** ** The macro fixes *)

Definition fix_natbib (cntnt : str) : str :=
  sub NATBIB_PATT [TLit (lit "\cite{"); TGroup 3; TLit (lit "}")] cntnt.

Definition fix_bibopt (cntnt : str) : str :=
  sub BIBOPT_PATT [TLit (lit "\bibitem")] cntnt.

(** One round of the loop of [normalize]: [None] when the paper is
    skipped, otherwise the text written out.  [glob] is taken to list
    the [*.bbl] files in the order of the directory.  [remove_math] is
    behind [PRE_FILTER_MATH], which is off, and is not modelled. *)
Definition normalize (dir : list (str * file)) : result (option str) :=
  match main_tex dir with
  | None => Ok None
  | Some main_tex_path =>
      let bbl_files :=
        filter (fun n => negb (startswith (lit ".") n)
                         && endswith (lit ".bbl") n)
               (map fst dir) in
      cntnt <- read_file (latexpand h (hd_error bbl_files) main_tex_path) ;;
      let cntnt := if PRE_FIX_NATBIB then fix_natbib cntnt else cntnt in
      let cntnt := if PRE_FIX_BIBOPT then fix_bibopt cntnt else cntnt in
      Ok (Some cntnt)
  end.
End Resolver.

(** * convert_latex_to_gorc.py *)

(** ** Authors *)

Record AuthorName : Type := mkAuthor
  { first : str;
    middle : list str;
    last : str;
    suffix : str;
    (** ["affiliation"] (a dictionary) and ["email"]; absent in minimal
        mode. *)
    contact : option (list (str * str) * str) }.

Definition suffixes : list str :=
  [lit "Jr"; lit "Sr"; lit "III"; lit "IV"; lit "V"].

Definition is_suffix (w : str) : bool := existsb (str_eqb w) suffixes.

Definition nonempty {A} (l : list A) : bool :=
  match l with
  | [] => false
  | _ :: _ => true
  end.

(** The names the author text is cut into. *)
Definition author_names (author_text : str) : list str :=
  let author_text :=
    sub (seqs [ws; lits "and"; ws]) [TLit (lit ",")] author_text in
  let author_text := sub ws [TLit (lit " ")] author_text in
  filter nonempty (map strip (split_on (code ",") author_text)).

(** The body of the loop over the names. *)
Definition name_entry (minimal : bool) (name : str) : result AuthorName :=
  let name_parts := split name in
  l <- index_last name_parts ;;
  let '(suffix, name_parts) :=
    if is_suffix l then (l, removelast name_parts) else ([], name_parts) in
  f <- index_first name_parts ;;
  let m := removelast (tl name_parts) in
  l <- index_last name_parts ;;
  Ok (mkAuthor f m l suffix (if minimal then None else Some ([], []))).

Definition process_authors (author_text : str) (minimal : bool)
  : result (list AuthorName) :=
  mapM (name_entry minimal) (author_names author_text).

(** ** Bibliography entries *)

Definition process_bibentry (bib_text : str) : str :=
  let bib_lines := split_on 10%N bib_text in
  let bib_lines := map (sub (plus ws) [TLit (lit " ")]) bib_lines in
  let bib_lines :=
    map (fun line => strip (sub ws [TLit (lit " ")] line)) bib_lines in
  join (lit " ") bib_lines.

(** ** The document tree

    [xml] is the document as the converter wrote it; [BeautifulSoup]
    parses it into the tree the program works on. *)

Inductive xml : Type :=
| XText (s : str)
| XSpecial (s : str)
| XElem (name : str) (attrs : list (str * str)) (children : list xml).

(** The program edits the tree in place while it still holds lists of
    nodes found earlier, so a node that has left the tree can be visited
    again through such a list.  To keep this in a tree without pointers,
    an edited tree remembers in place what was cut out:
    - [Replaced by_ old] stands where [old.replace_with(new_string(by_))]
      was called: the tree has the string [by_] there, and [old] lives on
      outside the tree;
    - [Decomposed old] stands where [old.decompose()] was called: the
      tree has nothing there, and [old] and the nodes below it that were
      in the tree at that moment are destroyed (no name, no attributes,
      no contents).
    [Special] is a comment, a processing instruction or a declaration:
    a child, but no part of [.text]. *)
Inductive node : Type :=
| Text (s : str)
| Special (s : str)
| Tag (name : str) (attrs : list (str * str)) (contents : list node)
| Replaced (by_ : str) (old : node)
| Decomposed (old : node).

Fixpoint load (x : xml) : node :=
  match x with
  | XText s => Text s
  | XSpecial s => Special s
  | XElem name attrs children => Tag name attrs (map load children)
  end.

Definition BeautifulSoup (doc : list xml) : node :=
  Tag (lit "[document]") [] (map load doc).

(** A destroyed node, as the program sees it. *)
Definition destroyed : node := Tag [] [] [].

(** [n.text]. *)
Fixpoint text_of (n : node) : str :=
  match n with
  | Text s => s
  | Special _ => []
  | Tag _ _ cs => flat_map text_of cs
  | Replaced s _ => s
  | Decomposed _ => []
  end.

Definition children (n : node) : list node :=
  match n with
  | Tag _ _ cs => cs
  | _ => []
  end.

(** [n.contents]: the children that are in the tree. *)
Definition contents_of (n : node) : list node :=
  filter (fun c => match c with Decomposed _ => false | _ => true end)
         (children n).

(** The tags called [name] in [n] and below, in document order. *)
Fixpoint tags (name : str) (n : node) : list node :=
  match n with
  | Tag nm _ cs =>
      (if str_eqb nm name then [n] else []) ++ flat_map (tags name) cs
  | _ => []
  end.

(** [n.find_all(name)] and [n.find(name)], which is also [n.name]. *)
Definition find_all (name : str) (n : node) : list node :=
  flat_map (tags name) (children n).

Definition find (name : str) (n : node) : option node :=
  hd_error (find_all name n).

Fixpoint assoc (k : str) (l : list (str * str)) : option str :=
  match l with
  | [] => None
  | (k', v) :: l' => if str_eqb k k' then Some v else assoc k l'
  end.

(** [n.get(key)]. *)
Definition get (n : node) (key : str) : option str :=
  match n with
  | Tag _ attrs _ => assoc key attrs
  | _ => None
  end.

(** [x.text] where [x] may be [None]. *)
Definition text_attr (x : option node) : result str :=
  match x with
  | Some n => Ok (text_of n)
  | None => Raise AttributeError
  end.

(** [f] on every child of [n]. *)
Definition below_ (f : node -> node) (n : node) : node :=
  match n with
  | Tag nm a cs => Tag nm a (map f cs)
  | _ => n
  end.

(** [for t in n.find_all(name): t.replace_with(new_string(by_))]: the
    tags of the list that sit inside another one are replaced inside the
    one that has left the tree. *)
Fixpoint replace_tag (name by_ : str) (n : node) : node :=
  match n with
  | Tag nm a cs =>
      let n' := Tag nm a (map (replace_tag name by_) cs) in
      if str_eqb nm name then Replaced by_ n' else n'
  | _ => n
  end.

(** The same for the [ref] tags with a target that is no bibliography
    key. *)
Definition other_target (n : node) : bool :=
  match truthy (get n (lit "target")) with
  | Some t => negb (startswith (lit "bid") t)
  | None => false
  end.

Fixpoint replace_ref (n : node) : node :=
  match n with
  | Tag nm a cs =>
      let n' := Tag nm a (map replace_ref cs) in
      if str_eqb nm (lit "ref") && other_target n
      then Replaced (lit "REF") n' else n'
  | _ => n
  end.

(** [cite.ref.get('target').upper()]. *)
Definition cite_target (cite : node) : result str :=
  match find (lit "ref") cite with
  | None => Raise AttributeError
  | Some r =>
      match get r (lit "target") with
      | None => Raise AttributeError
      | Some t => Ok (upper t)
      end
  end.

(** The loop over the [cit] tags; the target of a tag is read before the
    tags inside it are replaced. *)
Fixpoint replace_cit (n : node) : result node :=
  match n with
  | Tag nm a cs =>
      if str_eqb nm (lit "cit") then
        target <- cite_target n ;;
        cs' <- mapM replace_cit cs ;;
        Ok (Replaced target (Tag nm a cs'))
      else
        cs' <- mapM replace_cit cs ;;
        Ok (Tag nm a cs')
  | _ => Ok n
  end.

Definition replace_cits (n : node) : result node :=
  match n with
  | Tag nm a cs => cs' <- mapM replace_cit cs ;; Ok (Tag nm a cs')
  | _ => Ok n
  end.

(** [for t in n.find_all(name): t.decompose()]: decomposing a tag
    destroys the tags of the list that sit inside it, and decomposing
    those again changes nothing. *)
Fixpoint decompose_tag (name : str) (n : node) : node :=
  match n with
  | Tag nm a cs =>
      if str_eqb nm name then Decomposed n
      else Tag nm a (map (decompose_tag name) cs)
  | _ => n
  end.

(** ** Paragraphs *)

Record Span : Type := mkSpan
  { sp_start : nat; sp_end : nat; sp_token : str }.

Record TextBlock : Type := mkBlock
  { text : str; mention_spans : list Span; section : option str }.

Definition BID : regex := Grp 1 (seqs [lits "BID"; plus (Chr is_digit)]).

Definition cite_span (span : Match) : Span :=
  mkSpan (m_start span) (m_start span + length (m_group 0 span))
         (m_group 0 span).

Definition strip_tags : list str := [lit "formula"; lit "figure"; lit "table"].

(** The three replacement loops, shared by the paragraphs and the
    abstract. *)
Definition replace_keywords (para_el : node) : result node :=
  let para_el :=
    fold_left (fun el tag => below_ (replace_tag tag (upper tag)) el)
              strip_tags para_el in
  let para_el := below_ replace_ref para_el in
  replace_cits para_el.

(** [process_paragraph(soup, para_el, section_name)]: the block, and
    [para_el] as the call leaves it.  [soup] only makes the new strings
    and is left out. *)
Definition process_paragraph (para_el : node) (section_name : str)
  : result (TextBlock * node) :=
  para_el <- replace_keywords para_el ;;
  let text := sub ws [TLit (lit " ")] (text_of para_el) in
  let para_el := below_ (decompose_tag (lit "float")) para_el in
  let para_el := below_ (decompose_tag (lit "note")) para_el in
  let all_cite_spans := map cite_span (finditer BID text) in
  Ok (mkBlock text all_cite_spans (Some section_name), para_el).

(** ** Nodes reached through an earlier [find_all]

    [aliases name dead n]: every tag called [name] that [n] had below
    and including itself before it was edited, in document order,
    whether it still is in the tree or not; each comes with a flag
    telling that it was destroyed. *)
Fixpoint aliases (name : str) (dead : bool) (n : node) : list (bool * node) :=
  match n with
  | Tag nm _ cs =>
      (if str_eqb nm name then [(dead, n)] else [])
        ++ flat_map (aliases name dead) cs
  | Replaced _ old => aliases name false old
  | Decomposed old => aliases name true old
  | _ => []
  end.

(** The result of [n.find_all(name)] as it is after later edits of [n],
    provided [n] was in one piece when the list was made. *)
Definition found_earlier (name : str) (n : node) : list (bool * node) :=
  flat_map (aliases name false) (children n).

(** [f] on the nodes of a list from left to right, with a state handed
    on from one to the next. *)
Fixpoint thread {S : Type} (f : S -> node -> node * S) (st : S)
  (cs : list node) : list node * S :=
  match cs with
  | [] => ([], st)
  | c :: cs' =>
      let (c', st') := f st c in
      let (cs'', st'') := thread f st' cs' in
      (c' :: cs'', st'')
  end.

(** Put [new] where the [i]-th of these tags is; [None] once it is
    done. *)
Fixpoint set_alias (name : str) (new : node) (i : option nat) (n : node)
  {struct n} : node * option nat :=
  match i with
  | None => (n, None)
  | Some k =>
      match n with
      | Tag nm a cs =>
          if str_eqb nm name then
            match k with
            | O => (new, None)
            | S k' =>
                let (cs', i') := thread (set_alias name new) (Some k') cs in
                (Tag nm a cs', i')
            end
          else
            let (cs', i') := thread (set_alias name new) (Some k) cs in
            (Tag nm a cs', i')
      | Replaced by_ old =>
          let (old', i') := set_alias name new i old in (Replaced by_ old', i')
      | Decomposed old =>
          let (old', i') := set_alias name new i old in (Decomposed old', i')
      | _ => (n, i)
      end
  end.

Definition set_found (name : str) (i : nat) (new : node) (n : node) : node :=
  match n with
  | Tag nm a cs => Tag nm a (fst (thread (set_alias name new) (Some i) cs))
  | _ => n
  end.

(** Forget what has left the tree. *)
Fixpoint purge (n : node) : list node :=
  match n with
  | Tag nm a cs => [Tag nm a (flat_map purge cs)]
  | Replaced by_ _ => [Text by_]
  | Decomposed _ => []
  | _ => [n]
  end.

Definition settle (n : node) : node :=
  match n with
  | Tag nm a cs => Tag nm a (flat_map purge cs)
  | _ => n
  end.

(** ** The bibliography *)

(** The tags called [name] in [n] and below, each with the nearest [p]
    above it ([up] is the one above [n]): [t.find_parent('p')]. *)
Fixpoint with_parent (name : str) (up : option node) (n : node)
  : list (node * option node) :=
  match n with
  | Tag nm _ cs =>
      (if str_eqb nm name then [(n, up)] else [])
        ++ flat_map
             (with_parent name (if str_eqb nm (lit "p") then Some n else up))
             cs
  | _ => []
  end.

(** [d[k] = v]. *)
Fixpoint dict_set (k v : str) (d : list (str * str)) : list (str * str) :=
  match d with
  | [] => [(k, v)]
  | (k', v') :: d' =>
      if str_eqb k k' then (k, v) :: d' else (k', v') :: dict_set k v d'
  end.

Fixpoint bibitems (l : list (node * option node)) (bibkey_map : list (str * str))
  : result (list (str * str)) :=
  match l with
  | [] => Ok bibkey_map
  | (bi, parent) :: l' =>
      match truthy (get bi (lit "id")) with
      | None => bibitems l' bibkey_map
      | Some id =>
          t <- text_attr parent ;;
          bibitems l' (dict_set (upper id) (process_bibentry t) bibkey_map)
      end
  end.

(** [soup.Bibliography], with the nearest [p] above it. *)
Definition Bibliography (soup : node) : option (node * option node) :=
  hd_error (flat_map (with_parent (lit "Bibliography") None) (children soup)).

Definition bibliography (soup : node) : result (list (str * str)) :=
  match Bibliography soup with
  | None => Ok []
  | Some (b, up) =>
      bibitems (flat_map (with_parent (lit "bibitem") up) (children b)) []
  end.

(** [n.find(name).decompose()]; the state tells that it is done. *)
Fixpoint decompose_first (name : str) (done : bool) (n : node) {struct n}
  : node * bool :=
  if done then (n, true)
  else match n with
       | Tag nm a cs =>
           if str_eqb nm name then (Decomposed n, true)
           else
             let (cs', d) := thread (decompose_first name) false cs in
             (Tag nm a cs', d)
       | _ => (n, false)
       end.

Definition decompose_found (name : str) (n : node) : node :=
  match n with
  | Tag nm a cs => Tag nm a (fst (thread (decompose_first name) false cs))
  | _ => n
  end.

(** ** The body text *)

Definition name_is (name : string) (n : node) : bool :=
  match n with
  | Tag nm _ _ => str_eqb nm (lit name)
  | _ => false
  end.

(** [for p in el.find_all('p'): process_paragraph(soup, p, section_title)]:
    [todo] counts through the list made before the loop, [el] is the tag
    as the rounds before have left it. *)
Fixpoint paragraphs_below (todo : list nat) (el : node) (section_title : str)
  : result (list TextBlock) :=
  match todo with
  | [] => Ok []
  | i :: todo' =>
      match nth_error (found_earlier (lit "p") el) i with
      | None => Ok []
      | Some (dead, p) =>
          '(block, p') <-
            process_paragraph (if dead then destroyed else p) section_title ;;
          let el := if dead then el else set_found (lit "p") i p' el in
          blocks <- paragraphs_below todo' el section_title ;;
          Ok (block :: blocks)
      end
  end.

(** [for el in div]. *)
Fixpoint div_children (els : list node) (section_title : str)
  (body_text : list TextBlock) : result (str * list TextBlock) :=
  match els with
  | [] => Ok (section_title, body_text)
  | el :: els' =>
      if name_is "head" el then
        div_children els' (text_of el) body_text
      else if name_is "p" el then
        '(block, _) <- process_paragraph el section_title ;;
        div_children els' section_title (body_text ++ [block])
      else if name_is "div1" el then
        section_title <- text_attr (find (lit "head") el) ;;
        let el := settle el in
        blocks <-
          paragraphs_below (seq 0 (length (find_all (lit "p") el))) el
            section_title ;;
        div_children els' section_title (body_text ++ blocks)
      else div_children els' section_title body_text
  end.

(** The [div0] tags that are in no other [div0]: one inside another is
    destroyed with it before its turn comes, and then has no children. *)
Fixpoint outermost (name : str) (n : node) : list node :=
  match n with
  | Tag nm _ cs =>
      if str_eqb nm name then [n] else flat_map (outermost name) cs
  | _ => []
  end.

(** [for div in soup.find_all('div0')]. *)
Fixpoint divs (l : list node) (section_title : str)
  (body_text : list TextBlock) : result (str * list TextBlock) :=
  match l with
  | [] => Ok (section_title, body_text)
  | div :: l' =>
      '(section_title, body_text) <-
        div_children (contents_of div) section_title body_text ;;
      divs l' section_title body_text
  end.

(** ** The abstract and the header *)

(** The value of [abstract]: the empty list it starts as, or a block. *)
Inductive abstract_value : Type :=
| EmptyList
| Block (b : TextBlock).

Record Metadata : Type := mkMetadata
  { title : str; authors : list AuthorName; year : str }.

Record GorcEntry : Type := mkGorc
  { paper_id : str;
    metadata : Metadata;
    abstract : list abstract_value;
    body_text : list TextBlock;
    bib_entries : list (str * str) }.

(** [l.index(max(l))]. *)
Fixpoint index_of (x : nat) (l : list nat) : nat :=
  match l with
  | [] => 0
  | y :: l' => if Nat.eqb x y then 0 else S (index_of x l')
  end.

Definition index_max (l : list nat) : nat := index_of (fold_right Nat.max 0 l) l.

(** [del l[i]]. *)
Fixpoint del {A} (i : nat) (l : list A) : list A :=
  match i, l with
  | _, [] => []
  | O, _ :: l' => l'
  | S i', x :: l' => x :: del i' l'
  end.

Definition four_digits : regex := Rep true 4 (Some 4) (Chr is_digit).

(** [for i, p in enumerate(ps)] with its [del ps[i]]: the iterator hands
    out [ps[i]] for [i = 0, 1, ...] as long as the list, as it is then,
    is that long.  [fuel] bounds the rounds; the length of the list is
    enough. *)
Fixpoint year_loop (fuel i : nat) (ps : list node) (year : str)
  : str * list node :=
  match fuel with
  | O => (year, ps)
  | S fuel' =>
      match nth_error ps i with
      | None => (year, ps)
      | Some p =>
          if re_match four_digits (text_of p)
          then year_loop fuel' (S i) (del i ps) (text_of p)
          else year_loop fuel' (S i) ps year
      end
  end.

Definition blank (text : str) : str := sub ws [TLit (lit " ")] text.

(** The abstract from [abs_p = ps[abstract_entry]], and the list [ps]
    with its elements as the edits of [abs_p] leave them. *)
Definition abstract_of (soup : node) (ps : list node) (abstract_entry : nat)
  : result (TextBlock * list node) :=
  let abs_p := nth abstract_entry ps destroyed in
  if Nat.eqb (length (contents_of abs_p)) 1 then
    Ok (mkBlock (blank (text_of abs_p)) [] None, ps)
  else
    abs_p <- replace_keywords abs_p ;;
    let text := blank (text_of abs_p) in
    let all_cite_spans := map cite_span (finditer BID text) in
    Ok (mkBlock text all_cite_spans None,
        map snd (found_earlier (lit "p")
                   (set_found (lit "p") abstract_entry abs_p soup))).

(** The body of the loop over the papers, from the parsed document on. *)
Definition gorc_entry (arxiv_id : str) (doc : list xml) : result GorcEntry :=
  let soup := BeautifulSoup doc in
  let soup := below_ (decompose_tag (lit "unexpected")) soup in
  bibkey_map <- bibliography soup ;;
  let soup := decompose_found (lit "Bibliography") soup in
  let soup := below_ (decompose_tag (lit "float")) soup in
  '(_, body_text) <-
    divs (flat_map (outermost (lit "div0")) (children soup)) [] [] ;;
  let soup := below_ (decompose_tag (lit "div0")) soup in
  title <- try_except (text_attr (find (lit "title") soup)) AttributeError [] ;;
  authors <-
    try_except
      (t <- text_attr (find (lit "author") soup) ;;
       process_authors (strip t) false)
      AttributeError [] ;;
  year <- try_except (text_attr (find (lit "year") soup)) AttributeError [] ;;
  let soup := settle soup in
  let ps := find_all (lit "p") soup in
  '(abstract, title, authors, year) <-
    match ps with
    | [] => Ok (EmptyList, title, authors, year)
    | _ :: _ =>
        let text_len := map (fun p => length (text_of p)) ps in
        let abstract_entry := index_max text_len in
        '(abstract, ps) <- abstract_of soup ps abstract_entry ;;
        let ps := del abstract_entry ps in
        let '(year, ps) :=
          if negb (nonempty year) && nonempty ps
          then year_loop (length ps) 0 ps year else (year, ps) in
        let title :=
          match title, ps with
          | [], p :: _ => text_of p
          | _, _ => title
          end in
        authors <-
          match authors, ps with
          | [], _ :: p :: _ => process_authors (strip (text_of p)) false
          | _, _ => Ok authors
          end ;;
        Ok (Block abstract, title, authors, year)
    end ;;
  Ok (mkGorc arxiv_id (mkMetadata title authors year) [abstract] body_text
             bibkey_map).

(** * Notions used by the statements *)

(** ** What a pattern can match

    [matches r pos w rest]: at position [pos] of a text, [r] can match
    [w] when [rest] follows.  The matcher picks one such [w] by its
    priorities; what it picks is always one of them. *)
Inductive matches : regex -> nat -> str -> str -> Prop :=
| M_eps pos rest : matches Eps pos [] rest
| M_chr (f : char -> bool) c pos rest :
    f c = true -> matches (Chr f) pos [c] rest
| M_seq r1 r2 pos w1 w2 rest :
    matches r1 pos w1 (w2 ++ rest) ->
    matches r2 (pos + length w1) w2 rest ->
    matches (Seq r1 r2) pos (w1 ++ w2) rest
| M_alt_l r1 r2 pos w rest :
    matches r1 pos w rest -> matches (Alt r1 r2) pos w rest
| M_alt_r r1 r2 pos w rest :
    matches r2 pos w rest -> matches (Alt r1 r2) pos w rest
| M_grp n r pos w rest :
    matches r pos w rest -> matches (Grp n r) pos w rest
| M_bos rest : matches Bos 0 [] rest
| M_eos pos rest :
    rest = [] \/ rest = [10%N] -> matches Eos pos [] rest
| M_rep_stop greedy hi r pos rest : matches (Rep greedy 0 hi r) pos [] rest
| M_rep_more greedy lo hi r pos w1 w2 rest :
    below hi 0 = true ->
    w1 <> [] ->
    matches r pos w1 (w2 ++ rest) ->
    matches (Rep greedy (pred lo) (option_map pred hi) r)
            (pos + length w1) w2 rest ->
    matches (Rep greedy lo hi r) pos (w1 ++ w2) rest.

(** What [run r] promises, said of any [body] in its place: when it
    answers, it has matched a prefix and the continuation has answered
    on the rest. *)
Definition sound_on (A : Type) (r : regex)
  (body : nat -> str -> caps -> cont A -> option A) : Prop :=
  forall pos s g (k : cont A) res,
    body pos s g k = Some res ->
    exists w rest g',
      s = w ++ rest /\ matches r pos w rest
      /\ k (pos + length w) rest g' = Some res.

(** The answer of [body] depends on the continuation only where the
    text left is no longer than the text given. *)
Definition local_on (A : Type)
  (body : nat -> str -> caps -> cont A -> option A) : Prop :=
  forall pos s g (k1 k2 : cont A),
    (forall p' s' g', length s' <= length s -> k1 p' s' g' = k2 p' s' g') ->
    body pos s g k1 = body pos s g k2.

(** Without an answer from the continuation [body] has none. *)
Definition strict_on (A : Type)
  (body : nat -> str -> caps -> cont A -> option A) : Prop :=
  forall pos s g, body pos s g (fun _ _ _ => None) = None.

(** The matches reported by a scan follow one another: each starts at or
    after [lb], where the one before ended. *)
Fixpoint chain (lb : nat) (ms : list Match) : Prop :=
  match ms with
  | [] => True
  | m :: ms' =>
      lb <= m_start m /\ m_start m <= m_end m /\ chain (m_end m) ms'
  end.

(** A match reported on [text]: it starts after [before], covers [w],
    and [r] can match [w] there. *)
Definition reported (r : regex) (text : str) (m : Match) : Prop :=
  exists before w rest,
    text = before ++ w ++ rest
    /\ m_start m = length before
    /\ m_end m = length before + length w
    /\ m_group0 m = w
    /\ matches r (length before) w rest.

(** ** Mention spans *)

(** A token of the shape [BID] followed by one or more digits. *)
Definition is_BID_token (token : str) : Prop :=
  exists digits,
    token = lit "BID" ++ digits /\ digits <> []
    /\ Forall (fun c => is_digit c = true) digits.


(** [a] starts before [b] does and ends where [b] starts or earlier. *)
Definition before (a b : Span) : Prop :=
  sp_start a < sp_start b /\ sp_end a <= sp_start b.


(** ** Whitespace *)

(** What [re.sub(r'\s', ' ', ...)] does to one character. *)
Definition blank_char (c : char) : char := if is_space c then code " " else c.

(** Two whitespace characters in a row. *)
Fixpoint has_blank_run (s : str) : bool :=
  match s with
  | c :: ((c' :: _) as s') => (is_space c && is_space c') || has_blank_run s'
  | _ => false
  end.

(** ** Sample documents *)

Definition elem (name : string) (attrs : list (string * string))
  (children : list xml) : xml :=
  XElem (lit name) (map (fun a => (lit (fst a), lit (snd a))) attrs) children.

Definition txt (s : string) : xml := XText (lit s).

(** A paragraph with two blanks in a row. *)
Definition par_two_blanks : xml := elem "p" [] [txt "a  b"].

(** ** Canonical citations *)

(** [s] starts with [p], compared the way [re.I] compares. *)
Fixpoint starts_ci (p s : str) : bool :=
  match p, s with
  | [], _ => true
  | a :: p', c :: s' => ci a c && starts_ci p' s'
  | _ :: _, [] => false
  end.

(** Every citation macro of the text is a plain [\cite{...}]: wherever
    [\cite] stands in the text, in whatever case, the argument follows,
    after blanks if any, with no suffix, star or bracket between. *)
Fixpoint canonical_cites (text : str) : bool :=
  match text with
  | [] => true
  | _ :: text' =>
      (if starts_ci (lit "\cite") text
       then startswith (lit "{") (lstrip (skipn 5 text)) else true)
      && canonical_cites text'
  end.

(** No bibliography item of the text has a bracketed option: wherever
    [\bibitem] stands in the text, in whatever case, what follows it,
    after blanks if any, is no opening bracket. *)
Fixpoint bibitems_without_option (text : str) : bool :=
  match text with
  | [] => true
  | _ :: text' =>
      (if starts_ci (lit "\bibitem") text
       then negb (startswith (lit "[") (lstrip (skipn 8 text))) else true)
      && bibitems_without_option text'
  end.

(** The letters a suffix of the citation pattern can start with. *)
Definition suffix_letter (c : char) : bool :=
  ci (code "t") c || ci (code "p") c || ci (code "a") c || ci (code "y") c.

(** A text with canonical citations and bibliography items without an
    option only. *)
Definition canonical_sample : str :=
  lit "As in \cite{knuth84} and \cite {a,b}, see \Cite{c}. \bibitem{c} C. [1]".

(** A text with a canonical citation and a bibliography item that has
    an option. *)
Definition bibitem_option_sample : str :=
  lit "See \cite{a}. \bibitem[Knuth(1984)]{k} D. Knuth".

(** ** The main file *)

(** A [.tex] file that can be read and whose text has the marker. *)
Definition tex_with_marker (h : Host) (e : str * file) : bool :=
  is_tex (fst e)
  && match read_file h (snd e) with
     | Ok cntnt => has_marker cntnt
     | Raise _ => false
     end.

(** ** The decoding chain *)

(** No strategy of the chain of [read_file] succeeds on [blob]. *)
Definition unrecoverable (h : Host) (blob : bytes) : Prop :=
  (exists e, text_read h blob = Raise e)
  /\ (exists e, decode h blob (magic_from_buffer h blob) false = Raise e)
  /\ (truthy (chardet_detect h blob) = None
      \/ exists encoding e,
           truthy (chardet_detect h blob) = Some encoding
           /\ decode h blob encoding true = Raise e).

(** ** A sample host

    The locale is ASCII, the sniffer tells ASCII from binary, the only
    codec is ASCII, the detector never finds a label, and a gzip file is
    its two magic bytes followed by the content as it is. *)
Definition ascii_only (b : bytes) : bool := forallb (fun x => (x <? 128)%N) b.

Definition sample_host : Host :=
  {| text_read := fun b => if ascii_only b then Ok b else Raise UnicodeDecodeError;
     magic_from_buffer :=
       fun b => if ascii_only b then lit "us-ascii" else lit "binary";
     decode :=
       fun b encoding replace =>
         if str_eqb encoding (lit "us-ascii") then
           if ascii_only b then Ok b
           else if replace
                then Ok (map (fun x => if (x <? 128)%N then x else 0xFFFD%N) b)
                else Raise UnicodeDecodeError
         else Raise LookupError;
     chardet_detect := fun _ => None;
     gzip_read :=
       fun raw =>
         match raw with
         | 0x1F%N :: 0x8B%N :: blob => Ok blob
         | _ => Raise OSError
         end;
     latexpand := fun _ _ => Raise OSError |}.

(** The directory of the specification's example: [a.tex] without the
    marker, [b.tex] and [c.tex] with it. *)
Definition sample_dir : list (str * file) :=
  [ (lit "a.tex", Ok (lit "\input{b}"));
    (lit "b.tex", Ok (lit "\begin{document} b \end{document}"));
    (lit "c.tex", Ok (lit "\begin{document} c \end{document}")) ].

(** A gzip file whose content is the one byte [0xFF]. *)
Definition sample_gzip : file := Ok [0x1F%N; 0x8B%N; 0xFF%N].

(** A section with a citation that has no reference inside. *)
Definition doc_cit_without_ref : list xml :=
  [elem "std" []
     [elem "title" [] [txt "A title"];
      elem "div0" []
        [elem "head" [] [txt "Intro"];
         elem "p" [] [txt "As shown in "; elem "cit" [] []; txt "."]]]].

(** A paragraph with a note. *)
Definition par_with_note : xml :=
  elem "p" [] [txt "Hello"; elem "note" [] [txt "secret"]; txt " world"].

(** A header without title, authors and year: the longest paragraph is
    the abstract, and three more paragraphs follow. *)
Definition doc_two_years : list xml :=
  [elem "std" []
     [elem "p" [] [txt "This is the abstract of the paper."];
      elem "p" [] [txt "2001 spring"];
      elem "p" [] [txt "A title"];
      elem "p" [] [txt "2002 fall"]]].

Definition pool_two_years : list node :=
  map load
    [elem "p" [] [txt "2001 spring"];
     elem "p" [] [txt "A title"];
     elem "p" [] [txt "2002 fall"]].

(** A document with a title and no paragraph. *)
Definition doc_without_paragraph : list xml :=
  [elem "std" [] [elem "title" [] [txt "A title"]]].

(** A paper of the usual shape. *)
Definition doc_sample : list xml :=
  [elem "std" []
     [elem "title" [] [txt "A title"];
      elem "author" [] [txt "Ann Lee and Bob Ray Jr"];
      elem "p" []
        [txt "We extend "; elem "cit" [] [elem "ref" [("target", "bid3")%string] []];
         txt " to "; elem "formula" [] [txt "x+y"]; txt "."];
      elem "div0" []
        [elem "head" [] [txt "Intro"];
         elem "p" []
           [txt "See "; elem "cit" [] [elem "ref" [("target", "bid12")%string] []];
            txt " and "; elem "cit" [] [elem "ref" [("target", "bid7")%string] []];
            txt ", "; elem "ref" [("target", "uid1")%string] []; txt "."]];
      elem "Bibliography" []
        [elem "p" [] [elem "bibitem" [("id", "bid3")%string] []; txt "Knuth,  D."]]]].

(** ** Nodes found earlier *)

(** The tags called [name] that [n] had before it was edited. *)
Definition nodes (name : str) (n : node) : list node :=
  map snd (aliases name false n).

(** [f] edits a node without adding or losing a tag called [name]. *)
Definition keeps (name : str) (f : node -> node) : Prop :=
  forall n, length (nodes name (f n)) = length (nodes name n).

(** What [set_alias] does at position [k] of a node: it passes by when
    the node has fewer tags, and else puts [new] where the [k]-th is. *)
Definition set_alias_spec (name : str) (new : node) (n : node) : Prop :=
  forall k,
    (length (nodes name n) <= k ->
     set_alias name new (Some k) n = (n, Some (k - length (nodes name n))))
    /\ (forall old,
          nth_error (nodes name n) k = Some old ->
          length (nodes name new) = length (nodes name old) ->
          exists n',
            set_alias name new (Some k) n = (n', None)
            /\ length (nodes name n') = length (nodes name n)).

(** A directory without a [.tex] file: a picture and a main file with
    another extension. *)
Definition sample_dir_other : list (str * file) :=
  [ (lit "fig.eps", Ok (lit "\begin{document}"));
    (lit "paper.ltx", Ok (lit "\documentclass{article} \begin {document} x")) ].

(** * Notions used by the further properties *)

(** ** The main file, the other files *)

(** A file that is no [.tex] file and no picture, that can be read and
    whose text has the marker. *)
Definition other_with_marker (h : Host) (e : str * file) : bool :=
  negb (is_tex (fst e))
  && negb (re_match NON_TEXT_PATT (snd (splitext (fst e))))
  && match read_file h (snd e) with
     | Ok cntnt => has_marker cntnt
     | Raise _ => false
     end.

(** The last element of a list with a property. *)
Definition last_such {A} (p : A -> bool) (l : list A) : option A :=
  List.find p (rev l).

(** ** Authors *)

(** The suffix of an entry as a token: none when it is the empty
    string. *)
Definition suffix_tokens (a : AuthorName) : list str :=
  if nonempty (suffix a) then [suffix a] else [].

(** [a] is the entry of [name]: the tokens of the name are the first
    name, the middle names, the last name and the suffix of the entry,
    in this order, where a name with one token beside the suffix has it
    as first and as last name; the suffix is one of the five, or there
    is none and the last name is none of them; the contact fields are
    empty, and absent in minimal mode. *)
Definition entry_of (minimal : bool) (name : str) (a : AuthorName) : Prop :=
  (split name = first a :: middle a ++ last a :: suffix_tokens a
   \/ split name = first a :: suffix_tokens a
      /\ middle a = [] /\ last a = first a)
  /\ (is_suffix (suffix a) = true
      \/ suffix a = [] /\ is_suffix (last a) = false)
  /\ contact a = if minimal then None else Some ([], []).

(** A token: not empty, without a blank and without a comma. *)
Definition clean_token (w : str) : Prop :=
  w <> [] /\ forall c, In c w -> is_space c = false /\ c <> code ",".

(** ** Runs of characters *)

(** The length of the longest prefix of [s] whose characters satisfy
    [f]. *)
Fixpoint span_len (f : char -> bool) (s : str) : nat :=
  match s with
  | c :: s' => if f c then S (span_len f s') else 0
  | [] => 0
  end.

(** [s] with every maximal run of characters that satisfy [f] replaced
    by [x]; [in_run] tells that the character before [s] was one of a
    run. *)
Fixpoint collapse (f : char -> bool) (x : str) (in_run : bool) (s : str)
  : str :=
  match s with
  | [] => []
  | c :: s' =>
      if f c then (if in_run then [] else x) ++ collapse f x true s'
      else c :: collapse f x false s'
  end.

(** A text that keeps its blanks apart and away from its ends: with a
    space put on either side it has no two blanks in a row. *)
Definition spaced (s : str) : Prop :=
  has_blank_run (code " " :: s ++ [code " "]) = false.

(** ** Citation markers in a text *)

(** [m] is what one attempt of the matcher at some place of [text]
    gave. *)
Definition seen_at (r : regex) (text : str) (m : Match) : Prop :=
  exists pre s must x,
    text = pre ++ s
    /\ match_at r must (length pre) s = Some x
    /\ m = found (length pre) s x.

(** The length of the citation marker at the head of [s], with all the
    digits that follow [BID] there. *)
Definition marker_len (s : str) : option nat :=
  match s with
  | b :: i :: d :: s' =>
      if ((b =? code "B") && (i =? code "I") && (d =? code "D"))%N then
        match span_len is_digit s' with
        | 0 => None
        | S n => Some (3 + S n)
        end
      else None
  | _ => None
  end.

(** [sp] is a citation marker of [text] with all its digits: the text
    has [BID] and one or more digits from [sp_start] to [sp_end], and
    no digit follows. *)
Definition marker_occurrence (text : str) (sp : Span) : Prop :=
  exists pre rest,
    text = pre ++ sp_token sp ++ rest
    /\ sp_start sp = length pre
    /\ sp_end sp = length pre + length (sp_token sp)
    /\ is_BID_token (sp_token sp)
    /\ (forall c rest', rest = c :: rest' -> is_digit c = false).

(** A citation with a digit of the text right after it. *)
Definition par_marker_digit : xml :=
  elem "p" []
    [txt "See "; elem "cit" [] [elem "ref" [("target", "bid12")%string] []];
     txt "7."].

(** ** The year and the abstract among the paragraphs *)

(** [re.match(r'\d{4}', p.text)]. *)
Definition starts_with_year (p : node) : bool :=
  re_match four_digits (text_of p).

(** No two elements in a row satisfy [f]. *)
Fixpoint no_two_adjacent {A} (f : A -> bool) (l : list A) : bool :=
  match l with
  | a :: ((b :: _) as l') => negb (f a && f b) && no_two_adjacent f l'
  | _ => true
  end.

(** ** Paragraphs and their citations *)

(** The paragraph after the keyword loops over [formula], [figure],
    [table] and [ref], as the loop over the citations finds it. *)
Definition keywords_replaced (para_el : node) : node :=
  below_ replace_ref
    (fold_left (fun el tag => below_ (replace_tag tag (upper tag)) el)
               strip_tags para_el).

(** ** The text of a paragraph, part by part *)

Fixpoint concat_some (l : list (option str)) : option str :=
  match l with
  | [] => Some []
  | Some x :: l' =>
      match concat_some l' with
      | Some y => Some (x ++ y)
      | None => None
      end
  | None :: _ => None
  end.

(** What a node of a parsed paragraph stands for in the text of the
    block: a string for itself, a comment for nothing, a [formula],
    [figure] or [table] for its keyword, a [ref] to something that is
    no bibliography key for [REF], a [cit] around one empty [ref] to a
    bibliography key for the key in upper case, any other tag for what
    its children stand for.  [None] for a citation of another shape. *)
Fixpoint stands_for (n : node) : option str :=
  match n with
  | Text s => Some s
  | Special _ => Some []
  | Tag nm a cs =>
      if existsb (str_eqb nm) strip_tags then Some (upper nm)
      else if str_eqb nm (lit "cit") then
        match cs with
        | [Tag rn ra []] =>
            if str_eqb rn (lit "ref") && negb (other_target (Tag rn ra []))
            then option_map upper (assoc (lit "target") ra)
            else None
        | _ => None
        end
      else if str_eqb nm (lit "ref") && other_target n then Some (lit "REF")
      else concat_some (map stands_for cs)
  | Replaced _ _ | Decomposed _ => None
  end.

(** The three keyword loops and the loop over the references, on one
    child of the paragraph. *)
Definition prepared (c : node) : node :=
  replace_ref
    (replace_tag (lit "table") (upper (lit "table"))
       (replace_tag (lit "figure") (upper (lit "figure"))
          (replace_tag (lit "formula") (upper (lit "formula")) c))).

(** The children of a paragraph of the usual shape. *)
Definition par_usual : list xml :=
  [txt "By "; elem "cit" [] [elem "ref" [("target", "bid3")%string] []];
   txt " we get "; elem "formula" [("type", "inline")%string] [txt "x+y"];
   txt " (see "; elem "ref" [("target", "uid7")%string] [];
   txt " and "; elem "hi" [] [txt "also "; elem "table" [] []]; txt ")."].

(** * The identifier of a paper

    [convert_latex_to_xml.py] and [convert_latex_to_gorc.py] read the
    identifier of a paper off the name of its normalised file:
    [_, arxiv_id = os.path.split(os.path.splitext(tex_file)[0])]. *)

(** [s.rstrip('/')]. *)
Fixpoint lstrip_sep (s : str) : str :=
  match s with
  | c :: s' => if (c =? code "/")%N then lstrip_sep s' else s
  | [] => []
  end.

Definition rstrip_sep (s : str) : str := rev (lstrip_sep (rev s)).

(** [os.path.split] on a POSIX host: the head loses its trailing
    slashes unless it has nothing else. *)
Definition os_path_split (p : str) : str * str :=
  let i := Z.to_nat (rfind (code "/") p + 1) in
  let head := firstn i p in
  let tail := skipn i p in
  (if nonempty head && negb (forallb (fun c => (c =? code "/")%N) head)
   then rstrip_sep head else head,
   tail).

Definition arxiv_id (tex_file : str) : str :=
  snd (os_path_split (fst (splitext tex_file))).

(** ** Substitution from left to right *)

(** A pattern that does not ask for the start of the text. *)
Fixpoint bos_free (r : regex) : bool :=
  match r with
  | Bos => false
  | Seq r1 r2 | Alt r1 r2 => bos_free r1 && bos_free r2
  | Rep _ _ _ r1 | Grp _ r1 => bos_free r1
  | _ => true
  end.

(** A match reported [d] places further on. *)
Definition shift (d : nat) (m : Match) : Match :=
  mkMatch (d + m_start m) (d + m_end m) (m_group0 m) (m_groups m).

(** ** Bibliography items with an option *)

(** Every [\bibitem] of the text is a plain [\bibitem{...}]: wherever
    [\bibitem] stands in the text, in whatever case, the argument
    follows at once. *)
Fixpoint plain_bibitems (text : str) : bool :=
  match text with
  | [] => true
  | _ :: text' =>
      (if starts_ci (lit "\bibitem") text
       then startswith (lit "{") (skipn 8 text) else true)
      && plain_bibitems text'
  end.

(** ** Citation macros with a suffix *)

(** The part of the citation pattern after the suffix. *)
Definition natbib_rest : regex :=
  seqs [star_lazy ws; opt (chr "*"); star_lazy ws;
        star_lazy (Grp 2 (seqs [chr "["; star_lazy (not_chr "]"); chr "]";
                                star_lazy ws]));
        star_lazy ws; opt (chr "*"); star_lazy ws;
        chr "{"; Grp 3 (plus_lazy (not_chr "}")); chr "}"].

(** The suffixes of the citation macros, in the order of the pattern. *)
Definition natbib_suffixes : list string :=
  ["t"; "p"; "alt"; "alp"; "author"; "year"; "yearpar"]%string.

(** [w] is [p] but for the case of its letters, as [re.I] compares. *)
Definition same_ci (p w : str) : bool :=
  starts_ci p w && Nat.eqb (length w) (length p).

Definition is_natbib_suffix (w : str) : bool :=
  existsb (fun p => same_ci (lit p) w) natbib_suffixes.

(** * Math removal ([normalize_arxiv_dump.py])

    [remove_math] is what [normalize] calls when [PRE_FILTER_MATH] is
    set. *)

(** [.] under [re.S]. *)
Definition any_char : regex := Chr (fun _ => true).

(** [\\begin\{env[*]?\}.+?\\end\{env\}] under [re.I | re.M | re.S]. *)
Definition env_patt (env : string) : regex :=
  seqs [lits_ci "\begin{"; lits_ci env; opt (Chr (ci (code "*")));
        lits_ci "}"; plus_lazy any_char;
        lits_ci "\end{"; lits_ci env; lits_ci "}"].

Definition FILTER_PATTS : list regex :=
  map env_patt
    ["equation"; "displaymath"; "array"; "eqnarray"; "align"; "gather";
     "multline"; "flalign"; "alignat"]%string
  ++ [seqs [lits "$$"; plus_lazy any_char; lits "$$"];
      seqs [lits "$"; plus_lazy any_char; lits "$"];
      seqs [lits "\("; plus_lazy any_char; lits "\)"];
      seqs [lits "\["; plus_lazy any_char; lits "\]"]].

(** [re.split(r, text, maxsplit=1)] for a pattern with one group that
    matches no empty text: the text before the first match, the group
    and the text after the match, or the text alone. *)
Definition re_split1 (r : regex) (text : str) : list str :=
  match finditer r text with
  | [] => [text]
  | m :: _ => [firstn (m_start m) text; m_group 1 m; skipn (m_end m) text]
  end.

(** [l[i]] and [l[i] = x]. *)
Definition list_get {A} (l : list A) (i : nat) : result A :=
  match nth_error l i with
  | Some x => Ok x
  | None => Raise IndexError
  end.

Fixpoint list_set {A} (l : list A) (i : nat) (x : A) : result (list A) :=
  match l, i with
  | [], _ => Raise IndexError
  | _ :: l', O => Ok (x :: l')
  | y :: l', S i' => l'' <- list_set l' i' x ;; Ok (y :: l'')
  end.

(** The loop over the patterns. *)
Fixpoint filter_parts (patts : list regex) (parts : list str)
  : result (list str) :=
  match patts with
  | [] => Ok parts
  | patt :: patts' =>
      body <- list_get parts 2 ;;
      parts <- list_set parts 2 (sub patt [] body) ;;
      filter_parts patts' parts
  end.

Definition remove_math (latex_str : str) : result str :=
  let parts := re_split1 MAIN_TEX_PATT latex_str in
  parts <- filter_parts FILTER_PATTS parts ;;
  Ok (concat parts).

(** [a] is [b] with some of its characters left out. *)
Inductive subseq : str -> str -> Prop :=
| subseq_nil : subseq [] []
| subseq_keep c a b : subseq a b -> subseq (c :: a) (c :: b)
| subseq_drop c a b : subseq a b -> subseq a (c :: b).

(** ** Author texts with a comma *)

(** [s] starts with a blank, [and] and a blank. *)
Definition and_at (s : str) : bool :=
  match s with
  | c1 :: c2 :: c3 :: c4 :: c5 :: _ =>
      (is_space c1 && (code "a" =? c2) && (code "n" =? c3) && (code "d" =? c4)
       && is_space c5)%N
  | _ => false
  end.

(** * download_arxiv_source.py

    The loop over the file names of the manifest:
    [_, fname = prefix.text.split('/')] and
    [local_arxiv_tar = os.path.join(OUTPUT_DIR, fname)]. *)

(** [a, b = l]: [None] stands for the [ValueError] of an unpacking
    that does not find two values. *)
Definition unpack2 {A} (l : list A) : option (A * A) :=
  match l with
  | [a; b] => Some (a, b)
  | _ => None
  end.

Definition BULK_DIR : str := lit "data/bulk_arxiv/".

(** [os.path.join(d, name)] for a directory that ends with a slash. *)
Definition join_dir (d name : str) : str :=
  if startswith (lit "/") name then name else d ++ name.

Definition local_arxiv_tar (text : str) : option str :=
  match unpack2 (split_on (code "/") text) with
  | Some (_, fname) => Some (join_dir BULK_DIR fname)
  | None => None
  end.


(** * Properties *)

(** ** Unfolding the exceptions *)

Lemma bind_ok {A B} (m : result A) (f : A -> result B) b :
  bind m f = Ok b -> exists a, m = Ok a /\ f a = Ok b.
Proof. destruct m as [a|e]; simpl; intros H; [eauto | discriminate]. Qed.

Ltac bind_inv H :=
  let a := fresh "a" in
  let E := fresh "E" in
  apply bind_ok in H; destruct H as (a & E & H).

(** ** The matcher *)

Lemma orelse_some {A} (a : option A) (b : unit -> option A) (x : A) :
  orelse a b = Some x -> a = Some x \/ b tt = Some x.
Proof. destruct a; simpl; intros H; [left|right]; assumption. Qed.

Section RunSound.
Variable A : Type.
Lemma below_sub hi n : below hi n = true ->
  below (option_map (fun h => h - n) hi) 0 = true.
Proof.
  destruct hi as [h|]; simpl; trivial.
  intros H. apply Nat.ltb_lt in H. apply Nat.ltb_lt. lia.
Qed.

Lemma rounds_sound r body greedy lo hi (k : cont A) :
  sound_on r body ->
  forall fuel n pos s g res,
    rounds body greedy lo hi k fuel n pos s g = Some res ->
    exists w rest g',
      s = w ++ rest
      /\ matches (Rep greedy (lo - n) (option_map (fun h => h - n) hi) r)
                 pos w rest
      /\ k (pos + length w) rest g' = Some res.
Proof.
  intros Hb. induction fuel as [|fuel IH]; intros n pos s g res H.
  - assert (Hs : (if Nat.leb lo n then k pos s g else None) = Some res).
    { simpl in H. destruct greedy; simpl in H; [assumption|].
      apply orelse_some in H. destruct H as [H|H];
        [assumption | discriminate]. }
    destruct (Nat.leb lo n) eqn:E; [|discriminate].
    apply Nat.leb_le in E.
    exists [], s, g. replace (lo - n) with 0 by lia.
    rewrite Nat.add_0_r. repeat split; [constructor | assumption].
  - simpl in H.
    assert (Hcase :
      (if Nat.leb lo n then k pos s g else None) = Some res
      \/ (if below hi n
          then body pos s g
                 (fun p' s' g' =>
                    if Nat.ltb (length s') (length s)
                    then rounds body greedy lo hi k fuel (S n) p' s' g'
                    else None)
          else None) = Some res).
    { destruct greedy; apply orelse_some in H; tauto. }
    clear H. destruct Hcase as [Hs|Hm].
    + destruct (Nat.leb lo n) eqn:E; [|discriminate].
      apply Nat.leb_le in E.
      exists [], s, g. replace (lo - n) with 0 by lia.
      rewrite Nat.add_0_r. repeat split; [constructor | assumption].
    + destruct (below hi n) eqn:E; [|discriminate].
      apply Hb in Hm. destruct Hm as (w1 & rest1 & g1 & Hs & Hm & Hk).
      destruct (Nat.ltb (length rest1) (length s)) eqn:El; [|discriminate].
      apply Nat.ltb_lt in El.
      apply IH in Hk. destruct Hk as (w2 & rest & g' & Hr & Hm2 & Hk).
      exists (w1 ++ w2), rest, g'. subst.
      rewrite <- app_assoc. split; [reflexivity|]. split.
      * apply M_rep_more.
        -- apply below_sub; assumption.
        -- intros ->. simpl in El. lia.
        -- assumption.
        -- replace (pred (lo - n)) with (lo - S n) by lia.
           replace (option_map pred (option_map (fun h => h - n) hi))
             with (option_map (fun h => h - S n) hi).
           ++ assumption.
           ++ destruct hi; simpl; [f_equal; lia | reflexivity].
      * rewrite length_app, Nat.add_assoc. assumption.
Qed.

Lemma run_sound r : sound_on r (run (A:=A) r).
Proof.
  induction r as [ | f | r1 IH1 r2 IH2 | r1 IH1 r2 IH2
                 | greedy lo hi r IH | n r IH | | ];
    intros pos s g k res H; simpl in H.
  - exists [], s, g. rewrite Nat.add_0_r.
    repeat split; [constructor | assumption].
  - destruct s as [|c s]; [discriminate|].
    destruct (f c) eqn:E; [|discriminate].
    exists [c], s, g. simpl. replace (pos + 1) with (S pos) by lia.
    repeat split; [constructor; assumption | assumption].
  - apply IH1 in H. destruct H as (w1 & rest1 & g1 & -> & Hm1 & H).
    apply IH2 in H. destruct H as (w2 & rest & g2 & -> & Hm2 & H).
    exists (w1 ++ w2), rest, g2. rewrite <- app_assoc.
    split; [reflexivity|]. split; [constructor; assumption|].
    rewrite length_app, Nat.add_assoc. assumption.
  - apply orelse_some in H. destruct H as [H|H].
    + apply IH1 in H. destruct H as (w & rest & g' & -> & Hm & H).
      exists w, rest, g'. repeat split; [apply M_alt_l|]; assumption.
    + apply IH2 in H. destruct H as (w & rest & g' & -> & Hm & H).
      exists w, rest, g'. repeat split; [apply M_alt_r|]; assumption.
  - eapply rounds_sound in H; [|exact IH].
    destruct H as (w & rest & g' & -> & Hm & H).
    exists w, rest, g'. rewrite Nat.sub_0_r in Hm.
    replace (option_map (fun h => h - 0) hi) with hi in Hm
      by (destruct hi; simpl; [f_equal; lia | reflexivity]).
    repeat split; assumption.
  - apply IH in H. destruct H as (w & rest & g' & -> & Hm & H).
    eexists w, rest, _. repeat split; [constructor; assumption | exact H].
  - destruct (Nat.eqb pos 0) eqn:E; [|discriminate].
    apply Nat.eqb_eq in E. subst. exists [], s, g.
    repeat split; [constructor | assumption].
  - exists [], s, g. rewrite Nat.add_0_r.
    destruct s as [|c [|c' s]]; try discriminate.
    + repeat split; [constructor; left; reflexivity | assumption].
    + destruct (N.eqb_spec c 10); [|discriminate]. subst.
      repeat split; [constructor; right; reflexivity | assumption].
Qed.
End RunSound.

(** An attempt that succeeds has matched a prefix of the text. *)
Lemma match_at_sound r must pos s e g :
  match_at r must pos s = Some (e, g) ->
  exists w rest,
    s = w ++ rest /\ matches r pos w rest /\ e = pos + length w
    /\ (must = true -> w <> []).
Proof.
  unfold match_at. intros H. apply run_sound in H.
  destruct H as (w & rest & g' & -> & Hm & H).
  exists w, rest. split; [reflexivity|]. split; [assumption|].
  destruct must; simpl in H.
  - destruct (Nat.eqb (pos + length w) pos) eqn:E; [discriminate|].
    apply Nat.eqb_neq in E. injection H as <- _.
    split; [reflexivity|]. intros _ ->. simpl in E. lia.
  - injection H as <- _. split; [reflexivity | discriminate].
Qed.

(** ** The bound on the rounds of a quantifier

    The matcher counts the rounds of a quantifier down from the length
    of the text.  Since a round has to consume a character, the count
    never runs out before the text does: with any larger count the
    answer is the same. *)

Section Fuel.
Variable A : Type.

Lemma rounds_local body greedy lo hi :
  local_on body ->
  forall fuel n pos s g (k1 k2 : cont A),
    (forall p' s' g', length s' <= length s -> k1 p' s' g' = k2 p' s' g') ->
    rounds body greedy lo hi k1 fuel n pos s g
    = rounds body greedy lo hi k2 fuel n pos s g.
Proof.
  intros Hb. induction fuel as [|fuel IH]; intros n pos s g k1 k2 Hk.
  - simpl. rewrite (Hk pos s g (le_n _)). reflexivity.
  - simpl. rewrite (Hk pos s g (le_n _)).
    assert (Hm :
      body pos s g
        (fun p' s' g' =>
           if Nat.ltb (length s') (length s)
           then rounds body greedy lo hi k1 fuel (S n) p' s' g' else None)
      = body pos s g
          (fun p' s' g' =>
             if Nat.ltb (length s') (length s)
             then rounds body greedy lo hi k2 fuel (S n) p' s' g' else None)).
    { apply Hb. intros p' s' g' Hl.
      destruct (Nat.ltb_spec (length s') (length s)); [|reflexivity].
      apply IH. intros p'' s'' g'' Hl'. apply Hk. lia. }
    rewrite Hm. reflexivity.
Qed.

Lemma run_local r : local_on (run (A:=A) r).
Proof.
  induction r as [ | f | r1 IH1 r2 IH2 | r1 IH1 r2 IH2
                 | greedy lo hi r IH | n r IH | | ];
    intros pos s g k1 k2 Hk; simpl.
  - apply Hk. lia.
  - destruct s as [|c s]; [reflexivity|].
    destruct (f c); [|reflexivity]. apply Hk. simpl. lia.
  - apply IH1. intros p' s' g' Hl. apply IH2.
    intros p'' s'' g'' Hl'. apply Hk. lia.
  - rewrite (IH1 pos s g k1 k2 Hk), (IH2 pos s g k1 k2 Hk). reflexivity.
  - apply rounds_local; assumption.
  - apply IH. intros p' s' g' Hl. apply Hk. assumption.
  - destruct (Nat.eqb pos 0); [|reflexivity]. apply Hk. lia.
  - destruct s as [|c [|c' s]]; try reflexivity.
    + apply Hk. lia.
    + destruct (c =? 10)%N; [|reflexivity]. apply Hk. lia.
Qed.

(** A continuation that never answers leaves [body] without answer. *)
Lemma no_answer body pos s g (k : cont A) :
  local_on body -> strict_on body ->
  (forall p' s' g', k p' s' g' = None) ->
  body pos s g k = None.
Proof.
  intros Hl Hs Hk. rewrite <- (Hs pos s g). apply Hl.
  intros p' s' g' _. apply Hk.
Qed.

Lemma rounds_strict body greedy lo hi :
  local_on body -> strict_on body ->
  forall fuel n pos s g,
    rounds (A:=A) body greedy lo hi (fun _ _ _ => None) fuel n pos s g = None.
Proof.
  intros Hl Hs. induction fuel as [|fuel IH]; intros n pos s g; simpl.
  - destruct greedy, (Nat.leb lo n); reflexivity.
  - rewrite (@no_answer body pos s g _ Hl Hs).
    + destruct greedy, (Nat.leb lo n), (below hi n); reflexivity.
    + intros p' s' g'. rewrite IH. destruct (Nat.ltb _ _); reflexivity.
Qed.

Lemma run_strict r : strict_on (run (A:=A) r).
Proof.
  induction r as [ | f | r1 IH1 r2 IH2 | r1 IH1 r2 IH2
                 | greedy lo hi r IH | n r IH | | ];
    intros pos s g; simpl.
  - reflexivity.
  - destruct s as [|c s]; [reflexivity|]. destruct (f c); reflexivity.
  - apply no_answer; [apply run_local | assumption |].
    intros p' s' g'. apply IH2.
  - rewrite IH1, IH2. reflexivity.
  - apply rounds_strict; [apply run_local | assumption].
  - apply IH.
  - destruct (Nat.eqb pos 0); reflexivity.
  - destruct s as [|c [|c' s]]; try reflexivity.
    destruct (c =? 10)%N; reflexivity.
Qed.

Lemma rounds_fuel body greedy lo hi (k : cont A) :
  local_on body -> strict_on body ->
  forall m s, length s <= m ->
  forall fuel n pos g, length s <= fuel ->
    rounds body greedy lo hi k fuel n pos s g
    = rounds body greedy lo hi k (length s) n pos s g.
Proof.
  intros Hl Hs. induction m as [|m IH]; intros s Hm fuel n pos g Hf.
  - assert (length s = 0) as E by lia. rewrite E.
    destruct fuel as [|fuel]; [reflexivity|]. simpl.
    rewrite (@no_answer body pos s g _ Hl Hs).
    + destruct (below hi n); reflexivity.
    + intros p' s' g'. rewrite E. reflexivity.
  - destruct (length s) as [|l] eqn:E.
    + destruct fuel as [|fuel]; [reflexivity|]. simpl.
      rewrite (@no_answer body pos s g _ Hl Hs).
      * destruct (below hi n); reflexivity.
      * intros p' s' g'. rewrite E. reflexivity.
    + destruct fuel as [|fuel]; [lia|]. simpl.
      assert (Hb :
        body pos s g
          (fun p' s' g' =>
             if Nat.ltb (length s') (length s)
             then rounds body greedy lo hi k fuel (S n) p' s' g' else None)
        = body pos s g
            (fun p' s' g' =>
               if Nat.ltb (length s') (length s)
               then rounds body greedy lo hi k l (S n) p' s' g' else None)).
      { apply Hl. intros p' s' g' _.
        destruct (Nat.ltb_spec (length s') (length s)); [|reflexivity].
        rewrite (IH s') by lia. symmetry. apply (IH s'); lia. }
      rewrite Hb. reflexivity.
Qed.

(** A quantifier gives the same answer with any count of rounds that is
    at least the length of the text. *)
Lemma rep_fuel_enough r greedy lo hi (k : cont A) fuel pos s g :
  length s <= fuel ->
  rounds (run r) greedy lo hi k fuel 0 pos s g
  = run (Rep greedy lo hi r) pos s g k.
Proof.
  intros H. simpl.
  apply (@rounds_fuel (run r) greedy lo hi k (run_local r) (run_strict r)
           (length s) s (le_n _)).
  assumption.
Qed.
End Fuel.

(** ** The scanner *)

Lemma chain_weaken ms : forall lb lb', lb <= lb' -> chain lb' ms -> chain lb ms.
Proof.
  destruct ms as [|m ms]; simpl; intros lb lb' Hle H; [trivial|].
  destruct H as (H1 & H2 & H3). repeat split; try assumption. lia.
Qed.

Lemma found_reported r must pre s x :
  match_at r must (length pre) s = Some x ->
  reported r (pre ++ s) (found (length pre) s x)
  /\ length pre <= fst x <= length pre + length s
  /\ (must = true -> length pre < fst x).
Proof.
  destruct x as [e g]. intros H. apply match_at_sound in H.
  destruct H as (w & rest & -> & Hm & -> & Hne). simpl.
  split; [|split].
  - exists pre, w, rest. simpl.
    replace (length pre + length w - length pre) with (length w) by lia.
    rewrite firstn_app, firstn_all, Nat.sub_diag. simpl.
    rewrite app_nil_r. repeat split; assumption.
  - rewrite length_app. lia.
  - intros Hmust. specialize (Hne Hmust).
    destruct w; [congruence | simpl; lia].
Qed.

Lemma scan_cons_skip r pos c s n :
  scan r pos (c :: s) (S n) = scan r (S pos) s n.
Proof. reflexivity. Qed.

Lemma scan_nil_skip r pos n : scan r pos [] (S n) = [].
Proof. reflexivity. Qed.

(** One step of the scanner at a place where nothing is skipped. *)
Lemma scan_step r pos s :
  scan r pos s 0 =
  let next n :=
    match s with
    | [] => []
    | _ :: s' => scan r (S pos) s' n
    end in
  match match_at r false pos s with
  | None => next 0
  | Some x =>
      found pos s x ::
      (if Nat.eqb (fst x) pos then
         match match_at r true pos s with
         | None => next 0
         | Some y => found pos s y :: next (fst y - pos - 1)
         end
       else next (fst x - pos - 1))
  end.
Proof. destruct s; reflexivity. Qed.

Lemma snoc_shift {A} (pre : list A) c s : pre ++ c :: s = (pre ++ [c]) ++ s.
Proof. rewrite <- app_assoc. reflexivity. Qed.

Lemma length_snoc {A} (pre : list A) c : length (pre ++ [c]) = S (length pre).
Proof. rewrite length_app. simpl. lia. Qed.

Lemma scan_reported r : forall s pre skip,
  Forall (reported r (pre ++ s)) (scan r (length pre) s skip).
Proof.
  induction s as [|c s IH]; intros pre skip.
  - destruct skip as [|n]; [|constructor].
    rewrite scan_step. cbv zeta.
    destruct (match_at r false (length pre) []) as [x|] eqn:E1; [|constructor].
    constructor; [eapply found_reported; eassumption|].
    destruct (Nat.eqb (fst x) (length pre)); [|constructor].
    destruct (match_at r true (length pre) []) as [y|] eqn:E2; [|constructor].
    constructor; [eapply found_reported; eassumption | constructor].
  - assert (Hn : forall n,
      Forall (reported r (pre ++ c :: s)) (scan r (S (length pre)) s n)).
    { intros n. rewrite snoc_shift, <- length_snoc with (c:=c). apply IH. }
    destruct skip as [|n]; [|rewrite scan_cons_skip; apply Hn].
    rewrite scan_step. cbv zeta.
    destruct (match_at r false (length pre) (c :: s)) as [x|] eqn:E1;
      [|apply Hn].
    constructor; [eapply found_reported; eassumption|].
    destruct (Nat.eqb (fst x) (length pre)); [|apply Hn].
    destruct (match_at r true (length pre) (c :: s)) as [y|] eqn:E2;
      [|apply Hn].
    constructor; [eapply found_reported; eassumption | apply Hn].
Qed.

Lemma scan_chain r : forall s (pre : str) skip,
  chain (length pre + skip) (scan r (length pre) s skip).
Proof.
  induction s as [|c s IH]; intros pre skip.
  - destruct skip as [|n]; [|exact I].
    rewrite scan_step. cbv zeta.
    destruct (match_at r false (length pre) []) as [x|] eqn:E1; [|exact I].
    apply found_reported in E1. destruct E1 as (_ & E1 & _). simpl in E1.
    simpl. repeat split; try lia.
    destruct (Nat.eqb (fst x) (length pre)); [|exact I].
    destruct (match_at r true (length pre) []) as [y|] eqn:E2; [|exact I].
    apply found_reported in E2. destruct E2 as (_ & E2 & E3). simpl in E2.
    specialize (E3 eq_refl). lia.
  - assert (Hn : forall n,
      chain (S (length pre) + n) (scan r (S (length pre)) s n)).
    { intros n. rewrite <- length_snoc with (c:=c). apply IH. }
    destruct skip as [|n].
    2:{ rewrite scan_cons_skip. eapply chain_weaken; [|apply Hn]. lia. }
    rewrite scan_step. cbv zeta.
    destruct (match_at r false (length pre) (c :: s)) as [x|] eqn:E1.
    2:{ eapply chain_weaken; [|apply Hn]. lia. }
    apply found_reported in E1. destruct E1 as (_ & E1 & _).
    simpl. split; [lia|]. split; [lia|].
    destruct (Nat.eqb_spec (fst x) (length pre)) as [Ee|Ee].
    + destruct (match_at r true (length pre) (c :: s)) as [y|] eqn:E2.
      2:{ eapply chain_weaken; [|apply Hn]. lia. }
      apply found_reported in E2. destruct E2 as (_ & E2 & E3).
      specialize (E3 eq_refl).
      simpl. split; [lia|]. split; [lia|].
      eapply chain_weaken; [|apply Hn]. lia.
    + eapply chain_weaken; [|apply Hn]. lia.
Qed.


Lemma finditer_chain r text : chain 0 (finditer r text).
Proof. apply (scan_chain r text [] 0). Qed.


(** ** Nodes found earlier

    The lists of [find_all] are followed through the edits by position.
    The edits of the program wrap nodes and never add or drop one, so a
    position keeps pointing at the same node, and none is missing when
    its turn comes. *)

Lemma node_induction (P : node -> Prop) :
  (forall s, P (Text s)) ->
  (forall s, P (Special s)) ->
  (forall nm a cs, Forall P cs -> P (Tag nm a cs)) ->
  (forall s old, P old -> P (Replaced s old)) ->
  (forall old, P old -> P (Decomposed old)) ->
  forall n, P n.
Proof.
  intros HT HS HTag HR HD. fix IH 1. intros [s|s|nm a cs|s old|old].
  - apply HT.
  - apply HS.
  - apply HTag. revert cs. fix IHcs 1. intros [|c cs].
    + constructor.
    + constructor; [apply IH | apply IHcs].
  - apply HR, IH.
  - apply HD, IH.
Qed.

Lemma map_flat_map_ext {A B C} (f : A -> list B) (g : A -> list C)
  (h : B -> C) l :
  Forall (fun x => map h (f x) = g x) l ->
  map h (flat_map f l) = flat_map g l.
Proof.
  induction 1 as [|x l Hx _ IH]; simpl; [reflexivity|].
  rewrite map_app, Hx, IH. reflexivity.
Qed.

Lemma length_flat_map_ext {A B C} (f : A -> list B) (g : A -> list C) l :
  Forall (fun x => length (f x) = length (g x)) l ->
  length (flat_map f l) = length (flat_map g l).
Proof.
  induction 1 as [|x l Hx _ IH]; simpl; [reflexivity|].
  rewrite !length_app, Hx, IH. reflexivity.
Qed.

Lemma flat_map_map {A B C} (f : B -> list C) (h : A -> B) l :
  flat_map f (map h l) = flat_map (fun x => f (h x)) l.
Proof. induction l as [|x l IH]; simpl; [|rewrite IH]; reflexivity. Qed.

(** Which nodes there are does not depend on the flag. *)
Lemma aliases_nodes name : forall n dead,
  map snd (aliases name dead n) = nodes name n.
Proof.
  unfold nodes. induction n as [s|s|nm a cs IH|s old IH|old IH]
    using node_induction; intros dead; simpl; try reflexivity.
  - rewrite !map_app. f_equal.
    + destruct (str_eqb nm name); reflexivity.
    + rewrite (map_flat_map_ext (aliases name dead) (nodes name) snd).
      * symmetry. apply map_flat_map_ext.
        apply Forall_forall. intros; reflexivity.
      * eapply Forall_impl; [|exact IH]. intros c Hc. apply Hc.
Qed.

Lemma nodes_tag name nm a cs :
  nodes name (Tag nm a cs)
  = (if str_eqb nm name then [Tag nm a cs] else []) ++ flat_map (nodes name) cs.
Proof.
  unfold nodes at 1. simpl. rewrite map_app. f_equal.
  - destruct (str_eqb nm name); reflexivity.
  - apply map_flat_map_ext. apply Forall_forall. intros; reflexivity.
Qed.

Lemma nodes_replaced name s old : nodes name (Replaced s old) = nodes name old.
Proof. reflexivity. Qed.

Lemma nodes_decomposed name old : nodes name (Decomposed old) = nodes name old.
Proof. unfold nodes at 1. simpl. apply aliases_nodes. Qed.

Lemma found_earlier_nodes name el :
  map snd (found_earlier name el) = flat_map (nodes name) (children el).
Proof.
  unfold found_earlier. apply map_flat_map_ext.
  apply Forall_forall. intros; reflexivity.
Qed.

(** *** The edits keep the nodes *)

Lemma length_nodes_tag name nm a cs cs' :
  length (flat_map (nodes name) cs') = length (flat_map (nodes name) cs) ->
  length (nodes name (Tag nm a cs')) = length (nodes name (Tag nm a cs)).
Proof.
  intros H. rewrite !nodes_tag, !length_app, H.
  destruct (str_eqb nm name); reflexivity.
Qed.

Lemma keeps_children name f nm a cs :
  Forall (fun c => length (nodes name (f c)) = length (nodes name c)) cs ->
  length (nodes name (Tag nm a (map f cs))) = length (nodes name (Tag nm a cs)).
Proof.
  intros H. apply length_nodes_tag.
  rewrite flat_map_map. apply length_flat_map_ext. exact H.
Qed.

Lemma keeps_below name f : keeps name f -> keeps name (below_ f).
Proof.
  intros Hf [s|s|nm a cs|s old|old]; try reflexivity.
  simpl. apply keeps_children. apply Forall_forall. intros c _. apply Hf.
Qed.

Lemma keeps_replace_tag name tag by_ : keeps name (replace_tag tag by_).
Proof.
  intros n. induction n as [s|s|nm a cs IH|s old IH|old IH]
    using node_induction; try reflexivity.
  simpl. destruct (str_eqb nm tag); [rewrite nodes_replaced|];
    apply keeps_children; exact IH.
Qed.

Lemma keeps_replace_ref name : keeps name replace_ref.
Proof.
  intros n. induction n as [s|s|nm a cs IH|s old IH|old IH]
    using node_induction; try reflexivity.
  simpl. destruct (str_eqb nm (lit "ref") && other_target (Tag nm a cs));
    [rewrite nodes_replaced|]; apply keeps_children; exact IH.
Qed.

Lemma keeps_decompose_tag name tag : keeps name (decompose_tag tag).
Proof.
  intros n. induction n as [s|s|nm a cs IH|s old IH|old IH]
    using node_induction; try reflexivity.
  simpl. destruct (str_eqb nm tag); [rewrite nodes_decomposed; reflexivity|].
  apply keeps_children; exact IH.
Qed.

Lemma mapM_keeps name (f : node -> result node) : forall cs cs',
  Forall (fun c => forall c', f c = Ok c' ->
                   length (nodes name c') = length (nodes name c)) cs ->
  mapM f cs = Ok cs' ->
  length (flat_map (nodes name) cs') = length (flat_map (nodes name) cs).
Proof.
  induction cs as [|c cs IH]; intros cs' Hf H; simpl in H.
  - injection H as <-. reflexivity.
  - inversion Hf as [|? ? Hc Hcs]; subst.
    bind_inv H. bind_inv H. injection H as <-. simpl.
    rewrite !length_app, (Hc _ E), (IH _ Hcs E0). reflexivity.
Qed.

Lemma replace_cit_keeps name : forall n n',
  replace_cit n = Ok n' -> length (nodes name n') = length (nodes name n).
Proof.
  induction n as [s|s|nm a cs IH|s old IH|old IH] using node_induction;
    intros n' H; simpl in H; try (injection H as <-; reflexivity).
  destruct (str_eqb nm (lit "cit")).
  - bind_inv H. bind_inv H. injection H as <-.
    rewrite nodes_replaced. apply length_nodes_tag.
    eapply mapM_keeps; eassumption.
  - bind_inv H. injection H as <-. apply length_nodes_tag.
    eapply mapM_keeps; eassumption.
Qed.

Lemma replace_keywords_keeps name n n' :
  replace_keywords n = Ok n' -> length (nodes name n') = length (nodes name n).
Proof.
  unfold replace_keywords, strip_tags. cbn [fold_left].
  set (m := below_ replace_ref _). intros H.
  assert (Hm : length (nodes name m) = length (nodes name n)).
  { subst m. rewrite !keeps_below;
      auto using keeps_replace_ref, keeps_replace_tag. }
  rewrite <- Hm. clear Hm. destruct m as [s|s|nm a cs|s old|old];
    simpl in H; try (injection H as <-; reflexivity).
  bind_inv H. injection H as <-. apply length_nodes_tag.
  eapply mapM_keeps; [|eassumption].
  apply Forall_forall. intros c _ c'. apply replace_cit_keeps.
Qed.

Lemma process_paragraph_keeps name para_el sec block para_el' :
  process_paragraph para_el sec = Ok (block, para_el') ->
  length (nodes name para_el') = length (nodes name para_el).
Proof.
  unfold process_paragraph. intros H. bind_inv H. injection H as _ <-.
  rewrite !keeps_below by apply keeps_decompose_tag.
  eapply replace_keywords_keeps; eassumption.
Qed.

(** *** Putting a node back in its place *)

Lemma set_alias_done name new n : set_alias name new None n = (n, None).
Proof. destruct n; reflexivity. Qed.

Lemma thread_done name new cs :
  thread (set_alias name new) None cs = (cs, None).
Proof.
  induction cs as [|c cs IH]; simpl; [reflexivity|].
  rewrite set_alias_done, IH. reflexivity.
Qed.

Lemma thread_set_alias name new cs :
  Forall (set_alias_spec name new) cs ->
  forall k,
    (length (flat_map (nodes name) cs) <= k ->
     thread (set_alias name new) (Some k) cs
     = (cs, Some (k - length (flat_map (nodes name) cs))))
    /\ (forall old,
          nth_error (flat_map (nodes name) cs) k = Some old ->
          length (nodes name new) = length (nodes name old) ->
          exists cs',
            thread (set_alias name new) (Some k) cs = (cs', None)
            /\ length (flat_map (nodes name) cs')
               = length (flat_map (nodes name) cs)).
Proof.
  induction 1 as [|c cs Hc _ IH]; intros k.
  - split.
    + intros _. simpl. rewrite Nat.sub_0_r. reflexivity.
    + intros old H. destruct k; discriminate.
  - cbn [flat_map thread]. rewrite length_app. split.
    + intros Hk. destruct (Hc k) as (Hpass & _).
      rewrite Hpass by lia.
      destruct (IH (k - length (nodes name c))) as (Hpass' & _).
      rewrite Hpass' by lia. f_equal. f_equal. lia.
    + intros old Hn Hl.
      destruct (Nat.lt_ge_cases k (length (nodes name c))) as [Hlt|Hge].
      * rewrite nth_error_app1 in Hn by assumption.
        destruct (Hc k) as (_ & Hput).
        destruct (Hput old Hn Hl) as (c' & Ec & Hc').
        rewrite Ec, thread_done. exists (c' :: cs). split; [reflexivity|].
        simpl. rewrite !length_app, Hc'. reflexivity.
      * rewrite nth_error_app2 in Hn by assumption.
        destruct (Hc k) as (Hpass & _). rewrite Hpass by assumption.
        destruct (IH (k - length (nodes name c))) as (_ & Hput).
        destruct (Hput old Hn Hl) as (cs' & Ecs & Hcs').
        rewrite Ecs. exists (c :: cs'). split; [reflexivity|].
        simpl. rewrite !length_app, Hcs'. reflexivity.
Qed.

Lemma set_alias_ok name new : forall n, set_alias_spec name new n.
Proof.
  induction n as [s|s|nm a cs IH|s old IH|old IH] using node_induction;
    intros k.
  - split; [intros _; simpl; rewrite Nat.sub_0_r; reflexivity|].
    intros old H. destruct k; discriminate.
  - split; [intros _; simpl; rewrite Nat.sub_0_r; reflexivity|].
    intros old H. destruct k; discriminate.
  - pose proof (thread_set_alias IH) as Hcs.
    rewrite nodes_tag, length_app. cbn [set_alias].
    destruct (str_eqb nm name) eqn:En.
    + cbn [length app]. split.
      * intros Hk. destruct k as [|k]; [lia|].
        destruct (Hcs k) as (Hpass & _). rewrite Hpass by lia.
        reflexivity.
      * intros old Hn Hl. destruct k as [|k].
        -- injection Hn as <-. exists new. split; [reflexivity|].
           rewrite Hl, nodes_tag, En, length_app. reflexivity.
        -- cbn [nth_error] in Hn. destruct (Hcs k) as (_ & Hput).
           destruct (Hput old Hn Hl) as (cs' & Ecs & Hcs').
           rewrite Ecs. eexists. split; [reflexivity|].
           rewrite nodes_tag, En, length_app, Hcs'. reflexivity.
    + cbn [length app]. split.
      * intros Hk. destruct (Hcs k) as (Hpass & _). rewrite Hpass by lia.
        reflexivity.
      * intros old Hn Hl. destruct (Hcs k) as (_ & Hput).
        destruct (Hput old Hn Hl) as (cs' & Ecs & Hcs').
        rewrite Ecs. eexists. split; [reflexivity|].
        rewrite nodes_tag, En, length_app, Hcs'. reflexivity.
  - rewrite nodes_replaced. cbn [set_alias]. destruct (IH k) as (Hpass & Hput).
    split.
    + intros Hk. rewrite Hpass by assumption. reflexivity.
    + intros old' Hn Hl. destruct (Hput old' Hn Hl) as (n' & En & Hn').
      rewrite En. eexists. split; [reflexivity|].
      rewrite nodes_replaced. assumption.
  - rewrite nodes_decomposed. cbn [set_alias]. destruct (IH k) as (Hpass & Hput).
    split.
    + intros Hk. rewrite Hpass by assumption. reflexivity.
    + intros old' Hn Hl. destruct (Hput old' Hn Hl) as (n' & En & Hn').
      rewrite En. eexists. split; [reflexivity|].
      rewrite nodes_decomposed. assumption.
Qed.

Lemma length_found_earlier name el :
  length (found_earlier name el) = length (flat_map (nodes name) (children el)).
Proof. rewrite <- found_earlier_nodes, length_map. reflexivity. Qed.

Lemma set_found_keeps name i new el dead old :
  nth_error (found_earlier name el) i = Some (dead, old) ->
  length (nodes name new) = length (nodes name old) ->
  length (found_earlier name (set_found name i new el))
  = length (found_earlier name el).
Proof.
  intros Hn Hl. rewrite !length_found_earlier.
  apply (map_nth_error snd) in Hn. rewrite found_earlier_nodes in Hn.
  destruct el as [s|s|nm a cs|s o|o]; try reflexivity.
  cbn [children set_found] in *.
  assert (Hs : Forall (set_alias_spec name new) cs)
    by (apply Forall_forall; intros; apply set_alias_ok).
  destruct (thread_set_alias Hs i) as (_ & Hput).
  destruct (Hput _ Hn Hl) as (cs' & Ecs & Hcs').
  rewrite Ecs. exact Hcs'.
Qed.

(** Every paragraph of the list gets its block: none is missing when
    its turn comes. *)
Lemma paragraphs_below_complete sec : forall todo el blocks,
  (forall i, In i todo -> i < length (found_earlier (lit "p") el)) ->
  paragraphs_below todo el sec = Ok blocks ->
  length blocks = length todo.
Proof.
  induction todo as [|i todo IH]; intros el blocks Hin H; simpl in H.
  - injection H as <-. reflexivity.
  - destruct (nth_error (found_earlier (lit "p") el) i) as [[dead p]|] eqn:En.
    2:{ apply nth_error_None in En.
        specialize (Hin i (or_introl eq_refl)). lia. }
    bind_inv H. destruct a as [block p']. bind_inv H. injection H as <-.
    simpl. f_equal. eapply IH; [|eassumption].
    intros j Hj. specialize (Hin j (or_intror Hj)).
    destruct dead; [assumption|].
    erewrite set_found_keeps; [assumption | eassumption |].
    eapply process_paragraph_keeps; eassumption.
Qed.

(** *** A settled tree *)

Lemma purge_settled name : forall n,
  Forall (fun m => nodes name m = tags name m) (purge n).
Proof.
  induction n as [s|s|nm a cs IH|s old IH|old IH] using node_induction;
    simpl; repeat constructor.
  rewrite nodes_tag. simpl. f_equal.
  induction IH as [|c cs Hc _ IHcs]; simpl; [reflexivity|].
  rewrite !flat_map_app, IHcs. f_equal.
  clear IHcs. induction Hc as [|m l Hm _ IHl]; simpl; [reflexivity|].
  rewrite Hm, IHl. reflexivity.
Qed.

Lemma settle_found name el :
  map snd (found_earlier name (settle el)) = find_all name (settle el).
Proof.
  rewrite found_earlier_nodes. unfold find_all.
  destruct el as [s|s|nm a cs|s o|o]; try reflexivity.
  cbn [settle children].
  induction cs as [|c cs IH]; simpl; [reflexivity|].
  rewrite !flat_map_app, IH. f_equal.
  pose proof (purge_settled name c) as Hc.
  induction Hc as [|m l Hm _ IHl]; simpl; [reflexivity|].
  rewrite Hm, IHl. reflexivity.
Qed.

(** The loop over the paragraphs below a subsection gives one block for
    each paragraph that [find_all] lists. *)
Lemma paragraphs_below_all el sec blocks :
  paragraphs_below (seq 0 (length (find_all (lit "p") (settle el))))
    (settle el) sec = Ok blocks ->
  length blocks = length (find_all (lit "p") (settle el)).
Proof.
  intros H. apply paragraphs_below_complete in H.
  - rewrite H, length_seq. reflexivity.
  - intros i Hi. apply in_seq in Hi.
    rewrite <- (length_map snd), settle_found. lia.
Qed.

(** * normalize_arxiv_dump.py *)

(** ** C7: the main file *)

(** The extension test spelled out: a dot, the letters t, e, x in either
    case, and then the end of the name, before which [$] lets one
    newline pass. *)
Lemma tex_extension ext :
  re_match TEX_EXT_PATT ext = true <->
  exists t e x tail,
    ext = code "." :: t :: e :: x :: tail
    /\ ci (code "t") t = true /\ ci (code "e") e = true
    /\ ci (code "x") x = true
    /\ (tail = [] \/ tail = [10%N]).
Proof.
  split.
  - unfold re_match. intros H.
    destruct (match_at TEX_EXT_PATT false 0 ext) as [[e g]|] eqn:E;
      [clear H | discriminate].
    apply match_at_sound in E. destruct E as (w & rest & -> & Hm & _).
    unfold TEX_EXT_PATT, lits_ci, chr in Hm. cbn [seqs lit map list_ascii_of_string]
      in Hm.
    repeat match goal with
           | Hs : matches (Seq _ _) _ _ _ |- _ =>
               inversion Hs; subst; clear Hs
           | Hs : matches (Chr _) _ _ _ |- _ => inversion Hs; subst; clear Hs
           | Hs : matches Bos _ _ _ |- _ => inversion Hs; subst; clear Hs
           | Hs : matches Eos _ _ _ |- _ => inversion Hs; subst; clear Hs
           end.
    match goal with
    | Hd : N.eqb _ _ = true |- _ => apply N.eqb_eq in Hd; subst
    end.
    do 4 eexists. split; [reflexivity|]. repeat split; assumption.
  - intros (t & e & x & tail & -> & Ht & He & Hx & Htail).
    unfold re_match, match_at. cbv -[ci] in *. rewrite Ht, He, Hx.
    destruct Htail as [-> | ->]; reflexivity.
Qed.

Section MainFile.
Variable h : Host.

Lemma tex_files_fst : forall dir main ignored,
  fst (tex_files h dir main ignored)
  = fold_left
      (fun m e => if tex_with_marker h e then Some (fst e) else m) dir main.
Proof.
  induction dir as [|[tfn f] dir IH]; intros main ignored; [reflexivity|].
  cbn [tex_files fold_left]. unfold tex_with_marker at 2. cbn [fst snd].
  destruct (is_tex tfn); cbn [negb andb]; [|apply IH].
  destruct (read_file h f) as [cntnt|e]; [|apply IH].
  rewrite IH. destruct (has_marker cntnt); reflexivity.
Qed.


End MainFile.

(** Without a [.tex] file with the marker the other files are looked
    at, pictures left aside. *)
Example main_tex_other_file :
  main_tex sample_host sample_dir_other = Some (lit "paper.ltx").
Proof. vm_compute. reflexivity. Qed.


(** ** C8: the decoding chain *)

Section Chain.
Variable h : Host.
(** What the interpreter promises of a strict decode. *)
Hypothesis text_read_raises :
  forall blob e, text_read h blob = Raise e -> e = UnicodeDecodeError.
Hypothesis decode_raises :
  forall blob encoding e,
    decode h blob encoding false = Raise e ->
    e = UnicodeDecodeError \/ e = LookupError.

Lemma read_file_returns blob :
  exists cntnt, read_file h (Ok blob) = Ok cntnt
                /\ (unrecoverable h blob -> cntnt = []).
Proof.
  unfold read_file. cbn [bind].
  destruct (text_read h blob) as [s|e] eqn:E1.
  { exists s. split; [reflexivity|].
    intros ((e & He) & _). congruence. }
  rewrite (text_read_raises _ E1).
  destruct (decode h blob (magic_from_buffer h blob) false) as [s|e2] eqn:E2.
  { exists s. split; [reflexivity|].
    intros (_ & (e' & He) & _). congruence. }
  assert (Hchain : exists cntnt,
    match truthy (chardet_detect h blob) with
    | Some encoding =>
        match decode h blob encoding true with
        | Ok cntnt => Ok cntnt
        | Raise _ => Ok []
        end
    | None => Ok []
    end = Ok cntnt
    /\ (unrecoverable h blob -> cntnt = [])).
  { destruct (truthy (chardet_detect h blob)) as [enc|] eqn:E3.
    - destruct (decode h blob enc true) as [s|e3] eqn:E4.
      + exists s. split; [reflexivity|].
        intros (_ & _ & [Hn | (enc' & e' & Henc & He')]); congruence.
      + exists []. split; reflexivity.
    - exists []. split; reflexivity. }
  destruct (decode_raises _ _ E2) as [-> | ->]; exact Hchain.
Qed.

Lemma read_gzipped_file_False raw blob :
  gzip_read h raw = Ok blob ->
  (exists e, decode h blob (magic_from_buffer h blob) false = Raise e) ->
  truthy (chardet_detect h blob) = None ->
  read_gzipped_file h (Ok raw) = Ok AFalse.
Proof.
  intros Hg (e & He) Hc. unfold read_gzipped_file. cbn [bind].
  rewrite Hg. cbn [bind]. rewrite He.
  destruct (decode_raises _ _ He) as [-> | ->]; rewrite Hc; reflexivity.
Qed.

(** C8, as the code has it.  On the bytes of a file that is not
    gzipped, the resolver returns a text and raises nothing, and the
    text is empty whenever no strategy of the chain succeeds.  On a
    gzipped file whose content the sniffed encoding does not decode
    and for which the detector finds no label, the resolver returns
    [False], and not the empty text. *)
Theorem resolver_returns blob raw gz :
  gzip_read h raw = Ok gz ->
  (exists e, decode h gz (magic_from_buffer h gz) false = Raise e) ->
  truthy (chardet_detect h gz) = None ->
  (exists cntnt, read_file h (Ok blob) = Ok cntnt
                 /\ (unrecoverable h blob -> cntnt = []))
  /\ read_gzipped_file h (Ok raw) = Ok AFalse.
Proof.
  intros Hg Hd Hc. split.
  - apply read_file_returns.
  - eapply read_gzipped_file_False; eassumption.
Qed.
End Chain.

Lemma sample_text_read_raises blob e :
  text_read sample_host blob = Raise e -> e = UnicodeDecodeError.
Proof. simpl. destruct (ascii_only blob); congruence. Defined.

Lemma sample_decode_raises blob encoding e :
  decode sample_host blob encoding false = Raise e ->
  e = UnicodeDecodeError \/ e = LookupError.
Proof.
  simpl. destruct (str_eqb encoding (lit "us-ascii"));
    [destruct (ascii_only blob)|]; intros H;
    first [discriminate | injection H as <-; tauto].
Defined.

Lemma resolver_returns_witness :
  (exists cntnt, read_file sample_host (Ok [0xFF%N]) = Ok cntnt
                 /\ (unrecoverable sample_host [0xFF%N] -> cntnt = []))
  /\ read_gzipped_file sample_host sample_gzip = Ok AFalse.
Proof.
  apply (@resolver_returns sample_host sample_text_read_raises
           sample_decode_raises [0xFF%N] [0x1F%N; 0x8B%N; 0xFF%N] [0xFF%N]).
  - reflexivity.
  - exists LookupError. reflexivity.
  - reflexivity.
Defined.

(** C8 as the specification words it fails on the gzipped side:
    where nothing decodes, the answer is [False] and not the empty
    text. *)
Lemma gzip_unrecoverable_is_False :
  read_gzipped_file sample_host sample_gzip = Ok AFalse
  /\ read_gzipped_file sample_host sample_gzip <> Ok (AStr []).
Proof. split; [reflexivity | discriminate]. Qed.

(** ** C9: canonical macros are left alone *)

Lemma matches_seq r1 r2 pos w rest :
  matches (Seq r1 r2) pos w rest ->
  exists w1 w2,
    w = w1 ++ w2 /\ matches r1 pos w1 (w2 ++ rest)
    /\ matches r2 (pos + length w1) w2 rest.
Proof. intros H. inversion H; subst. eauto. Qed.

Lemma matches_star_chr greedy f pos w rest :
  matches (Rep greedy 0 None (Chr f)) pos w rest ->
  Forall (fun c => f c = true) w.
Proof.
  remember (Rep greedy 0 None (Chr f)) as r eqn:Er. intros H.
  induction H; try discriminate.
  - constructor.
  - injection Er as -> -> -> ->.
    match goal with
    | Hc : matches (Chr _) _ _ _ |- _ => inversion Hc; subst
    end.
    constructor; [assumption|]. apply IHmatches2. reflexivity.
Qed.

Lemma matches_lits_ci p : forall pos w rest,
  matches (seqs (map (fun a => Chr (ci a)) p)) pos w rest ->
  starts_ci p w = true /\ length w = length p.
Proof.
  induction p as [|a p IH]; intros pos w rest H.
  - simpl in H. inversion H; subst. split; reflexivity.
  - destruct p as [|b p].
    + simpl in H. inversion H; subst. simpl.
      rewrite andb_true_r. split; [assumption | reflexivity].
    + change (seqs (map (fun a => Chr (ci a)) (a :: b :: p)))
        with (Seq (Chr (ci a)) (seqs (map (fun a => Chr (ci a)) (b :: p))))
        in H.
      apply matches_seq in H. destruct H as (w1 & w2 & -> & H1 & H2).
      inversion H1; subst. apply IH in H2. destruct H2 as (H2 & H3).
      change ([c] ++ w2) with (c :: w2).
      change (starts_ci (a :: b :: p) (c :: w2))
        with (ci a c && starts_ci (b :: p) w2).
      rewrite H2. cbn [length]. rewrite H3.
      split; [apply andb_true_iff; split; [assumption|reflexivity] | reflexivity].
Qed.

Lemma starts_ci_app p w x : starts_ci p w = true -> starts_ci p (w ++ x) = true.
Proof.
  revert w. induction p as [|a p IH]; intros w H; [reflexivity|].
  destruct w as [|c w]; [discriminate|]. simpl in *.
  apply andb_true_iff in H. destruct H as (H1 & H2).
  rewrite H1, (IH _ H2). reflexivity.
Qed.

Lemma starts_ci_first a p c w :
  starts_ci (a :: p) (c :: w) = true -> ci a c = true.
Proof. simpl. intros H. apply andb_true_iff in H. tauto. Qed.

Lemma starts_ci_nonempty a p w :
  starts_ci (a :: p) w = true -> exists c w', w = c :: w'.
Proof. destruct w as [|c w]; [discriminate | eauto]. Qed.

Lemma natbib_suffix_first pos w rest :
  matches
    (Grp 1 (alts [lits_ci "t"; lits_ci "p"; lits_ci "alt"; lits_ci "alp";
                  lits_ci "author"; lits_ci "year"; lits_ci "yearpar"]))
    pos w rest ->
  exists c w', w = c :: w' /\ suffix_letter c = true.
Proof.
  intros H. inversion H; subst; clear H.
  cbn [alts] in *.
  repeat match goal with
         | Hm : matches (Alt _ _) _ _ _ |- _ => inversion Hm; subst; clear Hm
         end;
    match goal with
    | Hm : matches (lits_ci _) _ _ _ |- _ =>
        apply matches_lits_ci in Hm; destruct Hm as (Hm & _);
        destruct (starts_ci_nonempty _ _ _ Hm) as (c & w' & ->);
        apply starts_ci_first in Hm;
        exists c, w'; split; [reflexivity|];
        unfold suffix_letter; cbn [lit map list_ascii_of_string] in Hm;
        change (N_of_ascii ?a) with (code a) in Hm
    end;
    match goal with
    | Hc : ci _ _ = true |- _ => rewrite Hc
    end;
    rewrite ?orb_true_r; reflexivity.
Qed.

(** A letter a suffix starts with is no blank and no opening brace. *)
Lemma suffix_letter_plain c :
  suffix_letter c = true ->
  is_space c = false /\ (code "{" =? c)%N = false.
Proof.
  unfold suffix_letter. intros H.
  cbv -[N.eqb orb] in H. repeat rewrite orb_false_r in H.
  repeat match type of H with
         | (_ || _) = true => apply orb_true_iff in H; destruct H as [H|H]
         end;
    apply N.eqb_eq in H; subst c; split; reflexivity.
Qed.

Lemma lstrip_blanks (w x : str) :
  Forall (fun c : char => is_space c = true) w -> lstrip (w ++ x) = lstrip x.
Proof.
  induction 1 as [|c w Hc _ IH]; [reflexivity|].
  cbn [app lstrip]. rewrite Hc. exact IH.
Qed.

(** Where [\cite] is followed by its argument, the citation pattern
    has no match: it asks for a suffix first. *)
Lemma natbib_no_match must pos s :
  (starts_ci (lit "\cite") s = true ->
   startswith (lit "{") (lstrip (skipn 5 s)) = true) ->
  match_at NATBIB_PATT must pos s = None.
Proof.
  intros Hcan.
  destruct (match_at NATBIB_PATT must pos s) as [[e g]|] eqn:E; [|reflexivity].
  exfalso. apply match_at_sound in E.
  destruct E as (w & rest & -> & Hm & _).
  unfold NATBIB_PATT in Hm. cbn [seqs] in Hm.
  apply matches_seq in Hm. destruct Hm as (w1 & w2 & -> & H1 & H2).
  apply matches_seq in H2. destruct H2 as (w3 & w4 & -> & H3 & _).
  apply matches_lits_ci in H1. destruct H1 as (H1 & Hl).
  apply natbib_suffix_first in H3. destruct H3 as (c & w' & -> & Hc).
  apply suffix_letter_plain in Hc. destruct Hc as (Hs & Hb).
  rewrite <- app_assoc in Hcan.
  specialize (Hcan (starts_ci_app _ _ _ H1)).
  rewrite skipn_app, skipn_all2 in Hcan by (rewrite Hl; simpl; lia).
  rewrite Hl in Hcan. change (5 - length (lit "\cite")) with 0 in Hcan.
  cbn [skipn app lstrip] in Hcan. rewrite Hs in Hcan.
  cbn [lit map list_ascii_of_string startswith] in Hcan.
  change (N_of_ascii "{") with (code "{") in Hcan.
  rewrite Hb in Hcan. discriminate Hcan.
Qed.

Lemma canonical_no_match : forall s pos,
  canonical_cites s = true -> scan NATBIB_PATT pos s 0 = [].
Proof.
  induction s as [|c s IH]; intros pos H.
  - rewrite scan_step, natbib_no_match; [reflexivity | discriminate].
  - cbn [canonical_cites] in H. apply andb_true_iff in H.
    destruct H as (H1 & H2).
    rewrite scan_step, natbib_no_match.
    + apply IH. assumption.
    + intros Hs. rewrite Hs in H1. exact H1.
Qed.

(** Where [\bibitem] and the blanks after it are not followed by an
    opening bracket, the bibitem pattern has no match. *)
Lemma bibitem_no_match must pos s :
  (starts_ci (lit "\bibitem") s = true ->
   startswith (lit "[") (lstrip (skipn 8 s)) = false) ->
  match_at BIBOPT_PATT must pos s = None.
Proof.
  intros Hplain.
  destruct (match_at BIBOPT_PATT must pos s) as [[e g]|] eqn:E; [|reflexivity].
  exfalso. apply match_at_sound in E.
  destruct E as (w & rest & -> & Hm & _).
  unfold BIBOPT_PATT in Hm. cbn [seqs] in Hm.
  apply matches_seq in Hm. destruct Hm as (w1 & w2 & -> & H1 & H2).
  apply matches_seq in H2. destruct H2 as (w3 & w4 & -> & H3 & H4).
  apply matches_seq in H4. destruct H4 as (w5 & w6 & -> & H5 & _).
  apply matches_lits_ci in H1. destruct H1 as (H1 & Hl).
  apply matches_star_chr in H3.
  inversion H5 as [|f c ? ? Hc| | | | | | | |]; subst.
  apply N.eqb_eq in Hc. subst c.
  rewrite <- !app_assoc in Hplain.
  specialize (Hplain (starts_ci_app _ _ _ H1)).
  rewrite skipn_app, skipn_all2 in Hplain by (rewrite Hl; simpl; lia).
  rewrite Hl in Hplain. change (8 - length (lit "\bibitem")) with 0 in Hplain.
  cbn [skipn app] in Hplain. rewrite lstrip_blanks in Hplain by assumption.
  vm_compute in Hplain. discriminate Hplain.
Qed.

Lemma without_option_no_match : forall s pos,
  bibitems_without_option s = true -> scan BIBOPT_PATT pos s 0 = [].
Proof.
  induction s as [|c s IH]; intros pos H.
  - rewrite scan_step, bibitem_no_match; [reflexivity | discriminate].
  - cbn [bibitems_without_option] in H. apply andb_true_iff in H.
    destruct H as (H1 & H2).
    rewrite scan_step, bibitem_no_match.
    + apply IH. assumption.
    + intros Hs. rewrite Hs in H1. apply negb_true_iff in H1. exact H1.
Qed.

(** The citation fix alone leaves canonical citations as they are. *)
Lemma fix_natbib_unchanged text :
  canonical_cites text = true -> fix_natbib text = text.
Proof.
  intros H. unfold fix_natbib, sub, finditer.
  rewrite canonical_no_match by assumption. reflexivity.
Qed.

(** The bibitem fix alone leaves items without an option as they are. *)
Lemma fix_bibopt_unchanged text :
  bibitems_without_option text = true -> fix_bibopt text = text.
Proof.
  intros H. unfold fix_bibopt, sub, finditer.
  rewrite without_option_no_match by assumption. reflexivity.
Qed.

(** What [normalize] writes out is the text read after the run of
    [latexpand], with the citation fix and then the bibitem fix
    applied to it. *)
Lemma normalize_applies_fixes h dir main_tex_path cntnt :
  main_tex h dir = Some main_tex_path ->
  read_file h
    (latexpand h
       (hd_error (filter (fun n => negb (startswith (lit ".") n)
                                   && endswith (lit ".bbl") n)
                         (map fst dir)))
       main_tex_path) = Ok cntnt ->
  normalize h dir = Ok (Some (fix_bibopt (fix_natbib cntnt))).
Proof.
  intros Hm Hr. unfold normalize. rewrite Hm. cbv zeta.
  unfold bind. rewrite Hr. reflexivity.
Qed.

(** C9.  On a text whose citation macros are all plain [\cite{...}],
    with no suffix and no bracketed optional argument, and whose
    bibliography items have no bracketed option either, the two macro
    fixes, applied in the order of [normalize], change nothing: the
    text comes back as it went in. *)
Theorem macro_fixes_canonical text :
  canonical_cites text = true ->
  bibitems_without_option text = true ->
  fix_bibopt (fix_natbib text) = text.
Proof.
  intros Hc Hb.
  rewrite fix_natbib_unchanged by assumption.
  apply fix_bibopt_unchanged. assumption.
Qed.

Lemma macro_fixes_canonical_witness :
  fix_bibopt (fix_natbib canonical_sample) = canonical_sample.
Proof. apply macro_fixes_canonical; vm_compute; reflexivity. Defined.

(** C9 as the specification words it fails: the citation of this text
    is canonical and the citation fix leaves the text alone, yet the
    bibitem fix, the second half of the macro normalization, takes the
    option off its bibliography item. *)
Lemma bibitem_option_removed :
  canonical_cites bibitem_option_sample = true
  /\ fix_natbib bibitem_option_sample = bibitem_option_sample
  /\ fix_bibopt (fix_natbib bibitem_option_sample)
     = lit "See \cite{a}. \bibitem{k} D. Knuth"
  /\ fix_bibopt (fix_natbib bibitem_option_sample) <> bibitem_option_sample.
Proof.
  split; [vm_compute; reflexivity|].
  split; [vm_compute; reflexivity|].
  split; [vm_compute; reflexivity|].
  vm_compute. discriminate.
Qed.

(** The other citation macros are rewritten, with their options dropped. *)
Example fix_natbib_rewrites :
  fix_natbib (lit "As in \citep[see][p. 3]{foo,bar} and \Citeauthor* {baz}.")
  = lit "As in \cite{foo,bar} and \cite{baz}.".
Proof. vm_compute. reflexivity. Qed.

Example fix_bibopt_rewrites :
  fix_bibopt (lit "\bibitem [Knuth(1984)]{knuth84} D. Knuth")
  = lit "\bibitem{knuth84} D. Knuth".
Proof. vm_compute. reflexivity. Qed.

(** * convert_latex_to_gorc.py *)

(** ** C10: a name that is only a suffix *)

Example process_authors_two_names :
  process_authors (lit "John A. Smith Jr and Jane Doe") true
  = Ok [ mkAuthor (lit "John") [lit "A."] (lit "Smith") (lit "Jr") None;
         mkAuthor (lit "Jane") [] (lit "Doe") [] None ].
Proof. vm_compute. reflexivity. Qed.

(** The suffix is a token of its own: with a period it is a last name. *)
Example process_authors_suffix_with_period :
  process_authors (lit "John A. Smith Jr.") true
  = Ok [ mkAuthor (lit "John") [lit "A."; lit "Smith"] (lit "Jr.") [] None ].
Proof. vm_compute. reflexivity. Qed.

Example process_authors_empty : process_authors [] false = Ok [].
Proof. reflexivity. Qed.

Lemma index_last_raises {A} (l : list A) e : index_last l = Raise e -> e = IndexError.
Proof. unfold index_last. destruct (rev l); intros H; congruence. Qed.

Lemma index_first_raises {A} (l : list A) e : index_first l = Raise e -> e = IndexError.
Proof. destruct l; simpl; intros H; congruence. Qed.

(** A name either gives an entry or raises [IndexError]. *)
Lemma name_entry_raises minimal name e :
  name_entry minimal name = Raise e -> e = IndexError.
Proof.
  unfold name_entry. intros H.
  destruct (index_last (split name)) as [l|e1] eqn:E1; simpl in H.
  2:{ injection H as <-. eapply index_last_raises; eassumption. }
  destruct (is_suffix l).
  - destruct (index_first (removelast (split name))) as [f|e2] eqn:E2;
      simpl in H.
    2:{ injection H as <-. eapply index_first_raises; eassumption. }
    destruct (index_last (removelast (split name))) as [l'|e3] eqn:E3;
      simpl in H; [discriminate|].
    injection H as <-. eapply index_last_raises; eassumption.
  - destruct (index_first (split name)) as [f|e2] eqn:E2; simpl in H.
    2:{ injection H as <-. eapply index_first_raises; eassumption. }
    destruct (index_last (split name)) as [l'|e3] eqn:E3;
      simpl in H; [discriminate|].
    injection H as <-. eapply index_last_raises; eassumption.
Qed.

Lemma name_entry_suffix_only minimal name w :
  split name = [w] -> is_suffix w = true ->
  name_entry minimal name = Raise IndexError.
Proof.
  intros Hs Hw. unfold name_entry. rewrite Hs. simpl. rewrite Hw. reflexivity.
Qed.

Lemma mapM_raises {A B} (f : A -> result B) e l :
  (forall a e', f a = Raise e' -> e' = e) ->
  (exists a, In a l /\ f a = Raise e) ->
  mapM f l = Raise e.
Proof.
  intros Hall. induction l as [|a l IH]; intros (x & Hin & Hx).
  - destruct Hin.
  - simpl. destruct (f a) as [b|e'] eqn:Ea; simpl.
    + destruct Hin as [->|Hin]; [congruence|].
      rewrite IH by eauto. reflexivity.
    + rewrite (Hall _ _ Ea). reflexivity.
Qed.

(** C10.  When one of the names the author text is cut into at the
    commas consists of a suffix token alone, [process_authors] raises
    [IndexError] and returns nothing: with the suffix taken off no token
    is left to be the first name. *)
Theorem process_authors_suffix_only author_text minimal name w :
  In name (author_names author_text) ->
  split name = [w] ->
  is_suffix w = true ->
  process_authors author_text minimal = Raise IndexError.
Proof.
  intros Hin Hs Hw. unfold process_authors. apply mapM_raises.
  - intros a e'. apply name_entry_raises.
  - exists name. split; [assumption|].
    eapply name_entry_suffix_only; eassumption.
Qed.

Lemma process_authors_suffix_only_witness :
  process_authors (lit "Jr") false = Raise IndexError.
Proof.
  apply (@process_authors_suffix_only (lit "Jr") false (lit "Jr") (lit "Jr")).
  - vm_compute. left. reflexivity.
  - reflexivity.
  - reflexivity.
Defined.

(** ** Citation markers *)







(** ** C1: the spans of every block *)








(** The entry of the sample paper: the citations have become markers
    with their spans, the formula and the other reference keywords. *)
Example gorc_entry_sample :
  exists entry,
    gorc_entry (lit "0704.0001") doc_sample = Ok entry
    /\ metadata entry
       = mkMetadata (lit "A title")
           [ mkAuthor (lit "Ann") [] (lit "Lee") [] (Some ([], []));
             mkAuthor (lit "Bob") [] (lit "Ray") (lit "Jr") (Some ([], [])) ]
           []
    /\ abstract entry
       = [Block (mkBlock (lit "We extend BID3 to FORMULA.")
                   [mkSpan 10 14 (lit "BID3")] None)]
    /\ body_text entry
       = [mkBlock (lit "See BID12 and BID7, REF.")
            [mkSpan 4 9 (lit "BID12"); mkSpan 14 18 (lit "BID7")]
            (Some (lit "Intro"))]
    /\ bib_entries entry = [(lit "BID3", lit "Knuth, D.")].
Proof. eexists. split; [vm_compute; reflexivity|]. repeat split. Qed.

(** ** C2: a tree with a node missing *)

(** The three header fields fall back to their defaults when their node
    is missing. *)
Lemma header_default (soup : node) name :
  find name soup = None ->
  try_except (text_attr (find name soup)) AttributeError [] = Ok [].
Proof. intros ->. reflexivity. Qed.

Lemma authors_default (soup : node) :
  find (lit "author") soup = None ->
  try_except
    (t <- text_attr (find (lit "author") soup) ;;
     process_authors (strip t) false)
    AttributeError [] = Ok [].
Proof. intros ->. reflexivity. Qed.

(** C2.  The extraction does raise on a tree with a node missing: a
    citation with no reference inside makes [cite.ref] be [None], and
    the [AttributeError] of [cite.ref.get] is caught nowhere. *)
Theorem cit_without_ref_raises :
  gorc_entry (lit "0704.0001") doc_cit_without_ref = Raise AttributeError.
Proof. vm_compute. reflexivity. Qed.

(** ** C3: notes in a paragraph *)

(** C3.  The text of a block is read off the paragraph before its notes
    and floats are removed, so the text of a note is part of it. *)
Theorem note_text_kept :
  exists block el,
    process_paragraph (load par_with_note) (lit "Intro") = Ok (block, el)
    /\ text block = lit "Hellosecret world"
    /\ text_of el = lit "Hello world".
Proof. do 2 eexists. split; [vm_compute; reflexivity|]. split; reflexivity. Qed.

(** ** C4: whitespace in the text of a block *)

Lemma scan_chain_at r pos s skip : chain (pos + skip) (scan r pos s skip).
Proof.
  rewrite <- (repeat_length 0%N pos). apply scan_chain.
Qed.

Lemma rebuild_shift t ms pos c s :
  chain (S pos) ms ->
  rebuild t ms pos (c :: s) = c :: rebuild t ms (S pos) s.
Proof.
  destruct ms as [|m ms]; simpl; [reflexivity|].
  intros (H1 & H2 & _).
  replace (m_start m - pos) with (S (m_start m - S pos)) by lia.
  replace (m_end m - pos) with (S (m_end m - S pos)) by lia.
  reflexivity.
Qed.

Lemma match_at_chr f must pos s :
  match_at (Chr f) must pos s =
  match s with
  | c :: _ => if f c then Some (S pos, []) else None
  | [] => None
  end.
Proof.
  unfold match_at. cbn [run]. destruct s as [|c s]; [reflexivity|].
  destruct (f c); [|reflexivity].
  replace (Nat.eqb (S pos) pos) with false
    by (symmetry; apply Nat.eqb_neq; lia).
  rewrite andb_false_r. reflexivity.
Qed.

(** Replacing the matches of a one-character pattern by a fixed text
    goes character by character. *)
Lemma sub_chr f x text :
  sub (Chr f) [TLit x] text = flat_map (fun c => if f c then x else [c]) text.
Proof.
  unfold sub, finditer.
  enough (H : forall pos,
    rebuild [TLit x] (scan (Chr f) pos text 0) pos text
    = flat_map (fun c => if f c then x else [c]) text) by apply H.
  induction text as [|c s IH]; intros pos.
  - rewrite scan_step, match_at_chr. reflexivity.
  - rewrite scan_step, match_at_chr. cbv zeta. simpl flat_map.
    destruct (f c).
    + simpl fst. replace (Nat.eqb (S pos) pos) with false
        by (symmetry; apply Nat.eqb_neq; lia).
      replace (S pos - pos - 1) with 0 by lia.
      unfold found. cbn [rebuild m_start m_end fst snd].
      rewrite Nat.sub_diag. replace (S pos - pos) with 1 by lia.
      simpl. rewrite app_nil_r, IH. reflexivity.
    + rewrite rebuild_shift.
      * rewrite IH. reflexivity.
      * pose proof (scan_chain_at (Chr f) (S pos) s 0) as Hc.
        rewrite Nat.add_0_r in Hc. exact Hc.
Qed.

Lemma blank_map text : blank text = map blank_char text.
Proof.
  unfold blank, ws. rewrite sub_chr.
  induction text as [|c s IH]; simpl; [reflexivity|].
  rewrite IH. unfold blank_char. destruct (is_space c); reflexivity.
Qed.

Lemma blank_char_space c : is_space (blank_char c) = true -> blank_char c = code " ".
Proof.
  unfold blank_char. destruct (is_space c) eqn:E; [reflexivity|].
  intros H. congruence.
Qed.

(** C4, as the code has it.  The text of the block of a paragraph is the
    text of the paragraph, after the replacements, with every whitespace
    character replaced by one space, one for one and in place: the text
    has no whitespace character other than the space, it is as long as
    the text it comes from, and a run of whitespace stays a run of
    spaces of the same length. *)
Theorem whitespace_becomes_spaces para_el sec block para_el' :
  process_paragraph para_el sec = Ok (block, para_el') ->
  exists el,
    replace_keywords para_el = Ok el
    /\ text block = map blank_char (text_of el)
    /\ Forall (fun c => is_space c = true -> c = code " ") (text block).
Proof.
  unfold process_paragraph. intros H. bind_inv H. injection H as <- _.
  exists a. split; [assumption|]. simpl. fold (blank (text_of a)).
  rewrite blank_map. split; [reflexivity|].
  apply Forall_map. apply Forall_forall. intros c _. apply blank_char_space.
Qed.

Lemma whitespace_becomes_spaces_witness :
  exists block el,
    process_paragraph (load par_two_blanks) [] = Ok (block, el)
    /\ text block = map blank_char (lit "a  b").
Proof.
  do 2 eexists. split; [vm_compute; reflexivity|].
  destruct (@whitespace_becomes_spaces (load par_two_blanks) [] _ _ eq_refl)
    as (el & Hk & Ht & _).
  vm_compute in Hk. injection Hk as <-. exact Ht.
Defined.

(** C4 as the specification words it fails: two blanks in a row
    stay two blanks. *)
Lemma blank_run_kept :
  exists block el,
    process_paragraph (load par_two_blanks) [] = Ok (block, el)
    /\ text block = lit "a  b"
    /\ has_blank_run (text block) = true.
Proof. do 2 eexists. split; [vm_compute; reflexivity|]. split; reflexivity. Qed.

(** ** C5: the year among the paragraphs *)

(** More fuel than the length of the list changes nothing. *)
Lemma year_loop_fuel : forall fuel i ps year,
  length ps <= i + fuel ->
  year_loop (S fuel) i ps year = year_loop fuel i ps year.
Proof.
  induction fuel as [|fuel IH]; intros i ps year Hl.
  - simpl. destruct (nth_error ps i) eqn:E; [|reflexivity].
    assert (Hn : nth_error ps i <> None) by congruence.
    apply nth_error_Some in Hn. lia.
  - change (year_loop (S (S fuel)) i ps year)
      with (match nth_error ps i with
            | None => (year, ps)
            | Some p =>
                if re_match four_digits (text_of p)
                then year_loop (S fuel) (S i) (del i ps) (text_of p)
                else year_loop (S fuel) (S i) ps year
            end).
    change (year_loop (S fuel) i ps year)
      with (match nth_error ps i with
            | None => (year, ps)
            | Some p =>
                if re_match four_digits (text_of p)
                then year_loop fuel (S i) (del i ps) (text_of p)
                else year_loop fuel (S i) ps year
            end).
    destruct (nth_error ps i) as [p|] eqn:E; [|reflexivity].
    destruct (re_match four_digits (text_of p)); apply IH; [|lia].
    assert (Hd : forall (l : list node) j, length (del j l) <= length l).
    { induction l as [|x l IHl]; intros [|j]; simpl; try lia.
      specialize (IHl j). lia. }
    specialize (Hd ps i). lia.
Qed.

(** The loop on three paragraphs of which the first and the last start
    with four digits: both are taken out, the one between is skipped
    unread, and the year is the last one. *)
Lemma year_loop_two_years :
  year_loop 3 0 pool_two_years []
  = (lit "2002 fall", map load [elem "p" [] [txt "A title"]]).
Proof. vm_compute. reflexivity. Qed.

(** C5.  With two paragraphs that start with four digits among the ones
    left, the year is the text of the last of them and not of the
    first, and both are taken out: the loop has no [break] and deletes
    from the list it runs over. *)
Theorem year_is_last_match :
  exists entry,
    gorc_entry (lit "0704.0001") doc_two_years = Ok entry
    /\ year (metadata entry) = lit "2002 fall"
    /\ title (metadata entry) = lit "A title".
Proof. eexists. split; [vm_compute; reflexivity|]. split; reflexivity. Qed.

(** ** C6: the abstract of a document without paragraphs *)

(** C6.  Without a paragraph the abstract is the list whose one element
    is the empty list the variable starts as, and no block. *)
Theorem abstract_without_paragraph :
  exists entry,
    gorc_entry (lit "0704.0001") doc_without_paragraph = Ok entry
    /\ abstract entry = [EmptyList].
Proof. eexists. split; [vm_compute; reflexivity|]. reflexivity. Qed.

(** * Further properties *)

(** ** The main file: the other files, and no file *)

Lemma find_app_or {A} (p : A -> bool) l1 l2 :
  List.find p (l1 ++ l2)
  = match List.find p l1 with
    | Some e => Some e
    | None => List.find p l2
    end.
Proof.
  induction l1 as [|x l1 IH]; simpl; [reflexivity|].
  destruct (p x); [reflexivity | apply IH].
Qed.

(** A loop that keeps the last element with a property. *)
Lemma fold_last_such {A B} (p : A -> bool) (f : A -> B) l : forall m0,
  fold_left (fun m e => if p e then Some (f e) else m) l m0
  = match last_such p l with
    | Some e => Some (f e)
    | None => m0
    end.
Proof.
  unfold last_such. induction l as [|x l IH]; intros m0; simpl.
  - reflexivity.
  - rewrite IH, find_app_or. simpl.
    destruct (List.find p (rev l)); [reflexivity|].
    destruct (p x); reflexivity.
Qed.

Lemma last_such_ext {A} (p q : A -> bool) l :
  (forall e, p e = q e) -> last_such p l = last_such q l.
Proof.
  intros H. unfold last_such. induction (rev l) as [|x r IH]; simpl;
    [reflexivity|].
  rewrite H, IH. reflexivity.
Qed.

Lemma last_such_split {A} (p : A -> bool) l pre e post :
  l = pre ++ e :: post -> p e = true ->
  (forall e', In e' post -> p e' = false) ->
  last_such p l = Some e.
Proof.
  intros -> He Hpost. unfold last_such.
  rewrite rev_app_distr. simpl. rewrite <- app_assoc, find_app_or.
  assert (Hn : List.find p (rev post) = None).
  { destruct (List.find p (rev post)) as [x|] eqn:E; [|reflexivity].
    apply find_some in E. destruct E as (Hin & Hx).
    apply in_rev in Hin. rewrite (Hpost _ Hin) in Hx. discriminate. }
  rewrite Hn. simpl. rewrite He. reflexivity.
Qed.

Lemma last_such_none {A} (p : A -> bool) l :
  last_such p l = None <-> forall e, In e l -> p e = false.
Proof.
  unfold last_such. split.
  - intros H e He. apply in_rev in He.
    destruct (p e) eqn:E; [|reflexivity].
    pose proof (find_none _ _ H _ He). congruence.
  - intros H. destruct (List.find p (rev l)) as [x|] eqn:E; [|reflexivity].
    apply find_some in E. destruct E as (Hin & Hx).
    apply in_rev in Hin. rewrite (H _ Hin) in Hx. discriminate.
Qed.

Lemma last_such_some {A} (p : A -> bool) l e :
  last_such p l = Some e -> In e l /\ p e = true.
Proof.
  unfold last_such. intros H. apply find_some in H.
  destruct H as (Hin & Hp). split; [apply in_rev|]; assumption.
Qed.

Section OtherFiles.
Variable h : Host.

Lemma tex_files_snd : forall dir main ignored,
  snd (tex_files h dir main ignored)
  = ignored ++ filter (fun e => negb (is_tex (fst e))) dir.
Proof.
  induction dir as [|[tfn f] dir IH]; intros main ignored.
  - simpl. rewrite app_nil_r. reflexivity.
  - cbn [tex_files filter fst]. destruct (is_tex tfn); cbn [negb].
    + destruct (read_file h f); apply IH.
    + rewrite IH, <- app_assoc. reflexivity.
Qed.

Lemma other_files_fold : forall l main,
  other_files h l main
  = fold_left
      (fun m e =>
         if negb (re_match NON_TEXT_PATT (snd (splitext (fst e))))
            && match read_file h (snd e) with
               | Ok cntnt => has_marker cntnt
               | Raise _ => false
               end
         then Some (fst e) else m) l main.
Proof.
  induction l as [|[tfn f] l IH]; intros main; [reflexivity|].
  cbn [other_files fold_left fst snd].
  destruct (re_match NON_TEXT_PATT (snd (splitext tfn))); cbn [negb andb];
    [apply IH|].
  destruct (read_file h f) as [cntnt|e]; [|apply IH].
  rewrite IH. destruct (has_marker cntnt); reflexivity.
Qed.

Lemma last_such_filter {A} (p q : A -> bool) l :
  last_such p (filter q l) = last_such (fun e => q e && p e) l.
Proof.
  unfold last_such. induction l as [|x l IH]; simpl; [reflexivity|].
  rewrite find_app_or, <- IH. simpl. destruct (q x); simpl.
  - rewrite find_app_or. simpl. reflexivity.
  - destruct (List.find p (rev (filter q l))); reflexivity.
Qed.

(** What the two loops find: the last [.tex] file with the marker, and
    without one the last other file with the marker. *)
Lemma main_tex_last dir :
  main_tex h dir
  = match last_such (tex_with_marker h) dir with
    | Some e => Some (fst e)
    | None => option_map fst (last_such (other_with_marker h) dir)
    end.
Proof.
  unfold main_tex.
  pose proof (tex_files_fst h dir None []) as Hf.
  pose proof (tex_files_snd dir None []) as Hs.
  destruct (tex_files h dir None []) as [m ign]. simpl in Hf, Hs. subst.
  rewrite (fold_last_such (tex_with_marker h) fst).
  destruct (last_such (tex_with_marker h) dir) as [e|]; [reflexivity|].
  rewrite other_files_fold.
  rewrite (fold_last_such
             (fun e => negb (re_match NON_TEXT_PATT (snd (splitext (fst e))))
                       && match read_file h (snd e) with
                          | Ok cntnt => has_marker cntnt
                          | Raise _ => false
                          end) fst).
  rewrite last_such_filter.
  replace (last_such (other_with_marker h) dir)
    with (last_such
            (fun e => negb (is_tex (fst e))
                      && (negb (re_match NON_TEXT_PATT (snd (splitext (fst e))))
                          && match read_file h (snd e) with
                             | Ok cntnt => has_marker cntnt
                             | Raise _ => false
                             end)) dir).
  - destruct (last_such _ dir); reflexivity.
  - apply last_such_ext. intros e. unfold other_with_marker.
    rewrite andb_assoc. reflexivity.
Qed.
End OtherFiles.

(** X1.  When no [.tex] file has the marker, the file found is the last of
    the other files that is no picture, can be read and has the
    marker. *)
Theorem other_file_with_marker_wins h dir pre e post :
  (forall e', In e' dir -> tex_with_marker h e' = false) ->
  dir = pre ++ e :: post ->
  other_with_marker h e = true ->
  (forall e', In e' post -> other_with_marker h e' = false) ->
  main_tex h dir = Some (fst e).
Proof.
  intros Htex Hd He Hpost. rewrite main_tex_last.
  apply last_such_none in Htex. rewrite Htex.
  rewrite (@last_such_split _ _ _ _ _ _ Hd He Hpost). reflexivity.
Qed.

Lemma other_file_with_marker_wins_witness :
  main_tex sample_host sample_dir_other = Some (lit "paper.ltx").
Proof.
  apply (@other_file_with_marker_wins sample_host sample_dir_other
           (firstn 1 sample_dir_other)
           (lit "paper.ltx",
            Ok (lit "\documentclass{article} \begin {document} x")) []).
  - intros e' [<-|[<-|[]]]; vm_compute; reflexivity.
  - reflexivity.
  - vm_compute. reflexivity.
  - intros e' [].
Defined.

(** X2.  No main file is found exactly when no file of the directory is a
    candidate: neither a [.tex] file with the marker nor another file,
    no picture, with the marker. *)
Theorem main_tex_none_iff h dir :
  main_tex h dir = None <->
  forall e, In e dir ->
    tex_with_marker h e = false /\ other_with_marker h e = false.
Proof.
  rewrite main_tex_last. split.
  - intros H e He.
    destruct (last_such (tex_with_marker h) dir) as [x|] eqn:E1;
      [discriminate|].
    destruct (last_such (other_with_marker h) dir) as [x|] eqn:E2;
      [discriminate|].
    split; [eapply last_such_none in E1 | eapply last_such_none in E2];
      eassumption.
  - intros H.
    assert (E1 : last_such (tex_with_marker h) dir = None)
      by (apply last_such_none; intros e He; apply H; assumption).
    assert (E2 : last_such (other_with_marker h) dir = None)
      by (apply last_such_none; intros e He; apply H; assumption).
    rewrite E1, E2. reflexivity.
Qed.

(** X3.  The file found is a file of the directory that was read without an
    exception and whose text has the marker, and it is a [.tex] file or
    at least no picture. *)
Theorem main_tex_sound h dir tfn :
  main_tex h dir = Some tfn ->
  exists f cntnt,
    In (tfn, f) dir
    /\ read_file h f = Ok cntnt
    /\ has_marker cntnt = true
    /\ (is_tex tfn = true
        \/ re_match NON_TEXT_PATT (snd (splitext tfn)) = false).
Proof.
  rewrite main_tex_last. intros H.
  destruct (last_such (tex_with_marker h) dir) as [[n f]|] eqn:E1.
  - injection H as <-. apply last_such_some in E1. destruct E1 as (Hin & Hp).
    unfold tex_with_marker in Hp. cbn [fst snd] in Hp.
    apply andb_true_iff in Hp. destruct Hp as (Ht & Hr).
    destruct (read_file h f) as [cntnt|] eqn:Er; [|discriminate].
    exists f, cntnt. repeat split; try assumption. left. assumption.
  - destruct (last_such (other_with_marker h) dir) as [[n f]|] eqn:E2;
      [|discriminate].
    injection H as <-. apply last_such_some in E2. destruct E2 as (Hin & Hp).
    unfold other_with_marker in Hp. cbn [fst snd] in Hp.
    apply andb_true_iff in Hp. destruct Hp as (Hp & Hr).
    apply andb_true_iff in Hp. destruct Hp as (_ & Hn).
    destruct (read_file h f) as [cntnt|] eqn:Er; [|discriminate].
    exists f, cntnt. repeat split; try assumption. right.
    apply negb_true_iff. assumption.
Qed.

Lemma main_tex_sound_witness :
  exists f cntnt,
    In (lit "c.tex", f) sample_dir
    /\ read_file sample_host f = Ok cntnt
    /\ has_marker cntnt = true
    /\ (is_tex (lit "c.tex") = true
        \/ re_match NON_TEXT_PATT (snd (splitext (lit "c.tex"))) = false).
Proof.
  apply (@main_tex_sound sample_host sample_dir (lit "c.tex")).
  vm_compute. reflexivity.
Defined.

(** ** Authors: when the parser returns, and what it returns *)

Lemma split_step c s' :
  split (c :: s')
  = if is_space c then split s'
    else match s' with
         | [] => [[c]]
         | c' :: _ =>
             if is_space c' then [c] :: split s'
             else match split s' with
                  | w :: l => (c :: w) :: l
                  | [] => [[c]]
                  end
         end.
Proof. destruct s'; reflexivity. Qed.

(** The tokens of [split] are not empty and have no blank. *)
Lemma split_tokens s :
  Forall (fun w => w <> [] /\ forallb (fun c => negb (is_space c)) w = true)
         (split s).
Proof.
  induction s as [|c s' IH]; [constructor|].
  rewrite split_step. destruct (is_space c) eqn:Ec; [assumption|].
  assert (Hc : [c] <> [] /\ forallb (fun c => negb (is_space c)) [c] = true).
  { split; [discriminate|]. simpl. rewrite Ec. reflexivity. }
  destruct s' as [|c' s'']; [repeat constructor; apply Hc|].
  destruct (is_space c') eqn:Ec'; [constructor; assumption|].
  destruct (split (c' :: s'')) as [|w l]; [repeat constructor; apply Hc|].
  inversion IH as [|? ? (Hw & Hf) Hl]; subst. constructor; [|assumption].
  split; [discriminate|]. simpl. rewrite Ec, Hf. reflexivity.
Qed.

(** The characters of the tokens are characters of the text. *)
Lemma split_incl s : forall w c, In w (split s) -> In c w -> In c s.
Proof.
  induction s as [|c0 s' IH]; intros w c Hw Hc; [destruct Hw|].
  rewrite split_step in Hw. destruct (is_space c0).
  { right. eapply IH; eassumption. }
  destruct s' as [|c' s''].
  { destruct Hw as [<-|[]]. assumption. }
  destruct (is_space c').
  { destruct Hw as [<-|Hw]; [destruct Hc as [<-|[]]; left; reflexivity|].
    right. eapply IH; eassumption. }
  destruct (split (c' :: s'')) as [|w' l] eqn:E.
  { destruct Hw as [<-|[]]. destruct Hc as [<-|[]]. left. reflexivity. }
  destruct Hw as [<-|Hw].
  - destruct Hc as [<-|Hc]; [left; reflexivity|].
    right. apply (IH w'); [left; reflexivity | assumption].
  - right. apply (IH w); [right; assumption | assumption].
Qed.

(** A text with a character that is no blank has a token. *)
Lemma split_nonempty s c :
  In c s -> is_space c = false -> split s <> [].
Proof.
  induction s as [|c0 s' IH]; intros Hin Hc; [destruct Hin|].
  rewrite split_step. destruct (is_space c0) eqn:E0.
  { destruct Hin as [->|Hin]; [congruence|]. apply IH; assumption. }
  destruct s' as [|c' s'']; [discriminate|].
  destruct (is_space c'); [discriminate|].
  destruct (split (c' :: s'')); discriminate.
Qed.

Lemma lstrip_head s c t : lstrip s = c :: t -> is_space c = false.
Proof.
  induction s as [|c0 s' IH]; simpl; [discriminate|].
  destruct (is_space c0) eqn:E0; [assumption|].
  intros H. injection H as <- <-. assumption.
Qed.

Lemma lstrip_incl s c : In c (lstrip s) -> In c s.
Proof.
  induction s as [|c0 s' IH]; simpl; [tauto|].
  destruct (is_space c0); [right; auto | tauto].
Qed.

Lemma strip_incl s c : In c (strip s) -> In c s.
Proof.
  unfold strip, rstrip. intros H. apply in_rev in H.
  apply lstrip_incl in H. apply in_rev in H. apply lstrip_incl in H.
  assumption.
Qed.

(** What [strip] leaves, if anything, has a character that is no blank. *)
Lemma strip_nonblank s :
  nonempty (strip s) = true ->
  exists c, In c (strip s) /\ is_space c = false.
Proof.
  unfold strip, rstrip. intros H.
  destruct (lstrip (rev (lstrip s))) as [|c t] eqn:E; [discriminate|].
  exists c. split; [|eapply lstrip_head; eassumption].
  apply in_rev. rewrite rev_involutive. left. reflexivity.
Qed.

(** The pieces of [split_on] do not have the separator. *)
Lemma split_on_pieces sep s :
  Forall (fun w => forall c, In c w -> c <> sep /\ In c s) (split_on sep s).
Proof.
  induction s as [|c s' IH]; simpl.
  { constructor; [intros c []|constructor]. }
  assert (IH' : Forall (fun w => forall x, In x w -> x <> sep /\ In x (c :: s'))
                  (split_on sep s')).
  { eapply Forall_impl; [|exact IH]. simpl. intros w H x Hx.
    destruct (H x Hx). auto. }
  destruct (N.eqb_spec c sep) as [->|Hne].
  { constructor; [intros x []|assumption]. }
  destruct (split_on sep s') as [|w l].
  - constructor; [|constructor].
    intros x [<-|[]]. split; [assumption | left; reflexivity].
  - inversion IH' as [|? ? Hw Hl]; subst. constructor; [|assumption].
    intros x [<-|Hx]; [split; [assumption | left; reflexivity]|].
    apply Hw. assumption.
Qed.

(** The names: stripped, not empty, without a comma. *)
Lemma author_names_names author_text name :
  In name (author_names author_text) ->
  (exists c, In c name /\ is_space c = false)
  /\ forall c, In c name -> c <> code ",".
Proof.
  unfold author_names. intros H. apply filter_In in H. destruct H as (H & Hn).
  apply in_map_iff in H. destruct H as (w & <- & Hw). split.
  - apply strip_nonblank. assumption.
  - intros c Hc. apply strip_incl in Hc.
    pose proof (split_on_pieces (code ",")
      (sub ws [TLit (lit " ")]
         (sub (seqs [ws; lits "and"; ws]) [TLit (lit ",")] author_text))) as F.
    rewrite Forall_forall in F. apply (F w Hw c Hc).
Qed.

Lemma mapM_ok {A B} (f : A -> result B) : forall l bs,
  mapM f l = Ok bs -> Forall2 (fun a b => f a = Ok b) l bs.
Proof.
  induction l as [|a l IH]; simpl; intros bs H.
  - injection H as <-. constructor.
  - bind_inv H. bind_inv H. injection H as <-.
    constructor; [assumption | apply IH; assumption].
Qed.

Lemma mapM_returns {A B} (f : A -> result B) l :
  (forall a, In a l -> exists b, f a = Ok b) -> exists bs, mapM f l = Ok bs.
Proof.
  induction l as [|a l IH]; intros H; simpl; [eauto|].
  destruct (H a (or_introl eq_refl)) as (b & ->).
  destruct IH as (bs & ->); [intros x Hx; apply H; right; assumption|].
  simpl. eauto.
Qed.

Lemma index_last_snoc {A} (l : list A) x : index_last (l ++ [x]) = Ok x.
Proof. unfold index_last. rewrite rev_app_distr. reflexivity. Qed.

Lemma is_suffix_nonempty w : is_suffix w = true -> nonempty w = true.
Proof. destruct w; [discriminate | reflexivity]. Qed.

Lemma snoc_cases {A} (l : list A) : l = [] \/ exists l' x, l = l' ++ [x].
Proof.
  destruct l as [|a l]; [left; reflexivity | right].
  destruct (exists_last (l:=a :: l)) as (l' & x & E); [discriminate|].
  eauto.
Qed.

(** What a name gives: its tokens are the first name, the middle names,
    the last name and the suffix, in this order; a name of one token
    beside the suffix has it as first and as last name. *)
Lemma name_entry_tokens minimal name a :
  name_entry minimal name = Ok a -> entry_of minimal name a.
Proof.
  unfold name_entry, entry_of. intros H.
  destruct (snoc_cases (split name)) as [E|(l' & x & E)]; rewrite E in H.
  { discriminate. }
  rewrite E, index_last_snoc in *. simpl in H.
  destruct (is_suffix x) eqn:Ex.
  - rewrite removelast_last in H.
    destruct l' as [|f r]; [discriminate|]. simpl in H.
    destruct (snoc_cases r) as [->|(r' & y & ->)].
    + simpl in H. injection H as <-. unfold suffix_tokens. simpl.
      rewrite (is_suffix_nonempty _ Ex). auto.
    + rewrite app_comm_cons, index_last_snoc in H. simpl in H.
      rewrite removelast_last in H. injection H as <-.
      unfold suffix_tokens. simpl. rewrite (is_suffix_nonempty _ Ex).
      rewrite <- app_assoc. auto.
  - destruct l' as [|f r]; simpl in H.
    + injection H as <-. unfold suffix_tokens. simpl. auto.
    + rewrite app_comm_cons, index_last_snoc in H. simpl in H.
      rewrite removelast_last in H. injection H as <-.
      unfold suffix_tokens. simpl. auto.
Qed.

(** A name gives an entry unless it has no token or only a suffix. *)
Lemma name_entry_returns minimal name :
  split name <> [] ->
  (forall w, split name = [w] -> is_suffix w = false) ->
  exists a, name_entry minimal name = Ok a.
Proof.
  intros Hne Hw. unfold name_entry.
  destruct (snoc_cases (split name)) as [E|(l' & x & E)]; [contradiction|].
  rewrite E, index_last_snoc in *. simpl.
  destruct (is_suffix x) eqn:Ex.
  - rewrite removelast_last.
    destruct l' as [|f r]; [rewrite (Hw x eq_refl) in Ex; discriminate|].
    simpl. destruct (snoc_cases r) as [->|(r' & y & ->)]; simpl; [eauto|].
    rewrite app_comm_cons, index_last_snoc. simpl. eauto.
  - destruct l' as [|f r]; simpl; [eauto|].
    rewrite app_comm_cons, index_last_snoc. simpl. eauto.
Qed.

(** X4.  [process_authors] returns a list of entries exactly when none
    of the names the author text is cut into is a suffix alone; in every
    other case it raises [IndexError].  The names are never empty, so a
    name without a token does not occur. *)
Theorem process_authors_returns_iff author_text minimal :
  (exists author_entries,
     process_authors author_text minimal = Ok author_entries)
  <-> (forall name w,
         In name (author_names author_text) ->
         split name = [w] -> is_suffix w = false).
Proof.
  unfold process_authors. split.
  - intros (entries & H) name w Hin Hs.
    destruct (is_suffix w) eqn:Hw; [|reflexivity].
    rewrite (@mapM_raises _ _ (name_entry minimal) IndexError
               (author_names author_text)) in H; [discriminate | |].
    + intros a e'. apply name_entry_raises.
    + exists name. split; [assumption|].
      eapply name_entry_suffix_only; eassumption.
  - intros H. apply mapM_returns. intros name Hin.
    apply name_entry_returns; [|intros w; apply H; assumption].
    destruct (author_names_names _ _ Hin) as ((c & Hc & Hs) & _).
    eapply split_nonempty; eassumption.
Qed.

(** X5.  When [process_authors] returns, it returns one entry for every
    name, in the order of the names, and the entry of a name has the
    tokens of the name: first name, middle names, last name and suffix
    read in this order are the tokens of [name.split()], except that a
    name of one token (beside the suffix) has this token as first and as
    last name. *)
Theorem process_authors_tokens author_text minimal author_entries :
  process_authors author_text minimal = Ok author_entries ->
  Forall2 (entry_of minimal) (author_names author_text) author_entries.
Proof.
  unfold process_authors. intros H. apply mapM_ok in H.
  eapply Forall2_impl; [|exact H]. intros name a. apply name_entry_tokens.
Qed.

Lemma process_authors_tokens_witness :
  Forall2 (entry_of true)
    (author_names (lit "John A. Smith Jr and Jane Doe"))
    [ mkAuthor (lit "John") [lit "A."] (lit "Smith") (lit "Jr") None;
      mkAuthor (lit "Jane") [] (lit "Doe") [] None ].
Proof.
  apply (@process_authors_tokens (lit "John A. Smith Jr and Jane Doe") true).
  vm_compute. reflexivity.
Defined.

Lemma Forall2_right {A B} (R : A -> B -> Prop) (P : B -> Prop) l l' :
  Forall2 R l l' -> (forall a b, In a l -> R a b -> P b) -> Forall P l'.
Proof.
  induction 1 as [|a b l l' Hab H IH]; intros HP; constructor.
  - apply (HP a b); [left; reflexivity | assumption].
  - apply IH. intros a' b' Hin. apply HP. right. assumption.
Qed.

(** X6.  The first name, the last name, the middle names and the suffix
    of every entry that [process_authors] returns are tokens: not empty
    (the suffix apart, which is the empty string when there is none),
    without whitespace and without a comma. *)
Theorem process_authors_clean author_text minimal author_entries :
  process_authors author_text minimal = Ok author_entries ->
  Forall
    (fun a => Forall clean_token
                (first a :: last a :: middle a ++ suffix_tokens a))
    author_entries.
Proof.
  unfold process_authors. intros H. apply mapM_ok in H.
  eapply Forall2_right; [exact H|]. intros name a Hin Ha. simpl in Ha.
  apply name_entry_tokens in Ha. destruct Ha as (Ht & _).
  destruct (author_names_names _ _ Hin) as (_ & Hcomma).
  assert (Hclean : forall w, In w (split name) -> clean_token w).
  { intros w Hw. pose proof (split_tokens name) as F.
    rewrite Forall_forall in F. destruct (F w Hw) as (Hne & Hf).
    split; [assumption|]. intros c Hc. split.
    - rewrite forallb_forall in Hf. apply negb_true_iff. apply Hf. assumption.
    - apply Hcomma. eapply split_incl; eassumption. }
  apply Forall_forall. intros w Hw. apply Hclean.
  destruct Ht as [E|(E & Em & El)]; rewrite E.
  - destruct Hw as [<-|[<-|Hw]].
    + left. reflexivity.
    + right. apply in_or_app. right. left. reflexivity.
    + right. apply in_app_or in Hw. apply in_or_app.
      destruct Hw as [Hw|Hw]; [left; assumption | right; right; assumption].
  - rewrite Em, El in Hw. destruct Hw as [<-|[<-|Hw]].
    + left. reflexivity.
    + left. reflexivity.
    + right. assumption.
Qed.

Lemma process_authors_clean_witness :
  Forall
    (fun a => Forall clean_token
                (first a :: last a :: middle a ++ suffix_tokens a))
    [ mkAuthor (lit "John") [lit "A."] (lit "Smith") (lit "Jr") None;
      mkAuthor (lit "Jane") [] (lit "Doe") [] None ].
Proof.
  apply (@process_authors_clean (lit "John A. Smith Jr and Jane Doe") true).
  vm_compute. reflexivity.
Defined.

(** ** A greedy run of one-character rounds *)

Lemma span_len_le f s : span_len f s <= length s.
Proof.
  induction s as [|c s IH]; simpl; [lia|]. destruct (f c); simpl; lia.
Qed.

(** A greedy quantifier over one character takes the whole run when the
    continuation answers there. *)
Lemma rounds_chr_max (A : Type) f lo (k : cont A) x g : forall s fuel n pos,
  length s <= fuel ->
  lo <= n + span_len f s ->
  k (pos + span_len f s) (skipn (span_len f s) s) g = Some x ->
  rounds (run (Chr f)) true lo None k fuel n pos s g = Some x.
Proof.
  induction s as [|c s IH]; intros fuel n pos Hf Hlo Hk.
  - simpl in Hlo, Hk. rewrite Nat.add_0_r in *.
    apply Nat.leb_le in Hlo.
    destruct fuel; cbn [rounds below run orelse]; rewrite Hlo; assumption.
  - destruct fuel as [|fuel]; [simpl in Hf; lia|].
    cbn [rounds below run]. simpl in Hlo, Hk. destruct (f c) eqn:Ec.
    + replace (Nat.ltb (length s) (length (c :: s))) with true
        by (symmetry; apply Nat.ltb_lt; simpl; lia).
      rewrite IH; [reflexivity | simpl in Hf; lia | lia |].
      simpl in Hk. replace (S pos + span_len f s)
        with (pos + S (span_len f s)) by lia. assumption.
    + cbn [orelse]. rewrite Nat.add_0_r in *. apply Nat.leb_le in Hlo.
      rewrite Hlo. assumption.
Qed.

(** With rounds missing and no character to take, it has no answer. *)
Lemma rounds_chr_none (A : Type) f lo (k : cont A) g s fuel n pos :
  n < lo -> span_len f s = 0 ->
  rounds (run (Chr f)) true lo None k fuel n pos s g = None.
Proof.
  intros Hlo Hs. apply Nat.leb_gt in Hlo.
  destruct fuel; cbn [rounds below run orelse]; rewrite ?Hlo; [reflexivity|].
  destruct s as [|c s]; cbn [orelse]; rewrite ?Hlo; [reflexivity|].
  simpl in Hs. destruct (f c); [discriminate|]. reflexivity.
Qed.

Lemma match_at_plus_chr f must pos s :
  match_at (plus (Chr f)) must pos s
  = match span_len f s with
    | 0 => None
    | S n => Some (pos + S n, [])
    end.
Proof.
  unfold match_at, plus. cbn [run].
  destruct (span_len f s) as [|n] eqn:E.
  - apply rounds_chr_none; [lia | assumption].
  - apply rounds_chr_max; [lia | lia |]. rewrite E.
    replace (Nat.eqb (pos + S n) pos) with false
      by (symmetry; apply Nat.eqb_neq; lia).
    rewrite andb_false_r. reflexivity.
Qed.

(** Skipping is scanning further on. *)
Lemma scan_skip r : forall n s pos,
  n <= length s -> scan r pos s n = scan r (pos + n) (skipn n s) 0.
Proof.
  induction n as [|n IH]; intros s pos Hn.
  - rewrite Nat.add_0_r. reflexivity.
  - destruct s as [|c s]; [simpl in Hn; lia|].
    rewrite scan_cons_skip, IH by (simpl in Hn; lia).
    replace (S pos + n) with (pos + S n) by lia. reflexivity.
Qed.

(** ** Bibliography entries: the words of each line *)

Lemma collapse_run f x s :
  collapse f x true s = collapse f x false (skipn (span_len f s) s).
Proof.
  induction s as [|c s IH]; simpl; [reflexivity|].
  destruct (f c) eqn:E; simpl; [assumption | rewrite E; reflexivity].
Qed.

(** Replacing the matches of a greedy run of one-character rounds by a
    fixed text puts the text once for every maximal run. *)
Lemma sub_plus_chr f x text :
  sub (plus (Chr f)) [TLit x] text = collapse f x false text.
Proof.
  unfold sub, finditer.
  enough (H : forall m s, length s <= m -> forall pos,
    rebuild [TLit x] (scan (plus (Chr f)) pos s 0) pos s
    = collapse f x false s) by (eapply H; reflexivity).
  induction m as [|m IH]; intros s Hm pos.
  { destruct s; [|simpl in Hm; lia].
    rewrite scan_step, match_at_plus_chr. reflexivity. }
  destruct s as [|c s].
  { rewrite scan_step, match_at_plus_chr. reflexivity. }
  rewrite scan_step, match_at_plus_chr. cbv zeta. simpl span_len.
  simpl collapse. destruct (f c).
  - pose proof (span_len_le f s) as Hle. set (n := span_len f s) in *.
    simpl fst. replace (Nat.eqb (pos + S n) pos) with false
      by (symmetry; apply Nat.eqb_neq; lia).
    replace (pos + S n - pos - 1) with n by lia.
    rewrite scan_skip by assumption.
    unfold found. cbn [rebuild m_start m_end fst snd].
    rewrite Nat.sub_diag. replace (pos + S n - pos) with (S n) by lia.
    simpl. rewrite app_nil_r. f_equal.
    replace (S (pos + n)) with (pos + S n) by lia.
    rewrite IH.
    + symmetry. apply collapse_run.
    + rewrite length_skipn. simpl in Hm. lia.
  - rewrite rebuild_shift.
    + rewrite IH; [reflexivity | simpl in Hm; lia].
    + pose proof (scan_chain_at (plus (Chr f)) (S pos) s 0) as Hc.
      rewrite Nat.add_0_r in Hc. exact Hc.
Qed.

Lemma lstrip_snoc a c :
  lstrip (a ++ [c])
  = match lstrip a with
    | [] => if is_space c then [] else [c]
    | l => l ++ [c]
    end.
Proof.
  induction a as [|x a IH]; simpl; [destruct (is_space c); reflexivity|].
  destruct (is_space x); [assumption | reflexivity].
Qed.

Lemma rstrip_cons c s :
  rstrip (c :: s)
  = match rstrip s with
    | [] => if is_space c then [] else [c]
    | r => c :: r
    end.
Proof.
  unfold rstrip. simpl. rewrite lstrip_snoc.
  destruct (lstrip (rev s)) as [|x l]; simpl.
  - destruct (is_space c); reflexivity.
  - rewrite rev_app_distr. simpl.
    destruct (rev l ++ [x]) as [|y r] eqn:E; [|reflexivity].
    destruct (rev l); discriminate.
Qed.

Lemma lstrip_collapse x : forall s,
  (forall c, In c x -> is_space c = true) ->
  lstrip (collapse is_space x false s) = collapse is_space x true s.
Proof.
  intros s Hx. 
  assert (Hl : forall t, lstrip (x ++ t) = lstrip t).
  { induction x as [|c x IH]; intros t; [reflexivity|]. simpl.
    rewrite (Hx c (or_introl eq_refl)). apply IH.
    intros c' Hc'. apply Hx. right. assumption. }
  induction s as [|c s IH]; simpl; [reflexivity|].
  destruct (is_space c) eqn:E; simpl.
  - rewrite Hl.
    clear IH. induction s as [|c' s IH']; simpl; [reflexivity|].
    destruct (is_space c') eqn:E'; simpl; [assumption|].
    rewrite E'. reflexivity.
  - rewrite E. reflexivity.
Qed.

Lemma join_nil_iff (W : list str) :
  Forall (fun w => w <> []) W -> join (lit " ") W = [] -> W = [].
Proof.
  destruct W as [|w W]; [reflexivity|]. intros F H. exfalso.
  inversion F as [|? ? Hw _]; subst. apply Hw.
  simpl in H. destruct W; [assumption|].
  destruct w; [reflexivity | discriminate].
Qed.

Lemma split_words s : Forall (fun w => w <> []) (split s).
Proof.
  eapply Forall_impl; [|apply split_tokens]. simpl. tauto.
Qed.

(** The words of a line, with one space between them. *)
Lemma rstrip_collapse : forall s,
  rstrip (collapse is_space (lit " ") true s) = join (lit " ") (split s).
Proof.
  induction s as [|c s IH]; [reflexivity|].
  rewrite split_step. simpl collapse. destruct (is_space c) eqn:Ec.
  { exact IH. }
  rewrite rstrip_cons. destruct s as [|c' s'].
  { simpl. rewrite Ec. reflexivity. }
  simpl collapse in *. destruct (is_space c') eqn:Ec'.
  - rewrite rstrip_cons. simpl app. rewrite IH.
    pose proof (@join_nil_iff (split (c' :: s')) (split_words _)) as Hj.
    destruct (join (lit " ") (split (c' :: s'))) as [|y r] eqn:Ej.
    + rewrite (Hj eq_refl). change (is_space 32%N) with true. cbv iota.
      rewrite Ec. reflexivity.
    + destruct (split (c' :: s')) as [|w l]; [discriminate|].
      change (join (lit " ") ([c] :: w :: l))
        with (c :: 32%N :: join (lit " ") (w :: l)).
      rewrite Ej. reflexivity.
  - pose proof (split_words (c' :: s')) as F.
    assert (IH' : rstrip (c' :: collapse is_space (lit " ") false s')
                  = join (lit " ") (split (c' :: s'))).
    { rewrite <- IH. reflexivity. }
    rewrite IH'.
    destruct (split (c' :: s')) as [|w l] eqn:Ew.
    { exfalso. apply (@split_nonempty (c' :: s') c');
        [left; reflexivity | assumption | assumption]. }
    inversion F as [|? ? Hw _]; subst.
    destruct l as [|w' l']; cbn [join].
    + destruct w; [congruence | reflexivity].
    + destruct w; [congruence | reflexivity].
Qed.

Lemma blank_collapse b : forall s,
  blank (collapse is_space (lit " ") b s) = collapse is_space (lit " ") b s.
Proof.
  intros s. rewrite blank_map. revert b.
  induction s as [|c s IH]; intros b; simpl; [reflexivity|].
  destruct (is_space c) eqn:E.
  - rewrite map_app, IH. destruct b; reflexivity.
  - simpl. rewrite IH. unfold blank_char. rewrite E. reflexivity.
Qed.

Lemma bibentry_lines_eq bib_text :
  process_bibentry bib_text
  = join (lit " ")
      (map (fun line => join (lit " ") (split line))
           (split_on 10%N bib_text)).
Proof.
  unfold process_bibentry. rewrite map_map. f_equal.
  apply map_ext. intros line. unfold ws. rewrite sub_plus_chr.
  change (sub (Chr is_space) [TLit (lit " ")]) with blank.
  rewrite blank_collapse. unfold strip. rewrite lstrip_collapse.
  - apply rstrip_collapse.
  - intros c [<-|[]]. reflexivity.
Qed.

(** X7.  [process_bibentry] turns every line of the text into the words
    of the line with one space between them, as [' '.join(line.split())]
    does, and puts one space between the lines: the second substitution
    and the [strip] find nothing but single spaces to work on. *)
Theorem process_bibentry_words bib_text :
  process_bibentry bib_text
  = join (lit " ")
      (map (fun line => join (lit " ") (split line))
           (split_on 10%N bib_text)).
Proof. apply bibentry_lines_eq. Qed.

Lemma in_join c sep : forall W,
  In c (join sep W) -> In c sep \/ exists w, In w W /\ In c w.
Proof.
  induction W as [|w W IH]; simpl; [tauto|].
  destruct W as [|w' W'].
  - intros H. right. exists w. auto.
  - intros H. apply in_app_or in H. destruct H as [H|H].
    { right. exists w. auto. }
    apply in_app_or in H. destruct H as [H|H]; [left; assumption|].
    destruct (IH H) as [H'|(x & Hx & Hc)]; [left; assumption|].
    right. exists x. auto.
Qed.

(** X8.  The text of a bibliography entry has no whitespace character
    other than the space: no line break, no tabulator. *)
Theorem process_bibentry_spaces_only bib_text :
  Forall (fun c => is_space c = true -> c = code " ")
         (process_bibentry bib_text).
Proof.
  apply Forall_forall. intros c H Hs. rewrite bibentry_lines_eq in H.
  apply in_join in H. destruct H as [[<-|[]]|(w & Hw & Hc)]; [reflexivity|].
  apply in_map_iff in Hw. destruct Hw as (line & <- & _).
  apply in_join in Hc. destruct Hc as [[<-|[]]|(t & Ht & Hc)]; [reflexivity|].
  pose proof (split_tokens line) as F. rewrite Forall_forall in F.
  destruct (F t Ht) as (_ & Hf). rewrite forallb_forall in Hf.
  specialize (Hf c Hc). rewrite Hs in Hf. discriminate.
Qed.

Lemma has_blank_run_cons c s :
  has_blank_run (c :: s)
  = match s with
    | c' :: _ => (is_space c && is_space c') || has_blank_run s
    | [] => false
    end.
Proof. destruct s; reflexivity. Qed.

Lemma has_blank_run_app x y :
  has_blank_run (x ++ code " " :: y)
  = has_blank_run (x ++ [code " "]) || has_blank_run (code " " :: y).
Proof.
  induction x as [|c x IH].
  - simpl app. destruct y; reflexivity.
  - change ((c :: x) ++ code " " :: y) with (c :: (x ++ code " " :: y)).
    change ((c :: x) ++ [code " "]) with (c :: (x ++ [code " "])).
    rewrite !has_blank_run_cons, IH.
    destruct x as [|c' x']; simpl app.
    + change (has_blank_run [code " "]) with false.
      rewrite orb_false_l, orb_false_r. reflexivity.
    + cbv iota. rewrite orb_assoc. reflexivity.
Qed.

Lemma spaced_join : forall W,
  W <> [] -> Forall spaced W -> spaced (join (lit " ") W).
Proof.
  induction W as [|w W IH]; intros Hne F; [congruence|].
  inversion F as [|? ? Hw HW]; subst.
  destruct W as [|w' W']; [exact Hw|].
  change (join (lit " ") (w :: w' :: W'))
    with (w ++ code " " :: join (lit " ") (w' :: W')).
  unfold spaced in *. rewrite <- app_assoc.
  change (code " " :: w ++ (code " " :: join (lit " ") (w' :: W')) ++ [code " "])
    with ((code " " :: w) ++ code " " :: join (lit " ") (w' :: W') ++ [code " "]).
  rewrite has_blank_run_app.
  change ((code " " :: w) ++ [code " "]) with (code " " :: w ++ [code " "]).
  rewrite Hw.
  rewrite IH; [reflexivity | discriminate | assumption].
Qed.

Lemma no_space_run : forall w c,
  is_space c = false ->
  forallb (fun c => negb (is_space c)) w = true ->
  has_blank_run (c :: w ++ [code " "]) = false.
Proof.
  induction w as [|c' w IH]; intros c Hc Hf; rewrite has_blank_run_cons.
  - cbn [app]. rewrite Hc. reflexivity.
  - cbn [app]. rewrite Hc. cbn [andb orb].
    simpl in Hf. apply andb_true_iff in Hf. destruct Hf as (Hc' & Hf).
    apply negb_true_iff in Hc'. apply IH; assumption.
Qed.

Lemma token_spaced w :
  w <> [] -> forallb (fun c => negb (is_space c)) w = true -> spaced w.
Proof.
  unfold spaced. intros Hne Hf. destruct w as [|c w]; [congruence|].
  simpl in Hf. apply andb_true_iff in Hf. destruct Hf as (Hc & Hf).
  apply negb_true_iff in Hc.
  rewrite has_blank_run_cons. cbn [app]. rewrite Hc, andb_false_r.
  cbn [orb]. apply no_space_run; assumption.
Qed.

Lemma spaced_no_run s : spaced s -> has_blank_run s = false.
Proof.
  unfold spaced. rewrite has_blank_run_cons.
  destruct (s ++ [code " "]) as [|c t] eqn:E.
  { destruct s; discriminate. }
  intros H. apply orb_false_iff in H. destruct H as (_ & H). rewrite <- E in H.
  clear E c t. induction s as [|c s IH]; [reflexivity|].
  change ((c :: s) ++ [code " "]) with (c :: (s ++ [code " "])) in H.
  rewrite has_blank_run_cons in *.
  destruct s as [|c' s']; [reflexivity|].
  simpl app in H. apply orb_false_iff in H. destruct H as (H1 & H2).
  rewrite H1. apply IH. exact H2.
Qed.

(** X9.  When every line of the text has a word, the entry has no two
    blanks in a row.  (A line without a word gives an empty string
    between two separators, and so two spaces in a row.) *)
Theorem process_bibentry_single_spaces bib_text :
  (forall line, In line (split_on 10%N bib_text) -> split line <> []) ->
  has_blank_run (process_bibentry bib_text) = false.
Proof.
  intros H. rewrite bibentry_lines_eq. apply spaced_no_run.
  apply spaced_join.
  - destruct (split_on 10%N bib_text) eqn:E; [|discriminate].
    destruct bib_text as [|c t]; [discriminate|]. simpl in E.
    destruct (c =? 10)%N; [discriminate|].
    destruct (split_on 10%N t); discriminate.
  - apply Forall_forall. intros w Hw. apply in_map_iff in Hw.
    destruct Hw as (line & <- & Hl). apply spaced_join; [auto|].
    eapply Forall_impl; [|apply split_tokens]. simpl.
    intros t (Hne & Hf). apply token_spaced; assumption.
Qed.

Lemma process_bibentry_single_spaces_witness :
  has_blank_run (process_bibentry (lit "A.  Author," ++ 10%N :: lit " Title"))
  = false.
Proof.
  apply process_bibentry_single_spaces.
  intros line [<-|[<-|[]]]; vm_compute; discriminate.
Defined.

Example process_bibentry_empty_line :
  process_bibentry (lit "a" ++ [10%N; 10%N] ++ lit "b") = lit "a  b".
Proof. vm_compute. reflexivity. Qed.

(** ** The scanner reports every match that is not inside another *)

Lemma scan_seen r : forall s pre skip,
  Forall (seen_at r (pre ++ s)) (scan r (length pre) s skip).
Proof.
  assert (Hseen : forall pre s must x,
    match_at r must (length pre) s = Some x ->
    seen_at r (pre ++ s) (found (length pre) s x)).
  { intros pre s must x E. exists pre, s, must, x. auto. }
  induction s as [|c s IH]; intros pre skip.
  - destruct skip as [|n]; [|constructor].
    rewrite scan_step. cbv zeta.
    destruct (match_at r false (length pre) []) as [x|] eqn:E1; [|constructor].
    constructor; [eapply Hseen; eassumption|].
    destruct (Nat.eqb (fst x) (length pre)); [|constructor].
    destruct (match_at r true (length pre) []) as [y|] eqn:E2; [|constructor].
    constructor; [eapply Hseen; eassumption | constructor].
  - assert (Hn : forall n,
      Forall (seen_at r (pre ++ c :: s)) (scan r (S (length pre)) s n)).
    { intros n. rewrite snoc_shift, <- length_snoc with (c:=c). apply IH. }
    destruct skip as [|n]; [|rewrite scan_cons_skip; apply Hn].
    rewrite scan_step. cbv zeta.
    destruct (match_at r false (length pre) (c :: s)) as [x|] eqn:E1;
      [|apply Hn].
    constructor; [eapply Hseen; eassumption|].
    destruct (Nat.eqb (fst x) (length pre)); [|apply Hn].
    destruct (match_at r true (length pre) (c :: s)) as [y|] eqn:E2;
      [|apply Hn].
    constructor; [eapply Hseen; eassumption | apply Hn].
Qed.

(** A place where the pattern matches is the start of a reported match
    (the one the matcher finds there), or lies inside a reported
    match. *)
Lemma scan_complete r : forall s pos skip i x,
  skip <= i -> i <= length s ->
  match_at r false (pos + i) (skipn i s) = Some x ->
  exists m, In m (scan r pos s skip)
    /\ (m = found (pos + i) (skipn i s) x
        \/ m_start m < pos + i < m_end m).
Proof.
  induction s as [|c s IH]; intros pos skip i x Hs Hi Hx.
  - simpl in Hi. assert (i = 0) by lia. subst i.
    assert (skip = 0) by lia. subst skip.
    rewrite Nat.add_0_r in *. simpl skipn in *.
    rewrite scan_step. cbv zeta. rewrite Hx.
    eexists. split; [left; reflexivity | left; reflexivity].
  - assert (Hnext : forall n i', n <= i' -> i = S i' ->
      exists m, In m (scan r (S pos) s n)
        /\ (m = found (pos + i) (skipn i (c :: s)) x
            \/ m_start m < pos + i < m_end m)).
    { intros n i' Hn ->. simpl in Hi.
      replace (pos + S i') with (S pos + i') in * by lia.
      apply IH; [assumption | lia | exact Hx]. }
    destruct skip as [|n].
    2:{ rewrite scan_cons_skip. destruct i as [|i']; [lia|].
        apply (Hnext n i'); [lia | reflexivity]. }
    rewrite scan_step. cbv zeta.
    destruct i as [|i'].
    { rewrite Nat.add_0_r in *. simpl skipn in *. rewrite Hx.
      eexists. split; [left; reflexivity | left; reflexivity]. }
    assert (Hcover : forall y n l,
      n = fst y - pos - 1 ->
      (exists m, In m (scan r (S pos) s n) -> In m l) ->
      (forall m, In m (scan r (S pos) s n) -> In m l) ->
      In (found pos (c :: s) y) l ->
      exists m, In m l
        /\ (m = found (pos + S i') (skipn (S i') (c :: s)) x
            \/ m_start m < pos + S i' < m_end m)).
    { intros y n l -> _ Hsub Hhd.
      destruct (Nat.le_gt_cases (fst y - pos - 1) i') as [Hle|Hgt].
      - destruct (Hnext _ i' Hle eq_refl) as (m & Hm & Hor).
        exists m. split; [apply Hsub; assumption | assumption].
      - exists (found pos (c :: s) y). split; [assumption|].
        right. simpl. lia. }
    destruct (match_at r false pos (c :: s)) as [x0|] eqn:E0.
    2:{ apply (Hnext 0 i'); [lia | reflexivity]. }
    destruct (Nat.eqb (fst x0) pos) eqn:Ee.
    + destruct (match_at r true pos (c :: s)) as [y|] eqn:Ey.
      * apply (Hcover y (fst y - pos - 1)); [reflexivity | | |].
        -- exists (found pos (c :: s) y). intros _. right. left. reflexivity.
        -- intros m Hm. right. right. assumption.
        -- right. left. reflexivity.
      * destruct (Hnext 0 i') as (m & Hm & Hor); [lia | reflexivity|].
        exists m. split; [right; assumption | assumption].
    + apply (Hcover x0 (fst x0 - pos - 1)); [reflexivity | | |].
      * exists (found pos (c :: s) x0). intros _. left. reflexivity.
      * intros m Hm. right. assumption.
      * left. reflexivity.
Qed.

(** ** Runs *)

Lemma span_len_split f s :
  Forall (fun c => f c = true) (firstn (span_len f s) s)
  /\ forall c rest', skipn (span_len f s) s = c :: rest' -> f c = false.
Proof.
  induction s as [|c s (IH1 & IH2)]; simpl.
  - split; [constructor | discriminate].
  - destruct (f c) eqn:E; simpl.
    + split; [constructor; assumption | assumption].
    + split; [constructor|]. intros c' rest' H. injection H as <- <-.
      assumption.
Qed.

Lemma span_len_app f d rest :
  Forall (fun c => f c = true) d ->
  (forall c rest', rest = c :: rest' -> f c = false) ->
  span_len f (d ++ rest) = length d.
Proof.
  intros Hd Hr. induction Hd as [|c d Hc Hd IH]; simpl.
  - destruct rest as [|c rest']; [reflexivity|].
    simpl. rewrite (Hr c rest' eq_refl). reflexivity.
  - rewrite Hc, IH. reflexivity.
Qed.

Lemma span_len_nth f : forall s j c,
  nth_error s j = Some c -> j < span_len f s -> f c = true.
Proof.
  induction s as [|c0 s IH]; intros j c Hn Hj; [simpl in Hj; lia|].
  simpl in Hj. destruct (f c0) eqn:E; [|lia].
  destruct j as [|j]; simpl in Hn.
  - injection Hn as <-. assumption.
  - eapply IH; [eassumption | lia].
Qed.

(** ** The marker pattern *)

Lemma match_at_BID must pos s :
  match_at BID must pos s
  = match marker_len s with
    | Some n => Some (pos + n, [(1, firstn n s)])
    | None => None
    end.
Proof.
  unfold match_at, BID, marker_len, plus.
  change (lits "BID")
    with (Seq (Chr (N.eqb 66%N)) (Seq (Chr (N.eqb 73%N)) (Chr (N.eqb 68%N)))).
  change (code "B") with 66%N. change (code "I") with 73%N.
  change (code "D") with 68%N.
  destruct s as [|b [|i [|d s']]]; cbn [run seqs]; try reflexivity.
  - destruct (66 =? b)%N; reflexivity.
  - destruct (66 =? b)%N; [|reflexivity].
    destruct (73 =? i)%N; reflexivity.
  - rewrite (N.eqb_sym b), (N.eqb_sym i), (N.eqb_sym d).
    destruct (66 =? b)%N; [|reflexivity].
    destruct (73 =? i)%N; [|reflexivity].
    destruct (68 =? d)%N; [|reflexivity].
    cbn [andb].
    destruct (span_len is_digit s') as [|n] eqn:E.
    + apply rounds_chr_none; [lia | assumption].
    + apply rounds_chr_max; [lia | lia |]. rewrite E.
      replace (S (S (S pos)) + S n) with (pos + (3 + S n)) by lia.
      replace (Nat.eqb (pos + (3 + S n)) pos) with false
        by (symmetry; apply Nat.eqb_neq; lia).
      rewrite andb_false_r.
      replace (pos + (3 + S n) - pos) with (3 + S n) by lia.
      reflexivity.
Qed.

Lemma marker_len_token s n :
  marker_len s = Some n ->
  is_BID_token (firstn n s)
  /\ length (firstn n s) = n
  /\ (forall c rest', skipn n s = c :: rest' -> is_digit c = false)
  /\ exists s', s = lit "BID" ++ s' /\ n <= 3 + span_len is_digit s'.
Proof.
  unfold marker_len. destruct s as [|b [|i [|d s']]]; try discriminate.
  destruct (N.eqb_spec b (code "B")) as [->|]; [|discriminate].
  destruct (N.eqb_spec i (code "I")) as [->|]; [|discriminate].
  destruct (N.eqb_spec d (code "D")) as [->|]; [|discriminate].
  cbn [andb]. destruct (span_len is_digit s') as [|k] eqn:E; [discriminate|].
  intros H. injection H as <-.
  destruct (span_len_split is_digit s') as (Hd & Hr). rewrite E in Hd, Hr.
  pose proof (span_len_le is_digit s') as Hle. rewrite E in Hle.
  split; [|split; [|split]].
  - exists (firstn (S k) s'). split; [reflexivity|].
    split; [destruct s'; [simpl in Hle; lia | discriminate] | assumption].
  - rewrite length_firstn. simpl length. lia.
  - exact Hr.
  - exists s'. split; [reflexivity | lia].
Qed.

Lemma marker_len_intro token rest :
  is_BID_token token ->
  (forall c rest', rest = c :: rest' -> is_digit c = false) ->
  marker_len (token ++ rest) = Some (length token).
Proof.
  intros (ds & -> & Hne & Hd) Hr. rewrite <- app_assoc.
  change (lit "BID" ++ ds ++ rest)
    with (code "B" :: code "I" :: code "D" :: ds ++ rest).
  unfold marker_len. rewrite !N.eqb_refl. cbn [andb].
  rewrite (@span_len_app _ _ _ Hd Hr).
  destruct ds as [|c ds]; [congruence|]. rewrite length_app. reflexivity.
Qed.

Lemma cite_span_found (pre : str) s n :
  marker_len s = Some n ->
  cite_span (found (length pre) s (length pre + n, [(1, firstn n s)]))
  = mkSpan (length pre) (length pre + n) (firstn n s).
Proof.
  intros H. destruct (@marker_len_token _ _ H) as (_ & Hl & _).
  unfold cite_span, found. simpl.
  replace (length pre + n - length pre) with n by lia.
  rewrite Hl. reflexivity.
Qed.

(** The spans read off a text are its citation markers, each with all
    its digits, and all of them. *)
Lemma cite_spans_markers text sp :
  In sp (map cite_span (finditer BID text)) <-> marker_occurrence text sp.
Proof.
  split.
  - intros H. apply in_map_iff in H. destruct H as (m & <- & Hm).
    pose proof (scan_seen BID text [] 0) as F. rewrite Forall_forall in F.
    destruct (F m Hm) as (pre & s & must & x & Ht & Hx & ->).
    simpl in Ht. rewrite match_at_BID in Hx.
    destruct (marker_len s) as [n|] eqn:En; [|discriminate].
    injection Hx as <-. rewrite (@cite_span_found pre _ _ En).
    destruct (@marker_len_token _ _ En) as (Htok & Hl & Hr & _).
    exists pre, (skipn n s). simpl. rewrite firstn_skipn, Hl.
    repeat split; assumption.
  - intros (pre & rest & Ht & Hs & He & Htok & Hr).
    pose proof (@marker_len_intro _ _ Htok Hr) as En.
    assert (Hsk : skipn (length pre) text = sp_token sp ++ rest).
    { rewrite Ht, skipn_app, skipn_all, Nat.sub_diag. reflexivity. }
    destruct (@scan_complete BID text 0 0 (length pre)
                (length pre + length (sp_token sp),
                 [(1, firstn (length (sp_token sp)) (sp_token sp ++ rest))]))
      as (m & Hm & Hor).
    + lia.
    + rewrite Ht, length_app. lia.
    + rewrite Hsk, match_at_BID, En. reflexivity.
    + apply in_map_iff. exists m. split; [|exact Hm].
      destruct Hor as [->|Hin].
      * rewrite Hsk. simpl Nat.add.
        rewrite (@cite_span_found pre _ _ En).
        rewrite firstn_app, firstn_all, Nat.sub_diag. simpl firstn.
        rewrite app_nil_r. destruct sp as [a b t]. simpl in *. subst.
        reflexivity.
      * exfalso.
        pose proof (scan_seen BID text [] 0) as F.
        rewrite Forall_forall in F.
        destruct (F m Hm) as (pre' & s' & must & x & Ht' & Hx & ->).
        simpl in Ht'. rewrite match_at_BID in Hx.
        destruct (marker_len s') as [n'|] eqn:En'; [|discriminate].
        injection Hx as <-. simpl in Hin.
        destruct (@marker_len_token _ _ En') as (_ & _ & _ & s'' & -> & Hn').
        destruct Htok as (ds & Etok & _).
        assert (Hnth : nth_error text (length pre) = Some (code "B")).
        { rewrite Ht, nth_error_app2, Nat.sub_diag, Etok by lia.
          reflexivity. }
        rewrite Ht', nth_error_app2 in Hnth by lia.
        remember (length pre - length pre') as j eqn:Ej.
        destruct j as [|[|[|j]]]; [lia | discriminate | discriminate |].
        simpl in Hnth.
        assert (Hd : is_digit (code "B") = true).
        { eapply span_len_nth; [exact Hnth | lia]. }
        vm_compute in Hd. discriminate.
Qed.

(** X10.  The mention spans of a paragraph are exactly the citation
    markers of its text: every place of the text where [BID] and a
    digit stand is the start of a span, and a span goes on to the last
    of the digits that follow, also when a digit of the text comes
    right after the marker of a citation. *)
Theorem mention_spans_are_markers para_el sec block para_el' sp :
  process_paragraph para_el sec = Ok (block, para_el') ->
  In sp (mention_spans block) <-> marker_occurrence (text block) sp.
Proof.
  unfold process_paragraph. intros H. bind_inv H. injection H as <- _.
  simpl. apply cite_spans_markers.
Qed.

Lemma mention_spans_are_markers_witness :
  exists block el,
    process_paragraph (load par_marker_digit) [] = Ok (block, el)
    /\ text block = lit "See BID127."
    /\ (In (mkSpan 4 10 (lit "BID127")) (mention_spans block)
        <-> marker_occurrence (text block) (mkSpan 4 10 (lit "BID127"))).
Proof.
  do 2 eexists. split; [vm_compute; reflexivity|].
  split; [reflexivity|].
  apply (@mention_spans_are_markers (load par_marker_digit) [] _ _ _ eq_refl).
Defined.

(** ** The year among the paragraphs: when the loop is a filter *)

Lemma last_such_cons {A} (f : A -> bool) a l :
  last_such f (a :: l)
  = match last_such f l with
    | Some x => Some x
    | None => if f a then Some a else None
    end.
Proof.
  unfold last_such. simpl. rewrite find_app_or. simpl.
  destruct (List.find f (rev l)); [reflexivity|].
  destruct (f a); reflexivity.
Qed.

Lemma nth_error_middle {A} (kept : list A) p rest :
  nth_error (kept ++ p :: rest) (length kept) = Some p.
Proof. rewrite nth_error_app2, Nat.sub_diag by lia. reflexivity. Qed.

Lemma del_middle {A} (kept : list A) p rest :
  del (length kept) (kept ++ p :: rest) = kept ++ rest.
Proof. induction kept as [|x kept IH]; simpl; [reflexivity|]. rewrite IH. reflexivity. Qed.

Lemma no_two_adjacent_tail {A} (f : A -> bool) a l :
  no_two_adjacent f (a :: l) = true -> no_two_adjacent f l = true.
Proof.
  destruct l as [|b l]; [reflexivity|]. cbn [no_two_adjacent].
  intros H. apply andb_true_iff in H. tauto.
Qed.

Lemma no_two_adjacent_head {A} (f : A -> bool) a b l :
  no_two_adjacent f (a :: b :: l) = true -> f a = true -> f b = false.
Proof.
  cbn [no_two_adjacent]. intros H Ha. rewrite Ha in H.
  apply andb_true_iff in H. destruct H as (H & _).
  destruct (f b); [discriminate | reflexivity].
Qed.

Lemma year_loop_sweep : forall fuel kept rest year,
  no_two_adjacent starts_with_year rest = true ->
  length rest <= fuel ->
  year_loop fuel (length kept) (kept ++ rest) year
  = (match last_such starts_with_year rest with
     | Some p => text_of p
     | None => year
     end,
     kept ++ filter (fun p => negb (starts_with_year p)) rest).
Proof.
  induction fuel as [|fuel IH]; intros kept rest year Hadj Hf.
  { destruct rest; [reflexivity | simpl in Hf; lia]. }
  destruct rest as [|p rest].
  { cbn [year_loop filter last_such]. rewrite app_nil_r.
    replace (nth_error kept (length kept)) with (@None node); [reflexivity|].
    symmetry. apply nth_error_None. lia. }
  cbn [year_loop]. rewrite nth_error_middle.
  fold (starts_with_year p). rewrite last_such_cons. cbn [filter].
  destruct (starts_with_year p) eqn:Ep; cbn [negb].
  - rewrite del_middle. destruct rest as [|q rest].
    + cbn [filter]. rewrite !app_nil_r. destruct fuel; cbn [year_loop].
      * reflexivity.
      * replace (nth_error kept (S (length kept))) with (@None node);
          [reflexivity|].
        symmetry. apply nth_error_None. lia.
    + pose proof (no_two_adjacent_head _ _ _ _ Hadj Ep) as Eq.
      apply no_two_adjacent_tail in Hadj. apply no_two_adjacent_tail in Hadj.
      rewrite last_such_cons, Eq. cbn [filter]. rewrite Eq. cbn [negb].
      replace (S (length kept)) with (length (kept ++ [q]))
        by (rewrite length_app; simpl; lia).
      rewrite (snoc_shift kept q rest), (snoc_shift kept q (filter _ rest)).
      rewrite IH; [|assumption | simpl in Hf; lia].
      destruct (last_such starts_with_year rest); reflexivity.
  - replace (S (length kept)) with (length (kept ++ [p]))
      by (rewrite length_app; simpl; lia).
    rewrite (snoc_shift kept p rest), (snoc_shift kept p (filter _ rest)).
    apply no_two_adjacent_tail in Hadj.
    rewrite IH; [|assumption | simpl in Hf; lia].
    destruct (last_such starts_with_year rest); reflexivity.
Qed.

(** X11.  When no two paragraphs in a row start with four digits, the
    loop that looks for the year takes every paragraph that does out of
    the list and leaves the others in their order, and the year is the
    text of the last paragraph taken out (the year is left as it was
    when there is none).  With one such paragraph this is the paragraph
    taken for the year. *)
Theorem year_loop_filter ps year fuel :
  no_two_adjacent starts_with_year ps = true ->
  length ps <= fuel ->
  year_loop fuel 0 ps year
  = (match last_such starts_with_year ps with
     | Some p => text_of p
     | None => year
     end,
     filter (fun p => negb (starts_with_year p)) ps).
Proof.
  intros Hadj Hf. apply (@year_loop_sweep fuel [] ps year Hadj Hf).
Qed.

Lemma year_loop_filter_witness :
  year_loop (length pool_two_years) 0 pool_two_years []
  = (match last_such starts_with_year pool_two_years with
     | Some p => text_of p
     | None => []
     end,
     filter (fun p => negb (starts_with_year p)) pool_two_years).
Proof.
  apply (@year_loop_filter pool_two_years [] (length pool_two_years)).
  - vm_compute. reflexivity.
  - apply le_n.
Defined.

(** ** The abstract: the first of the longest paragraphs *)

Lemma index_of_max : forall l x,
  In x l ->
  index_of x l < length l
  /\ nth (index_of x l) l 0 = x
  /\ forall j, j < index_of x l -> nth j l 0 <> x.
Proof.
  induction l as [|y l IH]; intros x Hin; [destruct Hin|].
  simpl. destruct (Nat.eqb_spec x y) as [->|Hne].
  - split; [lia|]. split; [reflexivity|]. intros j Hj. lia.
  - destruct Hin as [->|Hin]; [congruence|].
    destruct (IH x Hin) as (H1 & H2 & H3).
    split; [lia|]. split; [assumption|].
    intros [|j] Hj; [congruence|]. apply H3. lia.
Qed.

Lemma max_in : forall l, l <> [] -> In (fold_right Nat.max 0 l) l.
Proof.
  induction l as [|x l IH]; intros Hne; [congruence|].
  simpl. destruct l as [|y l'].
  - left. simpl. lia.
  - destruct (Nat.max_spec x (fold_right Nat.max 0 (y :: l')))
      as [(_ & E)|(_ & E)]; rewrite E.
    + right. apply IH. discriminate.
    + left. reflexivity.
Qed.

Lemma max_upper : forall l j, nth j l 0 <= fold_right Nat.max 0 l.
Proof.
  induction l as [|x l IH]; intros [|j]; simpl; try lia.
  specialize (IH j). lia.
Qed.

(** X12.  The paragraph taken for the abstract is the first of the
    longest: [text_len.index(max(text_len))] is a place of the list,
    no text is longer than the one there, and every text before it is
    shorter. *)
Theorem index_max_first_longest (text_len : list nat) :
  text_len <> [] ->
  index_max text_len < length text_len
  /\ (forall j, nth j text_len 0 <= nth (index_max text_len) text_len 0)
  /\ (forall j, j < index_max text_len ->
        nth j text_len 0 < nth (index_max text_len) text_len 0).
Proof.
  intros Hne. unfold index_max.
  destruct (@index_of_max _ _ (max_in Hne)) as (H1 & H2 & H3).
  split; [assumption|]. rewrite H2. split.
  - apply max_upper.
  - intros j Hj. specialize (H3 j Hj).
    pose proof (max_upper text_len j). lia.
Qed.

Lemma index_max_first_longest_witness :
  index_max [3; 7; 2; 7] < 4
  /\ (forall j, nth j [3; 7; 2; 7] 0 <= nth (index_max [3; 7; 2; 7]) [3; 7; 2; 7] 0)
  /\ (forall j, j < index_max [3; 7; 2; 7] ->
        nth j [3; 7; 2; 7] 0 < nth (index_max [3; 7; 2; 7]) [3; 7; 2; 7] 0).
Proof.
  apply (@index_max_first_longest [3; 7; 2; 7]). discriminate.
Defined.

(** ** Paragraphs: when the citations can be replaced *)

Lemma mapM_returns_iff {A B} (f : A -> result B) l :
  (exists bs, mapM f l = Ok bs) <-> (forall a, In a l -> exists b, f a = Ok b).
Proof.
  split; [|apply mapM_returns].
  intros (bs & H) a Ha. apply mapM_ok in H.
  induction H as [|x b l bs Hx H IH]; [destruct Ha|].
  destruct Ha as [<-|Ha]; [eauto | apply IH; assumption].
Qed.

Lemma cite_target_raises cite e : cite_target cite = Raise e -> e = AttributeError.
Proof.
  unfold cite_target. destruct (find (lit "ref") cite) as [r|]; [|congruence].
  destruct (get r (lit "target")); congruence.
Qed.

Lemma mapM_raises_only {A B} (f : A -> result B) e0 l e :
  Forall (fun a => forall e', f a = Raise e' -> e' = e0) l ->
  mapM f l = Raise e -> e = e0.
Proof.
  induction 1 as [|a l Ha Hl IH]; simpl; [discriminate|].
  destruct (f a) as [b|e'] eqn:Ea; simpl.
  - destruct (mapM f l) as [bs|e''] eqn:El; simpl; [discriminate|].
    intros H. injection H as <-. apply IH. reflexivity.
  - intros H. injection H as <-. apply Ha; first [assumption | reflexivity].
Qed.

Lemma replace_cit_raises : forall n e,
  replace_cit n = Raise e -> e = AttributeError.
Proof.
  induction n as [s|s|nm a cs IH|s old IH|old IH] using node_induction;
    intros e H; simpl in H; try discriminate.
  destruct (str_eqb nm (lit "cit")).
  - destruct (cite_target (Tag nm a cs)) as [t|e'] eqn:Et; simpl in H.
    + destruct (mapM replace_cit cs) as [cs'|e'] eqn:Ec; simpl in H;
        [discriminate|].
      injection H as <-. eapply mapM_raises_only; eassumption.
    + injection H as <-. eapply cite_target_raises; eassumption.
  - destruct (mapM replace_cit cs) as [cs'|e'] eqn:Ec; simpl in H;
      [discriminate|].
    injection H as <-. eapply mapM_raises_only; eassumption.
Qed.

(** The loop over the citations goes through exactly when every [cit]
    tag has a [ref] with a target. *)
Lemma replace_cit_returns : forall n,
  (exists n', replace_cit n = Ok n')
  <-> (forall cite, In cite (tags (lit "cit") n) ->
         exists target, cite_target cite = Ok target).
Proof.
  induction n as [s|s|nm a cs IH|s old IH|old IH] using node_induction;
    try (simpl; split; [intros _ c [] | eauto]).
  assert (Hcs : (exists cs', mapM replace_cit cs = Ok cs')
                <-> (forall cite, In cite (flat_map (tags (lit "cit")) cs) ->
                       exists target, cite_target cite = Ok target)).
  { rewrite mapM_returns_iff. rewrite Forall_forall in IH. split.
    - intros H cite Hc. apply in_flat_map in Hc. destruct Hc as (c & Hc & Hin).
      apply (proj1 (IH c Hc)); [apply H|]; assumption.
    - intros H c Hc. apply (IH c Hc). intros cite Hin. apply H.
      apply in_flat_map. eauto. }
  cbn [replace_cit tags]. destruct (str_eqb nm (lit "cit")).
  - split.
    + intros (n' & H). bind_inv H. bind_inv H.
      intros cite [<-|Hc]; [eauto|].
      apply (proj1 Hcs); [eauto | assumption].
    + intros H. destruct (H _ (or_introl eq_refl)) as (t & ->).
      destruct (proj2 Hcs) as (cs' & ->); [|simpl; eauto].
      intros cite Hc. apply H. right. assumption.
  - simpl app. split.
    + intros (n' & H). bind_inv H. apply (proj1 Hcs). eauto.
    + intros H. destruct (proj2 Hcs H) as (cs' & ->). simpl. eauto.
Qed.

Lemma replace_cits_returns n :
  (exists n', replace_cits n = Ok n')
  <-> (forall cite, In cite (find_all (lit "cit") n) ->
         exists target, cite_target cite = Ok target).
Proof.
  unfold find_all. destruct n as [s|s|nm a cs|s old|old];
    try (simpl; split; [intros _ c [] | eauto]).
  cbn [replace_cits children]. split.
  - intros (n' & H) cite Hc. bind_inv H.
    apply in_flat_map in Hc. destruct Hc as (c & Hc & Hin).
    assert (Hr : exists c', replace_cit c = Ok c').
    { apply (proj1 (mapM_returns_iff replace_cit cs)); eauto. }
    apply (proj1 (replace_cit_returns c) Hr). assumption.
  - intros H.
    destruct (proj2 (mapM_returns_iff replace_cit cs)) as (cs' & ->);
      [|simpl; eauto].
    intros c Hc. apply replace_cit_returns. intros cite Hin. apply H.
    apply in_flat_map. eauto.
Qed.

Lemma replace_cits_raises n e : replace_cits n = Raise e -> e = AttributeError.
Proof.
  destruct n as [s|s|nm a cs|s old|old]; simpl; try discriminate.
  destruct (mapM replace_cit cs) as [cs'|e'] eqn:Ec; simpl; [discriminate|].
  intros H. injection H as <-. eapply mapM_raises_only; [|eassumption].
  apply Forall_forall. intros c _ e2. apply replace_cit_raises.
Qed.

(** X13.  [process_paragraph] returns a block exactly when every [cit]
    tag that the loop over the citations finds in the paragraph has a
    [ref] tag below it and the first of these has a [target]
    attribute; otherwise it raises, and what it raises is
    [AttributeError]. *)
Theorem process_paragraph_returns_iff para_el section_name :
  ((exists block el, process_paragraph para_el section_name = Ok (block, el))
   <-> (forall cite,
          In cite (find_all (lit "cit") (keywords_replaced para_el)) ->
          exists target, cite_target cite = Ok target))
  /\ (forall e, process_paragraph para_el section_name = Raise e ->
        e = AttributeError).
Proof.
  unfold process_paragraph, replace_keywords.
  fold (keywords_replaced para_el).
  pose proof (replace_cits_returns (keywords_replaced para_el)) as Hr.
  pose proof (@replace_cits_raises (keywords_replaced para_el)) as He.
  destruct (replace_cits (keywords_replaced para_el)) as [el|e'] eqn:E;
    simpl.
  - split; [|discriminate]. split.
    + intros _. apply Hr. eauto.
    + intros _. eauto.
  - split.
    + split.
      * intros (block & el & H). discriminate.
      * intros H. apply Hr in H. destruct H as (n' & H). discriminate.
    + intros e H. injection H as <-. apply He. reflexivity.
Qed.

(** The keyword loops make no [cit] tag. *)
Lemma tags_replace_tag name tag by_ : forall n,
  tags name n = [] -> tags name (replace_tag tag by_ n) = [].
Proof.
  induction n as [s|s|nm a cs IH|s old IH|old IH] using node_induction;
    intros H; try reflexivity.
  cbn [replace_tag]. destruct (str_eqb nm tag); [reflexivity|].
  cbn [tags] in *. destruct (str_eqb nm name); [discriminate|].
  cbn [app] in *. rewrite flat_map_map.
  induction cs as [|c cs IHcs]; [reflexivity|].
  simpl in *. apply app_eq_nil in H. destruct H as (Hc & Hcs).
  inversion IH as [|? ? Hc' Hcs']; subst.
  rewrite (Hc' Hc), (IHcs Hcs' Hcs). reflexivity.
Qed.

Lemma tags_replace_ref name : forall n,
  tags name n = [] -> tags name (replace_ref n) = [].
Proof.
  induction n as [s|s|nm a cs IH|s old IH|old IH] using node_induction;
    intros H; try reflexivity.
  cbn [replace_ref].
  destruct (str_eqb nm (lit "ref") && other_target (Tag nm a cs));
    [reflexivity|].
  cbn [tags] in *. destruct (str_eqb nm name); [discriminate|].
  cbn [app] in *. rewrite flat_map_map.
  induction cs as [|c cs IHcs]; [reflexivity|].
  simpl in *. apply app_eq_nil in H. destruct H as (Hc & Hcs).
  inversion IH as [|? ? Hc' Hcs']; subst.
  rewrite (Hc' Hc), (IHcs Hcs' Hcs). reflexivity.
Qed.

Lemma find_all_below name (f : node -> node) n :
  (forall c, tags name c = [] -> tags name (f c) = []) ->
  find_all name n = [] -> find_all name (below_ f n) = [].
Proof.
  intros Hf. unfold find_all. destruct n as [s|s|nm a cs|s old|old];
    try (intros; reflexivity).
  cbn [below_ children]. rewrite flat_map_map.
  induction cs as [|c cs IH]; [reflexivity|]. simpl.
  intros H. apply app_eq_nil in H. destruct H as (Hc & Hcs).
  rewrite (Hf _ Hc), (IH Hcs). reflexivity.
Qed.

(** X14.  A paragraph without a [cit] tag is always processed:
    [process_paragraph] returns its block and raises nothing, and the
    block has no text but that of the paragraph after the keyword
    loops, with its whitespace made spaces. *)
Theorem paragraph_without_cit_returns para_el section_name :
  find_all (lit "cit") para_el = [] ->
  exists el,
    process_paragraph para_el section_name
    = Ok (mkBlock (blank (text_of (keywords_replaced para_el)))
            (map cite_span
               (finditer BID (blank (text_of (keywords_replaced para_el)))))
            (Some section_name),
          el).
Proof.
  intros H.
  assert (Hk : find_all (lit "cit") (keywords_replaced para_el) = []).
  { unfold keywords_replaced, strip_tags. cbn [fold_left].
    repeat apply find_all_below;
      auto using tags_replace_ref, tags_replace_tag. }
  unfold process_paragraph, replace_keywords.
  fold (keywords_replaced para_el).
  assert (Hr : replace_cits (keywords_replaced para_el)
               = Ok (keywords_replaced para_el)).
  { unfold find_all in Hk.
    destruct (keywords_replaced para_el) as [s|s|nm a cs|s old|old];
      try reflexivity.
    cbn [replace_cits children] in *.
    assert (Hcs : mapM replace_cit cs = Ok cs); [|rewrite Hcs; reflexivity].
    clear -Hk. induction cs as [|c cs IH]; [reflexivity|].
    simpl in Hk. apply app_eq_nil in Hk. destruct Hk as (Hc & Hcs).
    simpl. rewrite (IH Hcs).
    assert (Ec : replace_cit c = Ok c); [|rewrite Ec; reflexivity].
    clear -Hc. revert Hc.
    induction c as [s|s|nm a cs IH|s old IH|old IH] using node_induction;
      intros Hc; try reflexivity.
    cbn [tags] in Hc. cbn [replace_cit].
    destruct (str_eqb nm (lit "cit")); [discriminate|].
    simpl in Hc.
    assert (Hcs : mapM replace_cit cs = Ok cs); [|rewrite Hcs; reflexivity].
    induction cs as [|c cs IHcs]; [reflexivity|].
    simpl in Hc. apply app_eq_nil in Hc. destruct Hc as (Hc & Hcs).
    inversion IH as [|? ? Hc' Hcs']; subst.
    simpl. rewrite (Hc' Hc), (IHcs Hcs' Hcs). reflexivity. }
  rewrite Hr. simpl. eexists. reflexivity.
Qed.

Lemma paragraph_without_cit_returns_witness :
  exists el,
    process_paragraph (load par_two_blanks) (lit "Intro")
    = Ok (mkBlock (blank (text_of (keywords_replaced (load par_two_blanks))))
            (map cite_span
               (finditer BID
                  (blank (text_of (keywords_replaced (load par_two_blanks))))))
            (Some (lit "Intro")),
          el).
Proof.
  apply (@paragraph_without_cit_returns (load par_two_blanks) (lit "Intro")).
  reflexivity.
Defined.

(** ** The bibliography: its keys *)

Lemma str_eqb_eq a b : str_eqb a b = true <-> a = b.
Proof.
  unfold str_eqb. destruct (list_eq_dec N.eq_dec a b); split; congruence.
Qed.

Lemma dict_set_keys k v : forall d,
  (forall k', In k' (map fst (dict_set k v d))
     <-> k' = k \/ In k' (map fst d))
  /\ (NoDup (map fst d) -> NoDup (map fst (dict_set k v d)))
  /\ (forall k' v', In (k', v') (dict_set k v d) ->
        (k' = k /\ v' = v) \/ In (k', v') d).
Proof.
  induction d as [|[k0 v0] d (IH1 & IH2 & IH3)]; simpl.
  - split; [intros k'; intuition congruence|].
    split; [intros _; repeat constructor; intros []|].
    intros k' v' [H|[]]. injection H as <- <-. auto.
  - destruct (str_eqb k k0) eqn:E.
    + apply str_eqb_eq in E. subst k0. simpl. split; [|split].
      * intros k'. intuition congruence.
      * auto.
      * intros k' v' [H|H]; [injection H as <- <-; auto | auto].
    + assert (Hne : k <> k0).
      { intros ->. rewrite (proj2 (str_eqb_eq k0 k0) eq_refl) in E.
        discriminate. }
      simpl. split; [|split].
      * intros k'. rewrite IH1. intuition congruence.
      * intros Hnd. inversion Hnd as [|? ? Hnin Hnd']; subst.
        constructor; [|auto]. rewrite IH1. intros [->|H]; congruence.
      * intros k' v' [H|H]; [auto|]. destruct (IH3 _ _ H); auto.
Qed.

Lemma bibitems_keys : forall l m0 m,
  bibitems l m0 = Ok m ->
  (NoDup (map fst m0) -> NoDup (map fst m))
  /\ (forall k v, In (k, v) m ->
        In (k, v) m0
        \/ exists bi parent id,
             In (bi, Some parent) l
             /\ get bi (lit "id") = Some id /\ id <> []
             /\ k = upper id
             /\ v = process_bibentry (text_of parent))
  /\ (forall k, In k (map fst m0) -> In k (map fst m))
  /\ (forall bi parent id,
        In (bi, parent) l -> get bi (lit "id") = Some id -> id <> [] ->
        In (upper id) (map fst m)).
Proof.
  induction l as [|[bi parent] l IH]; intros m0 m H; simpl in H.
  - injection H as <-. split; [auto|]. split; [auto|]. split; [auto|].
    intros bi parent id [].
  - destruct (get bi (lit "id")) as [id|] eqn:Eid; simpl in H.
    2:{ destruct (IH _ _ H) as (H1 & H2 & H3 & H4).
        split; [assumption|]. split; [|split; [assumption|]].
        - intros k v Hin. destruct (H2 _ _ Hin) as [?|(b & p & i & Hb & Hr)];
            [auto|]. right. exists b, p, i. split; [right|]; assumption.
        - intros b p i [Hb|Hb] Hg Hne; [|eauto].
          injection Hb as <- <-. congruence. }
    destruct id as [|c id]; simpl in H.
    { destruct (IH _ _ H) as (H1 & H2 & H3 & H4).
      split; [assumption|]. split; [|split; [assumption|]].
      - intros k v Hin. destruct (H2 _ _ Hin) as [?|(b & p & i & Hb & Hr)];
          [auto|]. right. exists b, p, i. split; [right|]; assumption.
      - intros b p i [Hb|Hb] Hg Hne; [|eauto].
        injection Hb as <- <-. congruence. }
    destruct parent as [par|]; simpl in H; [|discriminate].
    destruct (IH _ _ H) as (H1 & H2 & H3 & H4).
    destruct (dict_set_keys (upper (c :: id))
                (process_bibentry (text_of par)) m0) as (D1 & D2 & D3).
    split; [auto|]. split; [|split].
    + intros k v Hin. destruct (H2 _ _ Hin) as [Hd|(b & p & i & Hb & Hr)].
      * destruct (D3 _ _ Hd) as [(-> & ->)|?]; [|auto].
        right. exists bi, par, (c :: id).
        split; [left; reflexivity|]. split; [assumption|].
        split; [discriminate|]. auto.
      * right. exists b, p, i. split; [right|]; assumption.
    + intros k Hk. apply H3. apply D1. auto.
    + intros b p i [Hb|Hb] Hg Hne; [|eauto].
      injection Hb as <- <-. rewrite Eid in Hg. injection Hg as <-.
      apply H3. apply D1. auto.
Qed.

(** X15.  The bibliography entries have one entry for every key: no key
    comes twice.  The keys are the identifiers, in upper case, of the
    [bibitem] tags below the first [Bibliography] tag that have one;
    every such tag has its entry, and the text of an entry is what
    [process_bibentry] makes of the text of a paragraph around such a
    tag. *)
Theorem bibliography_keys soup bibkey_map :
  bibliography soup = Ok bibkey_map ->
  NoDup (map fst bibkey_map)
  /\ (forall k v, In (k, v) bibkey_map ->
        exists b up bi parent id,
          Bibliography soup = Some (b, up)
          /\ In (bi, Some parent)
                (flat_map (with_parent (lit "bibitem") up) (children b))
          /\ get bi (lit "id") = Some id /\ id <> []
          /\ k = upper id
          /\ v = process_bibentry (text_of parent))
  /\ (forall b up bi parent id,
        Bibliography soup = Some (b, up) ->
        In (bi, parent)
           (flat_map (with_parent (lit "bibitem") up) (children b)) ->
        get bi (lit "id") = Some id -> id <> [] ->
        In (upper id) (map fst bibkey_map)).
Proof.
  unfold bibliography. destruct (Bibliography soup) as [[b up]|] eqn:Eb.
  - intros H. destruct (bibitems_keys _ _ H) as (H1 & H2 & _ & H4).
    split; [apply H1; constructor|]. split.
    + intros k v Hin. destruct (H2 _ _ Hin) as [[]|(bi & p & i & Hr)].
      exists b, up, bi, p, i. split; [reflexivity | assumption].
    + intros b' up' bi parent id Hb. injection Hb as <- <-. apply H4.
  - intros H. injection H as <-. split; [constructor|].
    split; [intros k v [] | discriminate].
Qed.

Lemma bibliography_keys_witness :
  bibliography (BeautifulSoup doc_sample) = Ok [(lit "BID3", lit "Knuth, D.")]
  /\ NoDup (map fst [(lit "BID3", lit "Knuth, D.")]).
Proof.
  split; [vm_compute; reflexivity|].
  destruct (@bibliography_keys (BeautifulSoup doc_sample)
              [(lit "BID3", lit "Knuth, D.")]) as (H & _).
  - vm_compute. reflexivity.
  - exact H.
Defined.

(** ** The text of a paragraph, part by part *)

Lemma keywords_replaced_tag nm a cs :
  keywords_replaced (Tag nm a cs) = Tag nm a (map prepared cs).
Proof.
  unfold keywords_replaced, strip_tags, prepared. cbn [fold_left below_].
  rewrite !map_map. reflexivity.
Qed.

Lemma other_target_attrs nm a cs cs' :
  other_target (Tag nm a cs) = other_target (Tag nm a cs').
Proof. reflexivity. Qed.

Lemma str_eqb_refl s : str_eqb s s = true.
Proof. apply str_eqb_eq. reflexivity. Qed.

Lemma str_eqb_neq a b : a <> b -> str_eqb a b = false.
Proof.
  intros H. destruct (str_eqb a b) eqn:E; [|reflexivity].
  apply str_eqb_eq in E. contradiction.
Qed.

Lemma prepared_tag nm a cs :
  existsb (str_eqb nm) strip_tags = false ->
  prepared (Tag nm a cs)
  = if str_eqb nm (lit "ref") && other_target (Tag nm a cs)
    then Replaced (lit "REF") (Tag nm a (map prepared cs))
    else Tag nm a (map prepared cs).
Proof.
  unfold strip_tags. cbn [existsb]. intros H.
  apply orb_false_iff in H. destruct H as (E1 & H).
  apply orb_false_iff in H. destruct H as (E2 & H).
  apply orb_false_iff in H. destruct H as (E3 & _).
  unfold prepared. cbn [replace_tag]. rewrite E1.
  cbn [replace_tag]. rewrite E2. cbn [replace_tag]. rewrite E3.
  cbn [replace_ref]. rewrite !map_map. reflexivity.
Qed.

Lemma concat_some_texts : forall cs txt,
  Forall (fun c => forall txt, stands_for c = Some txt ->
            exists c', replace_cit (prepared c) = Ok c' /\ text_of c' = txt)
         cs ->
  concat_some (map stands_for cs) = Some txt ->
  exists cs', mapM replace_cit (map prepared cs) = Ok cs'
              /\ flat_map text_of cs' = txt.
Proof.
  induction cs as [|c cs IH]; intros txt F H; simpl in H.
  - injection H as <-. exists []. split; reflexivity.
  - inversion F as [|? ? Hc Hcs]; subst.
    destruct (stands_for c) as [x|] eqn:Ex; [|discriminate].
    destruct (concat_some (map stands_for cs)) as [y|] eqn:Ey;
      [|discriminate].
    injection H as <-.
    destruct (Hc x eq_refl) as (c' & Ec & Et).
    destruct (IH y Hcs eq_refl) as (cs' & Ecs & Ets).
    exists (c' :: cs'). simpl. rewrite Ec, Ecs. simpl.
    rewrite Et, Ets. split; reflexivity.
Qed.

(** Every node that stands for a text is replaced without an exception,
    and its text is then the text it stands for. *)
Lemma stands_for_text : forall n txt,
  stands_for n = Some txt ->
  exists n', replace_cit (prepared n) = Ok n' /\ text_of n' = txt.
Proof.
  induction n as [s|s|nm a cs IH|s old IH|old IH] using node_induction;
    intros txt H; simpl in H; try discriminate.
  - injection H as <-. exists (Text s). split; reflexivity.
  - injection H as <-. exists (Special s). split; reflexivity.
  - unfold strip_tags in H. cbn [existsb] in H.
    destruct (str_eqb nm (lit "formula")) eqn:E1.
    { apply str_eqb_eq in E1. subst nm. injection H as <-.
      eexists. split; reflexivity. }
    destruct (str_eqb nm (lit "figure")) eqn:E2.
    { apply str_eqb_eq in E2. subst nm. injection H as <-.
      eexists. split; reflexivity. }
    destruct (str_eqb nm (lit "table")) eqn:E3.
    { apply str_eqb_eq in E3. subst nm. injection H as <-.
      eexists. split; reflexivity. }
    cbn [orb] in H.
    assert (Hp := @prepared_tag nm a cs).
    unfold strip_tags in Hp. cbn [existsb] in Hp. rewrite E1, E2, E3 in Hp.
    specialize (Hp eq_refl).
    destruct (str_eqb nm (lit "cit")) eqn:E4.
    + apply str_eqb_eq in E4. subst nm.
      destruct cs as [|[s|s|rn ra [|x rcs]|s old|old] [|c2 cs2]];
        try discriminate.
      destruct (str_eqb rn (lit "ref")) eqn:Er; [|discriminate].
      apply str_eqb_eq in Er. subst rn.
      destruct (other_target (Tag (lit "ref") ra [])) eqn:Eo; [discriminate|].
      cbn [andb negb] in H.
      destruct (assoc (lit "target") ra) as [t|] eqn:Et; [|discriminate].
      injection H as <-.
      rewrite Hp. cbn [andb map].
      rewrite (@prepared_tag (lit "ref") ra [] eq_refl).
      rewrite str_eqb_refl, Eo.
      replace (str_eqb (lit "cit") (lit "ref")) with false by reflexivity.
      cbn [andb map replace_cit]. rewrite str_eqb_refl.
      unfold cite_target, find, find_all. cbn [children flat_map tags app].
      rewrite str_eqb_refl. cbn [app hd_error get flat_map]. rewrite Et.
      cbn [bind mapM replace_cit].
      replace (str_eqb (lit "ref") (lit "cit")) with false by reflexivity.
      cbn [bind mapM]. eexists. split; reflexivity.
    + destruct (str_eqb nm (lit "ref") && other_target (Tag nm a cs)) eqn:E5.
      * injection H as <-. rewrite Hp. eexists. split; reflexivity.
      * rewrite Hp. cbn [replace_cit]. rewrite E4.
        destruct (concat_some_texts IH H) as (cs' & Ecs & Ets).
        rewrite Ecs. cbn [bind]. eexists. split; [reflexivity|].
        exact Ets.
Qed.

(** X21.  The text of the block of a paragraph, part by part: when
    every child of the paragraph stands for a text, the block is made
    without an exception and its text is these texts one after the
    other, with every whitespace character made a space: the strings as
    they are, [FORMULA], [FIGURE] and [TABLE] for these tags, [REF] for
    a reference to something that is no bibliography key, the key in
    upper case for a citation, and the text of the parts of any other
    tag. *)
Theorem paragraph_text_by_parts nm a cs section_name txt :
  concat_some (map stands_for cs) = Some txt ->
  exists el,
    process_paragraph (Tag nm a cs) section_name
    = Ok (mkBlock (blank txt) (map cite_span (finditer BID (blank txt)))
            (Some section_name),
          el).
Proof.
  intros H. unfold process_paragraph, replace_keywords.
  fold (keywords_replaced (Tag nm a cs)). rewrite keywords_replaced_tag.
  cbn [replace_cits].
  destruct (@concat_some_texts cs txt) as (cs' & Ecs & Ets);
    [|assumption|].
  { apply Forall_forall. intros c _. apply stands_for_text. }
  rewrite Ecs. cbn [bind text_of]. rewrite Ets. eexists. reflexivity.
Qed.

Lemma paragraph_text_by_parts_witness :
  exists el,
    process_paragraph (Tag (lit "p") [] (map load par_usual)) (lit "Intro")
    = Ok (mkBlock
            (blank (lit "By BID3 we get FORMULA (see REF and also TABLE)."))
            (map cite_span
               (finditer BID
                  (blank
                     (lit "By BID3 we get FORMULA (see REF and also TABLE)."))))
            (Some (lit "Intro")),
          el).
Proof.
  apply paragraph_text_by_parts. vm_compute. reflexivity.
Defined.

Example paragraph_usual :
  option_map fst
    (match process_paragraph (Tag (lit "p") [] (map load par_usual))
             (lit "Intro") with
     | Ok r => Some r
     | Raise _ => None
     end)
  = Some (mkBlock (lit "By BID3 we get FORMULA (see REF and also TABLE).")
            [mkSpan 3 7 (lit "BID3")] (Some (lit "Intro"))).
Proof. vm_compute. reflexivity. Qed.

(** * The identifier of a paper *)

Lemma rfind_from_absent c : forall s i best,
  (forall x, In x s -> x <> c) -> rfind_from c s i best = best.
Proof.
  induction s as [|x s IH]; intros i best H; simpl; [reflexivity|].
  destruct (N.eqb_spec x c) as [->|Hne].
  - exfalso. apply (H c); [left|]; reflexivity.
  - apply IH. intros y Hy. apply H. right. assumption.
Qed.

Lemma rfind_from_last c : forall a b i best,
  (forall x, In x b -> x <> c) ->
  rfind_from c (a ++ c :: b) i best = (i + Z.of_nat (length a))%Z.
Proof.
  induction a as [|x a IH]; intros b i best H.
  - simpl. rewrite N.eqb_refl, rfind_from_absent by assumption. lia.
  - simpl app. cbn [rfind_from]. rewrite IH by assumption.
    simpl length. lia.
Qed.

Lemma rfind_last c a b :
  (forall x, In x b -> x <> c) ->
  rfind c (a ++ c :: b) = Z.of_nat (length a).
Proof. intros H. unfold rfind. rewrite rfind_from_last by assumption. lia. Qed.

(** X16.  The identifier read off the name of a normalised file is the
    name the file was written under: for a name [fn] without a slash
    and with a character that is no dot, the file [fn.tex] of a
    directory gives [fn] back, dots inside [fn] included. *)
Theorem arxiv_id_of_tex_file dir fn :
  (forall c, In c fn -> c <> code "/") ->
  existsb (fun c => negb (c =? code ".")%N) fn = true ->
  arxiv_id (dir ++ code "/" :: fn ++ lit ".tex") = fn.
Proof.
  intros Hsep Hdot. unfold arxiv_id, splitext.
  assert (Es : rfind (code "/") (dir ++ code "/" :: fn ++ lit ".tex")
               = Z.of_nat (length dir)).
  { apply rfind_last. intros x Hx. apply in_app_or in Hx.
    destruct Hx as [Hx|Hx]; [apply Hsep; assumption|].
    destruct Hx as [<-|[<-|[<-|[<-|[]]]]]; discriminate. }
  assert (Ed : rfind (code ".") (dir ++ code "/" :: fn ++ lit ".tex")
               = Z.of_nat (length (dir ++ code "/" :: fn))).
  { replace (dir ++ code "/" :: fn ++ lit ".tex")
      with ((dir ++ code "/" :: fn) ++ code "." :: lit "tex")
      by (rewrite <- app_assoc; reflexivity).
    apply rfind_last. intros x [<-|[<-|[<-|[]]]]; discriminate. }
  rewrite Es, Ed. rewrite length_app. simpl length.
  replace (Z.of_nat (length dir) <? Z.of_nat (length dir + S (length fn)))%Z
    with true by (symmetry; apply Z.ltb_lt; lia).
  replace (Z.to_nat (Z.of_nat (length dir) + 1)) with (length dir + 1) by lia.
  rewrite Nat2Z.id.
  assert (Esl : slice (dir ++ code "/" :: fn ++ lit ".tex")
                  (length dir + 1) (length dir + S (length fn)) = fn).
  { unfold slice.
    replace (dir ++ code "/" :: fn ++ lit ".tex")
      with ((dir ++ [code "/"]) ++ fn ++ lit ".tex")
      by (rewrite <- app_assoc; reflexivity).
    rewrite skipn_app, skipn_all2 by (rewrite length_app; simpl; lia).
    rewrite length_app. simpl length.
    replace (length dir + 1 - (length dir + 1)) with 0 by lia.
    simpl skipn.
    replace (length dir + S (length fn) - (length dir + 1))
      with (length fn) by lia.
    cbn [app].
    rewrite firstn_app, firstn_all, Nat.sub_diag. simpl. apply app_nil_r. }
  rewrite Esl, Hdot. cbn [andb fst].
  replace (firstn (length dir + S (length fn))
             (dir ++ code "/" :: fn ++ lit ".tex"))
    with (dir ++ code "/" :: fn).
  2:{ replace (dir ++ code "/" :: fn ++ lit ".tex")
        with ((dir ++ code "/" :: fn) ++ lit ".tex")
        by (rewrite <- app_assoc; reflexivity).
      rewrite firstn_app.
      replace (length dir + S (length fn))
        with (length (dir ++ code "/" :: fn))
        by (rewrite length_app; reflexivity).
      rewrite firstn_all, Nat.sub_diag. simpl. symmetry. apply app_nil_r. }
  unfold os_path_split. cbn [snd].
  rewrite rfind_last by assumption.
  replace (Z.to_nat (Z.of_nat (length dir) + 1)) with (length dir + 1) by lia.
  replace (dir ++ code "/" :: fn) with ((dir ++ [code "/"]) ++ fn)
    by (rewrite <- app_assoc; reflexivity).
  rewrite skipn_app, skipn_all2 by (rewrite length_app; simpl; lia).
  rewrite length_app. simpl length. rewrite Nat.sub_diag. reflexivity.
Qed.

Lemma arxiv_id_of_tex_file_witness :
  arxiv_id (lit "data/normalized/1704.00001.tex") = lit "1704.00001".
Proof.
  apply (@arxiv_id_of_tex_file (lit "data/normalized") (lit "1704.00001")).
  - vm_compute. intros c H.
    repeat (destruct H as [<-|H]; [discriminate|]). destruct H.
  - reflexivity.
Defined.

(** The name needs a character that is no dot: [os.path.splitext] finds
    no extension in a name that has only dots before its last one. *)
Example arxiv_id_of_dots :
  arxiv_id (lit "data/normalized/...tex") = lit "...tex".
Proof. vm_compute. reflexivity. Qed.

(** ** Substitution from left to right

    A pattern that does not ask for the start of the text matches the
    same way wherever the text starts, so that substituting in a text
    is substituting at its head and then in what follows. *)

Section Shift.
Variable A : Type.

Lemma rounds_shift body greedy lo hi d :
  local_on body ->
  (forall pos s g (k : cont A),
     body (d + pos) s g k = body pos s g (fun p' s' g' => k (d + p') s' g')) ->
  forall fuel n pos s g (k : cont A),
    rounds body greedy lo hi k fuel n (d + pos) s g
    = rounds body greedy lo hi (fun p' s' g' => k (d + p') s' g')
        fuel n pos s g.
Proof.
  intros Hl Hb. induction fuel as [|fuel IH]; intros n pos s g k.
  - reflexivity.
  - cbn [rounds]. rewrite Hb.
    assert (Hm :
      body pos s g
        (fun p' s' g' =>
           if Nat.ltb (length s') (length s)
           then rounds body greedy lo hi k fuel (S n) (d + p') s' g'
           else None)
      = body pos s g
          (fun p' s' g' =>
             if Nat.ltb (length s') (length s)
             then rounds body greedy lo hi
                    (fun p'' s'' g'' => k (d + p'') s'' g'')
                    fuel (S n) p' s' g'
             else None)).
    { apply Hl. intros p' s' g' _.
      destruct (Nat.ltb (length s') (length s)); [apply IH | reflexivity]. }
    rewrite Hm. reflexivity.
Qed.

Lemma run_shift r d :
  bos_free r = true ->
  forall pos s g (k : cont A),
    run r (d + pos) s g k = run r pos s g (fun p' s' g' => k (d + p') s' g').
Proof.
  induction r as [ | f | r1 IH1 r2 IH2 | r1 IH1 r2 IH2
                 | greedy lo hi r IH | n r IH | | ];
    intros Hf pos s g k; cbn [run]; cbn [bos_free] in Hf.
  - reflexivity.
  - destruct s as [|c s]; [reflexivity|].
    rewrite Nat.add_succ_r. reflexivity.
  - apply andb_true_iff in Hf. destruct Hf as (H1 & H2).
    rewrite (IH1 H1). apply run_local. intros p' s' g' _. apply (IH2 H2).
  - apply andb_true_iff in Hf. destruct Hf as (H1 & H2).
    rewrite (IH1 H1), (IH2 H2). reflexivity.
  - apply rounds_shift; [apply run_local | apply IH; assumption].
  - rewrite (IH Hf). apply run_local. intros p' s' g' _.
    replace (d + p' - (d + pos)) with (p' - pos) by lia. reflexivity.
  - discriminate.
  - reflexivity.
Qed.
End Shift.

Section Answer.
Variables B C : Type.
Variable h : B -> C.

Lemma rounds_option_map
  (body : nat -> str -> caps -> cont B -> option B)
  (body' : nat -> str -> caps -> cont C -> option C) greedy lo hi :
  local_on body' ->
  (forall k pos s g,
     body' pos s g (fun p' s' g' => option_map h (k p' s' g'))
     = option_map h (body pos s g k)) ->
  forall fuel k n pos s g,
    rounds body' greedy lo hi
      (fun p' s' g' => option_map h (k p' s' g')) fuel n pos s g
    = option_map h (rounds body greedy lo hi k fuel n pos s g).
Proof.
  intros Hl Hb.
  induction fuel as [|fuel IH]; intros k n pos s g.
  - cbn [rounds]. destruct greedy; cbn [orelse];
      destruct (Nat.leb lo n); try reflexivity;
      destruct (k pos s g); reflexivity.
  - cbn [rounds].
    assert (Hm :
      body' pos s g
        (fun p' s' g' =>
           if Nat.ltb (length s') (length s)
           then rounds body' greedy lo hi
                  (fun p'' s'' g'' => option_map h (k p'' s'' g''))
                  fuel (S n) p' s' g'
           else None)
      = option_map h
          (body pos s g
             (fun p' s' g' =>
                if Nat.ltb (length s') (length s)
                then rounds body greedy lo hi k fuel (S n) p' s' g'
                else None))).
    { rewrite <- Hb. apply Hl. intros p' s' g' _.
      destruct (Nat.ltb (length s') (length s)); [apply IH | reflexivity]. }
    rewrite Hm. set (x := body pos s g _).
    destruct (below hi n), greedy, (Nat.leb lo n); unfold orelse;
      destruct x; destruct (k pos s g); reflexivity.
Qed.

(** What is done with the answer of the continuation can be done with
    the answer of the matcher. *)
Lemma run_option_map r : forall (k : cont B) pos s g,
  run r pos s g (fun p' s' g' => option_map h (k p' s' g'))
  = option_map h (run r pos s g k).
Proof.
  induction r as [ | f | r1 IH1 r2 IH2 | r1 IH1 r2 IH2
                 | greedy lo hi r IH | n r IH | | ];
    intros k pos s g; cbn [run].
  - reflexivity.
  - destruct s as [|c s]; [reflexivity|]. destruct (f c); reflexivity.
  - rewrite <- IH1. apply run_local. intros p' s' g' _. apply IH2.
  - rewrite IH1, IH2. destruct (run r1 pos s g k); reflexivity.
  - apply rounds_option_map; [apply run_local | intros; apply IH].
  - rewrite <- IH. reflexivity.
  - destruct (Nat.eqb pos 0); reflexivity.
  - destruct s as [|c [|c' s]]; try reflexivity.
    destruct (c =? 10)%N; reflexivity.
Qed.
End Answer.

Lemma match_at_shift r d must pos s :
  bos_free r = true ->
  match_at r must (d + pos) s
  = option_map (fun x => (d + fst x, snd x)) (match_at r must pos s).
Proof.
  intros Hf. unfold match_at. rewrite run_shift by assumption.
  rewrite <- run_option_map. apply run_local. intros p' s' g' _.
  replace (Nat.eqb (d + p') (d + pos)) with (Nat.eqb p' pos).
  - destruct (must && Nat.eqb p' pos); reflexivity.
  - destruct (Nat.eqb_spec p' pos), (Nat.eqb_spec (d + p') (d + pos));
      try reflexivity; lia.
Qed.

Lemma found_shift d pos s x :
  found (d + pos) s (d + fst x, snd x) = shift d (found pos s x).
Proof.
  unfold found, shift. simpl.
  replace (d + fst x - (d + pos)) with (fst x - pos) by lia. reflexivity.
Qed.

Lemma scan_shift r d :
  bos_free r = true ->
  forall s pos skip,
    scan r (d + pos) s skip = map (shift d) (scan r pos s skip).
Proof.
  intros Hf. induction s as [|c s IH]; intros pos skip.
  - destruct skip as [|n]; [|reflexivity].
    rewrite !scan_step. cbv zeta. rewrite !match_at_shift by assumption.
    destruct (match_at r false pos []) as [x|]; [|reflexivity].
    cbn [option_map fst snd map]. rewrite found_shift.
    replace (Nat.eqb (d + fst x) (d + pos)) with (Nat.eqb (fst x) pos)
      by (destruct (Nat.eqb_spec (fst x) pos),
                   (Nat.eqb_spec (d + fst x) (d + pos));
          try reflexivity; lia).
    destruct (Nat.eqb (fst x) pos); [|reflexivity].
    destruct (match_at r true pos []) as [y|]; [|reflexivity].
    cbn [option_map fst snd map]. rewrite found_shift. reflexivity.
  - assert (Hn : forall n,
      scan r (S (d + pos)) s n = map (shift d) (scan r (S pos) s n)).
    { intros n. rewrite <- Nat.add_succ_r. apply IH. }
    destruct skip as [|n]; [|rewrite !scan_cons_skip; apply Hn].
    rewrite !scan_step. cbv zeta. rewrite !match_at_shift by assumption.
    destruct (match_at r false pos (c :: s)) as [x|]; [|apply Hn].
    cbn [option_map fst snd map]. rewrite found_shift.
    replace (Nat.eqb (d + fst x) (d + pos)) with (Nat.eqb (fst x) pos)
      by (destruct (Nat.eqb_spec (fst x) pos),
                   (Nat.eqb_spec (d + fst x) (d + pos));
          try reflexivity; lia).
    replace (d + fst x - (d + pos) - 1) with (fst x - pos - 1) by lia.
    destruct (Nat.eqb (fst x) pos); [|rewrite Hn; reflexivity].
    destruct (match_at r true pos (c :: s)) as [y|];
      [|rewrite Hn; reflexivity].
    cbn [option_map fst snd map]. rewrite found_shift.
    replace (d + fst y - (d + pos) - 1) with (fst y - pos - 1) by lia.
    rewrite Hn. reflexivity.
Qed.

Lemma expand_shift t d m : expand t (shift d m) = expand t m.
Proof.
  unfold expand. induction t as [|i t IH]; [reflexivity|].
  simpl. rewrite IH. destruct i as [x|[|n]]; reflexivity.
Qed.

Lemma rebuild_map_shift t d : forall ms pos s,
  rebuild t (map (shift d) ms) (d + pos) s = rebuild t ms pos s.
Proof.
  induction ms as [|m ms IH]; intros pos s; [reflexivity|].
  cbn [map rebuild]. rewrite expand_shift.
  change (m_start (shift d m)) with (d + m_start m).
  change (m_end (shift d m)) with (d + m_end m).
  replace (d + m_start m - (d + pos)) with (m_start m - pos) by lia.
  replace (d + m_end m - (d + pos)) with (m_end m - pos) by lia.
  rewrite IH. reflexivity.
Qed.

(** Where the pattern matches at the head of the text, over one
    character or more, the substitution puts the replacement there and
    goes on after the match. *)
Lemma sub_head_match r t text x :
  bos_free r = true ->
  match_at r false 0 text = Some x -> 0 < fst x ->
  sub r t text
  = expand t (found 0 text x) ++ sub r t (skipn (fst x) text).
Proof.
  intros Hf Hx Hpos. unfold sub, finditer.
  pose proof Hx as Hs. destruct x as [e g]. apply match_at_sound in Hs.
  destruct Hs as (w & rest & Ht & _ & He & _). simpl in He, Hpos. simpl fst.
  assert (Hle : e <= length text) by (rewrite Ht, length_app; lia).
  rewrite scan_step. cbv zeta. rewrite Hx. simpl fst.
  replace (Nat.eqb e 0) with false by (symmetry; apply Nat.eqb_neq; lia).
  destruct text as [|c s]; [simpl in Hle; lia|].
  rewrite scan_skip by (simpl in Hle; lia).
  replace (1 + (e - 0 - 1)) with (e + 0) by lia.
  replace (skipn (e - 0 - 1) s) with (skipn e (c :: s))
    by (destruct e; [lia | simpl; f_equal; lia]).
  rewrite (@scan_shift r e Hf).
  cbn [rebuild].
  change (m_start (found 0 (c :: s) (e, g))) with 0.
  change (m_end (found 0 (c :: s) (e, g))) with e.
  rewrite !Nat.sub_0_r. cbn [firstn app]. f_equal.
  rewrite <- (rebuild_map_shift t e (scan r 0 (skipn e (c :: s)) 0) 0).
  rewrite Nat.add_0_r. reflexivity.
Qed.

(** Where it does not match at the head, the first character stays. *)
Lemma sub_head_none r t c s :
  bos_free r = true ->
  match_at r false 0 (c :: s) = None ->
  sub r t (c :: s) = c :: sub r t s.
Proof.
  intros Hf Hx. unfold sub, finditer.
  rewrite scan_step. cbv zeta. rewrite Hx.
  rewrite rebuild_shift.
  - change 1 with (1 + 0). rewrite (@scan_shift r 1 Hf), rebuild_map_shift.
    reflexivity.
  - pose proof (scan_chain_at r 1 s 0) as Hc.
    rewrite Nat.add_0_r in Hc. exact Hc.
Qed.

(** ** The option of a bibliography item *)

Lemma run_lits_ci (A : Type) : forall p s pos g (k : cont A),
  starts_ci p s = true ->
  run (seqs (map (fun a => Chr (ci a)) p)) pos s g k
  = k (pos + length p) (skipn (length p) s) g.
Proof.
  induction p as [|a p IH]; intros s pos g k H.
  - simpl. rewrite Nat.add_0_r. reflexivity.
  - destruct s as [|c s]; [discriminate|].
    cbn [starts_ci] in H. apply andb_true_iff in H. destruct H as (Hc & Hs).
    destruct p as [|b p].
    + simpl. rewrite Hc. replace (pos + 1) with (S pos) by lia. reflexivity.
    + change (seqs (map (fun a => Chr (ci a)) (a :: b :: p)))
        with (Seq (Chr (ci a)) (seqs (map (fun a => Chr (ci a)) (b :: p)))).
      cbn [run]. rewrite Hc, IH by assumption.
      replace (S pos + length (b :: p)) with (pos + length (a :: b :: p))
        by (simpl; lia).
      reflexivity.
Qed.

(** A lazy quantifier over one character goes on as long as the
    continuation has no answer. *)
Lemma rounds_chr_lazy (A : Type) f lo (k : cont A) x g : forall w rest fuel n pos,
  Forall (fun c => f c = true) w ->
  length (w ++ rest) <= fuel ->
  (forall i, i < length w -> lo <= n + i ->
     k (pos + i) (skipn i (w ++ rest)) g = None) ->
  lo <= n + length w ->
  k (pos + length w) rest g = Some x ->
  rounds (run (Chr f)) false lo None k fuel n pos (w ++ rest) g = Some x.
Proof.
  induction w as [|c w IH]; intros rest fuel n pos Hw Hf Hnone Hlo Hk.
  - simpl in *. rewrite Nat.add_0_r in *. apply Nat.leb_le in Hlo.
    destruct fuel; cbn [rounds orelse]; rewrite Hlo, Hk; reflexivity.
  - inversion Hw as [|? ? Hc Hw']; subst.
    destruct fuel as [|fuel]; [simpl in Hf; lia|].
    cbn [rounds below orelse].
    assert (Hstop : (if Nat.leb lo n then k pos ((c :: w) ++ rest) g else None)
                    = None).
    { destruct (Nat.leb_spec lo n); [|reflexivity].
      pose proof (Hnone 0) as H0. rewrite !Nat.add_0_r in H0.
      apply H0; [simpl; lia | assumption]. }
    rewrite Hstop. change ((c :: w) ++ rest) with (c :: (w ++ rest)).
    cbn [run]. rewrite Hc.
    replace (Nat.ltb (length (w ++ rest)) (length (c :: w ++ rest)))
      with true by (symmetry; apply Nat.ltb_lt; simpl; lia).
    apply IH.
    + assumption.
    + simpl in Hf. lia.
    + intros i Hi Hl. pose proof (Hnone (S i)) as Hi'.
      replace (pos + S i) with (S pos + i) in Hi' by lia.
      apply Hi'; simpl; lia.
    + simpl in Hlo. lia.
    + simpl in Hk. replace (S pos + length w) with (pos + S (length w)) by lia.
      assumption.
Qed.

Lemma skipn_app_cons {A} (w : list A) i c rest :
  i <= length w ->
  exists y t, skipn i (w ++ c :: rest) = y :: t
    /\ (i < length w -> In y w) /\ (i = length w -> y = c).
Proof.
  revert i. induction w as [|a w IH]; intros i Hi.
  - simpl in Hi. assert (i = 0) by lia. subst. simpl.
    exists c, rest. split; [reflexivity|]. split; [lia | reflexivity].
  - destruct i as [|i].
    + exists a, (w ++ c :: rest). split; [reflexivity|].
      split; [left; reflexivity | discriminate].
    + destruct (IH i) as (y & t & E & H1 & H2); [simpl in Hi; lia|].
      exists y, t. split; [exact E|]. simpl.
      split; [intros; right; apply H1; lia | intros; apply H2; lia].
Qed.

(** The pattern on a [\bibitem] with an option. *)
Lemma match_at_bibopt must pos (b blanks opt rest : str) :
  starts_ci (lit "\bibitem") b = true -> length b = 8 ->
  Forall (fun c : char => is_space c = true) blanks ->
  Forall (fun c : char => negb (c =? code "]")%N = true) opt ->
  match_at BIBOPT_PATT must pos
    (b ++ blanks ++ code "[" :: opt ++ code "]" :: rest)
  = Some (pos + (8 + length blanks + 1 + length opt + 1), []).
Proof.
  intros Hb Hl Hbl Hopt. unfold match_at, BIBOPT_PATT, lits_ci.
  cbn [seqs]. cbn [run].
  rewrite run_lits_ci by (apply starts_ci_app; assumption).
  change (length (lit "\bibitem")) with 8.
  rewrite skipn_app, skipn_all2, <- Hl, Nat.sub_diag by lia. cbn [skipn app].
  unfold star_lazy.
  apply rounds_chr_lazy; [assumption | apply le_n | | lia | ].
  - intros i Hi _.
    destruct (@skipn_app_cons _ blanks i (code "[") (opt ++ code "]" :: rest))
      as (y & t & E & Hy & _); [apply Nat.lt_le_incl; exact Hi|].
    rewrite E. cbn [run]. unfold chr. cbn [run].
    specialize (Hy Hi). rewrite Forall_forall in Hbl. specialize (Hbl y Hy).
    destruct (N.eqb_spec (code "[") y) as [<-|]; [|reflexivity].
    vm_compute in Hbl. discriminate.
  - unfold chr, not_chr. cbn [run]. rewrite N.eqb_refl.
    apply rounds_chr_lazy; [assumption | apply le_n | | lia | ].
    + intros i Hi _.
      destruct (@skipn_app_cons _ opt i (code "]") rest)
        as (y & t & E & Hy & _); [apply Nat.lt_le_incl; exact Hi|].
      rewrite E. cbn [run].
      specialize (Hy Hi). rewrite Forall_forall in Hopt.
      specialize (Hopt y Hy). apply negb_true_iff in Hopt.
      rewrite N.eqb_sym, Hopt. reflexivity.
    + cbn [run]. rewrite N.eqb_refl.
      match goal with
      | |- (if must && Nat.eqb ?a ?b then _ else _) = _ =>
          replace (Nat.eqb a b) with false
            by (symmetry; apply Nat.eqb_neq; lia)
      end.
      rewrite andb_false_r. repeat f_equal. lia.
Qed.

(** X17.  The bibitem fix takes the option off a bibliography item:
    [\bibitem], in whatever case, then blanks, if any, and a bracketed
    option without a closing bracket inside become [\bibitem], and the
    fix goes on with the text after the option. *)
Theorem fix_bibopt_strips_option (b blanks opt rest : str) :
  starts_ci (lit "\bibitem") b = true -> length b = 8 ->
  Forall (fun c : char => is_space c = true) blanks ->
  Forall (fun c : char => negb (c =? code "]")%N = true) opt ->
  fix_bibopt (b ++ blanks ++ code "[" :: opt ++ code "]" :: rest)
  = lit "\bibitem" ++ fix_bibopt rest.
Proof.
  intros Hb Hl Hbl Hopt. unfold fix_bibopt.
  pose proof (@match_at_bibopt false 0 b blanks opt rest Hb Hl Hbl Hopt) as Hm.
  rewrite (@sub_head_match BIBOPT_PATT _ _ _ eq_refl Hm) by (simpl; lia).
  cbn [fst expand flat_map]. rewrite app_nil_r. f_equal. f_equal.
  replace (0 + (8 + length blanks + 1 + length opt + 1))
    with (length b + (length blanks + (1 + (length opt + 1)))) by lia.
  rewrite skipn_app, skipn_all2 by lia.
  replace (length b + (length blanks + (1 + (length opt + 1))) - length b)
    with (length blanks + (1 + (length opt + 1))) by lia.
  cbn [app]. rewrite skipn_app, skipn_all2 by lia.
  replace (length blanks + (1 + (length opt + 1)) - length blanks)
    with (S (length opt + 1)) by lia.
  cbn [app skipn]. rewrite skipn_app, skipn_all2 by lia.
  replace (length opt + 1 - length opt) with 1 by lia. reflexivity.
Qed.

Lemma fix_bibopt_strips_option_witness :
  fix_bibopt (lit "\BibItem" ++ lit "  " ++ code "[" :: lit "Knuth(1984)"
              ++ code "]" :: lit "{knuth84} D. Knuth")
  = lit "\bibitem" ++ fix_bibopt (lit "{knuth84} D. Knuth").
Proof.
  apply fix_bibopt_strips_option.
  - reflexivity.
  - reflexivity.
  - repeat constructor.
  - repeat constructor.
Defined.

Lemma bibopt_no_match must pos s :
  (starts_ci (lit "\bibitem") s = true ->
   startswith (lit "{") (skipn 8 s) = true) ->
  match_at BIBOPT_PATT must pos s = None.
Proof.
  intros Hplain.
  destruct (match_at BIBOPT_PATT must pos s) as [[e g]|] eqn:E; [|reflexivity].
  exfalso. apply match_at_sound in E.
  destruct E as (w & rest & -> & Hm & _).
  unfold BIBOPT_PATT in Hm. cbn [seqs] in Hm.
  apply matches_seq in Hm. destruct Hm as (w1 & w2 & -> & H1 & H2).
  apply matches_seq in H2. destruct H2 as (w3 & w4 & -> & H3 & H4).
  apply matches_seq in H4. destruct H4 as (w5 & w6 & -> & H5 & _).
  apply matches_lits_ci in H1. destruct H1 as (H1 & Hl).
  apply matches_star_chr in H3.
  inversion H5 as [|f c ? ? Hc| | | | | | | |]; subst.
  apply N.eqb_eq in Hc. subst c.
  rewrite <- !app_assoc in Hplain.
  specialize (Hplain (starts_ci_app _ _ _ H1)).
  rewrite skipn_app, skipn_all2 in Hplain by (rewrite Hl; simpl; lia).
  rewrite Hl in Hplain. cbn [length lit Nat.sub skipn app] in Hplain.
  change (8 - 8) with 0 in Hplain. cbn [skipn] in Hplain.
  destruct w3 as [|c w3].
  - vm_compute in Hplain. discriminate.
  - inversion H3 as [|? ? Hs _]; subst.
    cbn [app startswith lit] in Hplain. simpl in Hplain.
    apply andb_true_iff in Hplain. destruct Hplain as (Hc & _).
    destruct c as [|q]; [discriminate|].
    apply Pos.eqb_eq in Hc. subst q. vm_compute in Hs. discriminate.
Qed.

Lemma plain_no_match : forall s pos,
  plain_bibitems s = true -> scan BIBOPT_PATT pos s 0 = [].
Proof.
  induction s as [|c s IH]; intros pos H.
  - rewrite scan_step, bibopt_no_match; [reflexivity | discriminate].
  - cbn [plain_bibitems] in H. apply andb_true_iff in H.
    destruct H as (H1 & H2).
    rewrite scan_step, bibopt_no_match.
    + apply IH. assumption.
    + intros Hs. rewrite Hs in H1. exact H1.
Qed.

(** X18.  On a text whose bibliography items are all plain
    [\bibitem{...}], with the argument right after the macro, the
    bibitem fix changes nothing. *)
Theorem fix_bibopt_plain text :
  plain_bibitems text = true -> fix_bibopt text = text.
Proof.
  intros H. unfold fix_bibopt, sub, finditer.
  rewrite plain_no_match by assumption. reflexivity.
Qed.

Lemma fix_bibopt_plain_witness :
  fix_bibopt (lit "\bibitem{knuth84} D. Knuth [1984]. \Bibitem{b} B.")
  = lit "\bibitem{knuth84} D. Knuth [1984]. \Bibitem{b} B.".
Proof. apply fix_bibopt_plain. vm_compute. reflexivity. Defined.

(** ** Citation macros with a suffix *)

(** A quantifier that need not match is passed over where its pattern
    cannot match. *)
Lemma rounds_pass (A : Type) body greedy hi (k : cont A) fuel pos s g :
  (forall k', body pos s g k' = None) ->
  rounds body greedy 0 hi k fuel 0 pos s g = k pos s g.
Proof.
  intros Hb. destruct fuel; cbn [rounds Nat.leb]; rewrite ?Hb;
    destruct greedy, (below hi 0); cbn [orelse];
    destruct (k pos s g); reflexivity.
Qed.

Lemma run_chr_false (A : Type) f pos c s g (k : cont A) :
  f c = false -> run (Chr f) pos (c :: s) g k = None.
Proof. intros H. cbn [run]. rewrite H. reflexivity. Qed.

Lemma natbib_rest_head (A : Type) pos c s g (k : cont A) :
  is_space c = false -> c <> code "*" -> c <> code "[" ->
  run natbib_rest pos (c :: s) g k
  = run (seqs [chr "{"; Grp 3 (plus_lazy (not_chr "}")); chr "}"])
      pos (c :: s) g k.
Proof.
  intros Hs Hstar Hbr. unfold natbib_rest, star_lazy, opt, ws, chr.
  cbn [seqs]. cbn [run].
  assert (Hstar' : (code "*" =? c)%N = false)
    by (apply N.eqb_neq; congruence).
  assert (Hbr' : (code "[" =? c)%N = false)
    by (apply N.eqb_neq; congruence).
  repeat (rewrite rounds_pass;
          [| intros k'; cbn [run]; rewrite ?Hs, ?Hstar', ?Hbr'; reflexivity]).
  reflexivity.
Qed.

Lemma natbib_rest_none (A : Type) pos c s g (k : cont A) :
  is_space c = false -> c <> code "*" -> c <> code "[" -> c <> code "{" ->
  run natbib_rest pos (c :: s) g k = None.
Proof.
  intros Hs Hstar Hbr Hbrace. rewrite natbib_rest_head by assumption.
  cbn [seqs run]. unfold chr. cbn [run].
  replace (code "{" =? c)%N with false
    by (symmetry; apply N.eqb_neq; congruence).
  reflexivity.
Qed.

Lemma natbib_rest_key (A : Type) pos (key rest : str) g (k : cont A) x :
  key <> [] ->
  Forall (fun c : char => negb (c =? code "}")%N = true) key ->
  k (pos + (length key + 2)) rest
    ((3, key) :: g) = Some x ->
  run natbib_rest pos (code "{" :: key ++ code "}" :: rest) g k = Some x.
Proof.
  intros Hne Hkey Hk. rewrite natbib_rest_head; try discriminate;
    [|reflexivity].
  cbn [seqs run]. unfold chr at 1. cbn [run]. rewrite N.eqb_refl.
  unfold plus_lazy, not_chr. cbn [run].
  apply rounds_chr_lazy; [assumption | apply le_n | | | ].
  - intros i Hi Hlo.
    destruct (@skipn_app_cons _ key i (code "}") rest)
      as (y & t & E & Hy & _); [apply Nat.lt_le_incl; exact Hi|].
    rewrite E. unfold chr. cbn [run].
    specialize (Hy Hi). rewrite Forall_forall in Hkey.
    specialize (Hkey y Hy). apply negb_true_iff in Hkey.
    rewrite N.eqb_sym, Hkey. reflexivity.
  - destruct key; [congruence | simpl; lia].
  - unfold chr. cbn [run]. rewrite N.eqb_refl.
    replace (S pos + length key - S pos) with (length key) by lia.
    rewrite firstn_app, firstn_all, Nat.sub_diag.
    cbn [firstn]. rewrite app_nil_r.
    replace (S (S pos + length key)) with (pos + (length key + 2)) by lia.
    exact Hk.
Qed.

Lemma run_lits_ci_none (A : Type) : forall p s pos g (k : cont A),
  starts_ci p s = false ->
  run (seqs (map (fun a => Chr (ci a)) p)) pos s g k = None.
Proof.
  induction p as [|a p IH]; intros s pos g k H; [discriminate|].
  destruct s as [|c s].
  - destruct p; reflexivity.
  - cbn [starts_ci] in H. destruct p as [|b p].
    + simpl in *. rewrite andb_true_r in H. rewrite H. reflexivity.
    + change (seqs (map (fun a => Chr (ci a)) (a :: b :: p)))
        with (Seq (Chr (ci a)) (seqs (map (fun a => Chr (ci a)) (b :: p)))).
      cbn [run]. destruct (ci a c); [|reflexivity].
      apply IH. exact H.
Qed.

Lemma run_lits_ci_if (A : Type) p s pos g (k : cont A) :
  run (lits_ci p) pos s g k
  = if starts_ci (lit p) s
    then k (pos + length (lit p)) (skipn (length (lit p)) s) g
    else None.
Proof.
  unfold lits_ci. destruct (starts_ci (lit p) s) eqn:E.
  - apply run_lits_ci; assumption.
  - apply run_lits_ci_none; assumption.
Qed.

(** The two cases of a letter of the suffixes. *)
Lemma ci_letter (p : ascii) c :
  In p ["t"; "p"; "a"; "l"; "u"; "h"; "o"; "r"; "y"; "e"]%char ->
  ci (code p) c = true ->
  c = code p \/ c = (code p - 32)%N.
Proof.
  intros Hp H.
  repeat (destruct Hp as [<-|Hp];
          [cbv -[N.eqb orb] in H;
           repeat rewrite orb_false_r in H;
           apply orb_true_iff in H;
           destruct H as [H|H]; apply N.eqb_eq in H; subst c;
           [left | right]; reflexivity|]).
  destruct Hp.
Qed.

Ltac split_letter L :=
  match goal with
  | H : ci (code L) ?c = true |- _ =>
      apply (@ci_letter L c) in H;
      [destruct H as [H|H]; subst c | simpl; tauto]
  end.

(** The alternatives that can be decided are decided. *)
Ltac eval_alternatives :=
  repeat match goal with
         | |- context [starts_ci (lit ?p) ?s] =>
             let b := eval vm_compute in (starts_ci (lit p) s) in
             match b with
             | true => idtac
             | false => idtac
             end;
             change (starts_ci (lit p) s) with b
         end;
  repeat match goal with
         | |- context [length (lit ?p)] =>
             let n := eval vm_compute in (length (lit p)) in
             change (length (lit p)) with n
         end;
  cbv iota; cbn [skipn orelse].

(** The letters of a suffix, one by one. *)
Ltac suffix_letters Hs Hl suf :=
  repeat (let c := fresh "c" in
          destruct suf as [|c suf]; cbn [length] in Hl;
          try discriminate Hl);
  cbn [starts_ci lit map list_ascii_of_string] in Hs;
  change (N_of_ascii ?a) with (code a) in Hs;
  repeat match type of Hs with
         | (_ && _) = true =>
             let H1 := fresh "H" in
             apply andb_true_iff in Hs; destruct Hs as (H1 & Hs)
         end;
  clear Hs Hl.

Lemma starts_ci_prefix p q s :
  starts_ci (p ++ q) s = true -> starts_ci p s = true.
Proof.
  revert s. induction p as [|a p IH]; intros s H; [reflexivity|].
  destruct s as [|c s]; [discriminate|]. simpl in *.
  apply andb_true_iff in H. destruct H as (H1 & H2).
  rewrite H1, (IH _ H2). reflexivity.
Qed.

(** The citation pattern on a macro with a suffix and its argument:
    the alternatives before the suffix fail, [year] before [yearpar]
    included, where the rest of the pattern finds no argument. *)
Lemma natbib_suffix_match (A : Type) (suf key rest : str) pos g
  (k : cont A) x :
  is_natbib_suffix suf = true ->
  key <> [] ->
  Forall (fun c : char => negb (c =? code "}")%N = true) key ->
  k (pos + length suf + (length key + 2)) rest
    ((3, key) :: (1, suf) :: g) = Some x ->
  run (Seq (Grp 1 (alts [lits_ci "t"; lits_ci "p"; lits_ci "alt";
                          lits_ci "alp"; lits_ci "author"; lits_ci "year";
                          lits_ci "yearpar"]))
           natbib_rest)
      pos (suf ++ code "{" :: key ++ code "}" :: rest) g k = Some x.
Proof.
  intros Hsuf Hne Hkey Hk.
  unfold is_natbib_suffix, natbib_suffixes in Hsuf. cbn [existsb] in Hsuf.
  rewrite orb_false_r in Hsuf.
  assert (Hrest : forall s0 n,
    length s0 = n ->
    k (pos + n + (length key + 2)) rest ((3, key) :: (1, s0) :: g) = Some x ->
    run natbib_rest (pos + n) (code "{" :: key ++ code "}" :: rest)
      ((1, firstn (pos + n - pos) (s0 ++ code "{" :: key ++ code "}" :: rest))
         :: g) k = Some x).
  { intros s0 n Hn Hk0. apply natbib_rest_key; [assumption | assumption|].
    replace (pos + n - pos) with (length s0) by lia.
    rewrite firstn_app, firstn_all, Nat.sub_diag. cbn [firstn].
    rewrite app_nil_r. rewrite <- Nat.add_assoc. rewrite <- Nat.add_assoc in Hk0.
    exact Hk0. }
  cbn [run alts]. rewrite ?run_lits_ci_if.
  repeat match type of Hsuf with
         | (_ || _) = true =>
             apply orb_true_iff in Hsuf; destruct Hsuf as [Hsuf|Hsuf]
         end;
    unfold same_ci in Hsuf; apply andb_true_iff in Hsuf;
    destruct Hsuf as (Hs & Hl); apply Nat.eqb_eq in Hl;
    rewrite (starts_ci_app _ _ _ Hs);
    try rewrite (starts_ci_app _ _ _
                   (@starts_ci_prefix (lit "year") (lit "par") suf Hs));
    suffix_letters Hs Hl suf;
    try split_letter "p"%char; try split_letter "a"%char;
    try split_letter "y"%char; try split_letter "l"%char;
    try split_letter "u"%char;
    cbn [app]; eval_alternatives;
    try (rewrite natbib_rest_none; [| reflexivity | discriminate
                                     | discriminate | discriminate]);
    cbn [orelse];
    match type of Hk with
    | k _ _ ((3, _) :: (1, ?s0) :: _) = _ =>
        let H0 := fresh "H" in
        pose proof (Hrest s0 _ eq_refl Hk) as H0;
        cbn [length app] in H0; rewrite H0; reflexivity
    end.
Qed.

Lemma run_seq (A : Type) r1 r2 pos s g (k : cont A) :
  run (Seq r1 r2) pos s g k
  = run r1 pos s g (fun p' s' g' => run r2 p' s' g' k).
Proof. reflexivity. Qed.

Lemma match_at_natbib must pos (c suf key rest : str) :
  starts_ci (lit "\cite") c = true -> length c = 5 ->
  is_natbib_suffix suf = true ->
  key <> [] ->
  Forall (fun x : char => negb (x =? code "}")%N = true) key ->
  match_at NATBIB_PATT must pos
    (c ++ suf ++ code "{" :: key ++ code "}" :: rest)
  = Some (pos + (5 + length suf + (length key + 2)), [(3, key); (1, suf)]).
Proof.
  intros Hc Hl Hsuf Hne Hkey. unfold match_at, NATBIB_PATT.
  change (seqs
            (lits_ci "\cite"
             :: Grp 1 (alts [lits_ci "t"; lits_ci "p"; lits_ci "alt";
                             lits_ci "alp"; lits_ci "author"; lits_ci "year";
                             lits_ci "yearpar"])
             :: ?l))
    with (Seq (lits_ci "\cite")
            (Seq (Grp 1 (alts [lits_ci "t"; lits_ci "p"; lits_ci "alt";
                               lits_ci "alp"; lits_ci "author";
                               lits_ci "year"; lits_ci "yearpar"]))
                 natbib_rest)).
  rewrite run_seq. unfold lits_ci at 1.
  rewrite run_lits_ci by (apply starts_ci_app; assumption).
  change (length (lit "\cite")) with 5.
  replace (skipn 5 (c ++ suf ++ code "{" :: key ++ code "}" :: rest))
    with (suf ++ code "{" :: key ++ code "}" :: rest)
    by (rewrite skipn_app, skipn_all2, Hl by lia; reflexivity).
  apply natbib_suffix_match; [assumption | assumption | assumption |].
  replace (Nat.eqb (pos + 5 + length suf + (length key + 2)) pos)
    with false by (symmetry; apply Nat.eqb_neq; lia).
  rewrite andb_false_r.
  replace (pos + 5 + length suf + (length key + 2))
    with (pos + (5 + length suf + (length key + 2))) by lia.
  reflexivity.
Qed.

(** X22.  The citation fix on a citation macro with a suffix and its
    argument: [\cite] followed by one of [t], [p], [alt], [alp],
    [author], [year], [yearpar], in whatever case, and an argument in
    braces becomes [\cite] with the same argument, and the fix goes on
    with the text after the argument. *)
Theorem fix_natbib_drops_suffix (c suf key rest : str) :
  starts_ci (lit "\cite") c = true -> length c = 5 ->
  is_natbib_suffix suf = true ->
  key <> [] ->
  Forall (fun x : char => negb (x =? code "}")%N = true) key ->
  fix_natbib (c ++ suf ++ code "{" :: key ++ code "}" :: rest)
  = lit "\cite{" ++ key ++ lit "}" ++ fix_natbib rest.
Proof.
  intros Hc Hl Hsuf Hne Hkey. unfold fix_natbib.
  pose proof (@match_at_natbib false 0 c suf key rest Hc Hl Hsuf Hne Hkey)
    as Hm.
  rewrite (@sub_head_match NATBIB_PATT _ _ _ eq_refl Hm) by (simpl; lia).
  cbn [fst expand flat_map titem_rect]. 
  change (m_group 3 (found 0 (c ++ suf ++ code "{" :: key ++ code "}" :: rest)
                       (0 + (5 + length suf + (length key + 2)),
                        [(3, key); (1, suf)])))
    with key.
  rewrite app_nil_r, <- !app_assoc. do 3 f_equal.
  replace (0 + (5 + length suf + (length key + 2)))
    with (length c + (length suf + (1 + (length key + 1)))) by lia.
  rewrite skipn_app, skipn_all2 by lia.
  replace (length c + (length suf + (1 + (length key + 1))) - length c)
    with (length suf + (1 + (length key + 1))) by lia.
  rewrite skipn_app, skipn_all2 by lia.
  replace (length suf + (1 + (length key + 1)) - length suf)
    with (S (length key + 1)) by lia.
  cbn [skipn]. rewrite skipn_app, skipn_all2 by lia.
  replace (length key + 1 - length key) with 1 by lia. reflexivity.
Qed.

Lemma fix_natbib_drops_suffix_witness :
  fix_natbib (lit "\Cite" ++ lit "yearpar" ++ code "{" :: lit "knuth84,b"
              ++ code "}" :: lit " says \citet{c}.")
  = lit "\cite{" ++ lit "knuth84,b" ++ lit "}"
    ++ fix_natbib (lit " says \citet{c}.").
Proof.
  apply fix_natbib_drops_suffix.
  - reflexivity.
  - reflexivity.
  - reflexivity.
  - discriminate.
  - repeat constructor.
Defined.

(** ** Which files count as [.tex] files *)

Lemma rfind_absent c s :
  (forall x, In x s -> x <> c) -> rfind c s = (-1)%Z.
Proof. intros H. unfold rfind. apply rfind_from_absent. assumption. Qed.

Lemma splitext_name (stem e : str) :
  (forall c, In c stem -> c <> code "/") ->
  (forall c, In c e -> c <> code "/" /\ c <> code ".") ->
  existsb (fun c => negb (c =? code ".")%N) stem = true ->
  splitext (stem ++ code "." :: e) = (stem, code "." :: e).
Proof.
  intros Hstem He Hdot. unfold splitext.
  rewrite rfind_absent.
  2:{ intros x Hx. apply in_app_or in Hx. destruct Hx as [Hx|[<-|Hx]].
      - apply Hstem. assumption.
      - discriminate.
      - apply He. assumption. }
  rewrite rfind_last by (intros x Hx; apply He; assumption).
  replace (-1 <? Z.of_nat (length stem))%Z with true
    by (symmetry; apply Z.ltb_lt; lia).
  change (Z.to_nat (-1 + 1)) with 0. rewrite Nat2Z.id.
  unfold slice. rewrite Nat.sub_0_r. cbn [skipn].
  rewrite firstn_app, firstn_all, Nat.sub_diag. cbn [firstn].
  rewrite app_nil_r, Hdot. cbn [andb].
  rewrite skipn_app, skipn_all, Nat.sub_diag. reflexivity.
Qed.

(** X23.  A file of the listing counts as a [.tex] file exactly when
    its extension is [tex] in whatever case, or that followed by a line
    break: for a name [stem.ext] without a slash, with no dot in [ext]
    and a character in [stem] that is no dot. *)
Theorem is_tex_iff (stem e : str) :
  (forall c, In c stem -> c <> code "/") ->
  (forall c, In c e -> c <> code "/" /\ c <> code ".") ->
  existsb (fun c => negb (c =? code ".")%N) stem = true ->
  is_tex (stem ++ code "." :: e) = true
  <-> (same_ci (lit "tex") e = true
       \/ exists e', e = e' ++ [10%N] /\ same_ci (lit "tex") e' = true).
Proof.
  intros Hstem He Hdot. unfold is_tex.
  rewrite splitext_name by assumption. cbn [snd]. rewrite tex_extension.
  unfold same_ci. split.
  - intros (t & e1 & x & tail & E & Ht & He1 & Hx & Htail).
    injection E as ->. destruct Htail as [-> | ->].
    + left. cbn [starts_ci lit map list_ascii_of_string length].
      change (N_of_ascii ?a) with (code a).
      rewrite Ht, He1, Hx. reflexivity.
    + right. exists [t; e1; x]. split; [reflexivity|].
      cbn [starts_ci lit map list_ascii_of_string length].
      change (N_of_ascii ?a) with (code a).
      rewrite Ht, He1, Hx. reflexivity.
  - assert (Hthree : forall w,
      starts_ci (lit "tex") w && Nat.eqb (length w) (length (lit "tex")) = true ->
      exists t e1 x, w = [t; e1; x]
        /\ ci (code "t") t = true /\ ci (code "e") e1 = true
        /\ ci (code "x") x = true).
    { intros w H. apply andb_true_iff in H. destruct H as (Hs & Hl).
      apply Nat.eqb_eq in Hl.
      destruct w as [|t [|e1 [|x [|y w]]]]; try discriminate Hl.
      cbn [starts_ci lit map list_ascii_of_string] in Hs.
      change (N_of_ascii ?a) with (code a) in Hs.
      apply andb_true_iff in Hs. destruct Hs as (Ht & Hs).
      apply andb_true_iff in Hs. destruct Hs as (He1 & Hs).
      apply andb_true_iff in Hs. destruct Hs as (Hx & _).
      exists t, e1, x. auto. }
    intros [H|(e' & -> & H)]; apply Hthree in H;
      destruct H as (t & e1 & x & -> & Ht & He1 & Hx).
    + exists t, e1, x, []. repeat split; auto.
    + exists t, e1, x, [10%N]. repeat split; auto.
Qed.

Lemma is_tex_iff_witness :
  is_tex (lit "paper.v2" ++ code "." :: lit "TeX") = true
  <-> (same_ci (lit "tex") (lit "TeX") = true
       \/ exists e', lit "TeX" = e' ++ [10%N]
                     /\ same_ci (lit "tex") e' = true).
Proof.
  apply is_tex_iff.
  - vm_compute. intros c H.
    repeat (destruct H as [<-|H]; [discriminate|]). destruct H.
  - vm_compute. intros c H.
    repeat (destruct H as [<-|H]; [split; discriminate|]). destruct H.
  - reflexivity.
Defined.

(** A file called [.tex] has no extension, and is no [.tex] file. *)
Example is_tex_hidden : is_tex (lit ".tex") = false.
Proof. vm_compute. reflexivity. Qed.

(** * Math removal *)

Lemma scan_nil_iff r : forall s pos,
  scan r pos s 0 = [] <-> search_from r pos s = false.
Proof.
  induction s as [|c s IH]; intros pos; rewrite scan_step; cbv zeta;
    cbn [search_from].
  - destruct (match_at r false pos []); simpl; split; congruence.
  - destruct (match_at r false pos (c :: s)); simpl.
    + split; discriminate.
    + apply IH.
Qed.

Lemma subseq_refl s : subseq s s.
Proof. induction s; constructor; assumption. Qed.

Lemma subseq_trans a b c : subseq a b -> subseq b c -> subseq a c.
Proof.
  intros Hab Hbc. revert a Hab.
  induction Hbc as [|x b c Hbc IH|x b c Hbc IH]; intros a Hab.
  - assumption.
  - inversion Hab; subst; constructor; apply IH; assumption.
  - constructor. apply IH. assumption.
Qed.

Lemma subseq_skipn n : forall s, subseq (skipn n s) s.
Proof.
  induction n as [|n IH]; intros s; [apply subseq_refl|].
  destruct s as [|c s]; [constructor|]. simpl. constructor. apply IH.
Qed.

Lemma subseq_firstn_skipn x : forall i j s,
  i <= j -> subseq x (skipn j s) -> subseq (firstn i s ++ x) s.
Proof.
  induction i as [|i IH]; intros j s Hij Hx.
  - simpl. eapply subseq_trans; [exact Hx | apply subseq_skipn].
  - destruct j as [|j]; [lia|]. destruct s as [|c s].
    + simpl in *. assumption.
    + simpl. constructor. apply (IH j); [lia | assumption].
Qed.

Lemma rebuild_subseq : forall ms pos s,
  chain pos ms -> subseq (rebuild [] ms pos s) s.
Proof.
  induction ms as [|m ms IH]; intros pos s Hc; [apply subseq_refl|].
  destruct Hc as (H1 & H2 & H3). cbn [rebuild expand flat_map app].
  apply (@subseq_firstn_skipn _ _ (m_end m - pos)); [lia|].
  apply IH. assumption.
Qed.

(** Taking the matches of a pattern out leaves some of the
    characters, in their order. *)
Lemma sub_subseq r s : subseq (sub r [] s) s.
Proof. apply rebuild_subseq. apply finditer_chain. Qed.

Lemma filter_parts_three : forall patts p0 p1 body,
  exists body',
    filter_parts patts [p0; p1; body] = Ok [p0; p1; body']
    /\ subseq body' body.
Proof.
  induction patts as [|patt patts IH]; intros p0 p1 body.
  - exists body. split; [reflexivity | apply subseq_refl].
  - destruct (IH p0 p1 (sub patt [] body)) as (body' & E & Hs).
    exists body'. split; [exact E|].
    eapply subseq_trans; [exact Hs | apply sub_subseq].
Qed.

(** The group of a pattern that is one group is the match. *)
Lemma match_at_group n r must pos s x :
  match_at (Grp n r) must pos s = Some x ->
  group n (snd x) = firstn (fst x - pos) s.
Proof.
  unfold match_at. cbn [run]. intros H. apply run_sound in H.
  destruct H as (w & rest & g' & _ & _ & H).
  destruct (must && Nat.eqb (pos + length w) pos); [discriminate|].
  injection H as <-. simpl. rewrite Nat.eqb_refl. reflexivity.
Qed.

(** The group of a match of a pattern that is one group is the match. *)
Lemma seen_group n r text m :
  seen_at (Grp (S n) r) text m -> m_group (S n) m = m_group0 m.
Proof.
  intros (pre & s & must & x & _ & Hx & ->).
  apply match_at_group in Hx. unfold m_group, found. cbn [m_groups m_group0].
  exact Hx.
Qed.

(** X19.  [remove_math] needs the marker of the main file: on a text
    without [\begin{document}] it raises [IndexError], on a text with
    it it returns. *)
Theorem remove_math_needs_marker latex_str :
  (remove_math latex_str = Raise IndexError <-> has_marker latex_str = false)
  /\ ((exists r, remove_math latex_str = Ok r)
      <-> has_marker latex_str = true).
Proof.
  unfold remove_math, re_split1, has_marker, re_search, finditer.
  pose proof (scan_nil_iff MAIN_TEX_PATT latex_str 0) as Hn.
  destruct (scan MAIN_TEX_PATT 0 latex_str 0) as [|m ms] eqn:E.
  - rewrite (proj1 Hn eq_refl). split.
    + split; reflexivity.
    + split; [intros (r & H); discriminate | discriminate].
  - destruct (search_from MAIN_TEX_PATT 0 latex_str) eqn:Es.
    2:{ pose proof (proj2 Hn eq_refl) as Hc. discriminate. }
    destruct (filter_parts_three FILTER_PATTS
                (firstn (m_start m) latex_str) (m_group 1 m)
                (skipn (m_end m) latex_str)) as (body' & Ef & _).
    unfold str in *. rewrite Ef. simpl. split.
    + split; discriminate.
    + split; [reflexivity | eauto].
Qed.

(** X20.  [remove_math] leaves the text up to the end of the first
    marker as it is, and of the text after the marker it only leaves
    characters out. *)
Theorem remove_math_keeps_preamble latex_str :
  has_marker latex_str = true ->
  exists pre marker body body',
    latex_str = pre ++ marker ++ body
    /\ matches MAIN_TEX_PATT (length pre) marker body
    /\ remove_math latex_str = Ok (pre ++ marker ++ body')
    /\ subseq body' body.
Proof.
  unfold remove_math, re_split1, has_marker, re_search, finditer.
  intros Hm.
  pose proof (scan_nil_iff MAIN_TEX_PATT latex_str 0) as Hn.
  pose proof (scan_seen MAIN_TEX_PATT latex_str [] 0) as Hs.
  pose proof (scan_reported MAIN_TEX_PATT latex_str [] 0) as Hr.
  simpl in Hs, Hr.
  destruct (scan MAIN_TEX_PATT 0 latex_str 0) as [|m ms] eqn:E.
  { rewrite (proj1 Hn eq_refl) in Hm. discriminate. }
  pose proof (Forall_inv Hs) as Hseen.
  destruct (Forall_inv Hr) as (pre & w & rest & Ht & Hst & Hen & Hg & Hw).
  assert (Hg1 : m_group 1 m = w).
  { rewrite <- Hg. unfold MAIN_TEX_PATT in Hseen.
    eapply seen_group. exact Hseen. }
  destruct (filter_parts_three FILTER_PATTS
              (firstn (m_start m) latex_str) (m_group 1 m)
              (skipn (m_end m) latex_str)) as (body' & Ef & Hsub).
  unfold str in *. rewrite Ef. cbn [bind concat]. rewrite app_nil_r.
  rewrite Hg1, Hst, Hen in *.
  assert (E1 : firstn (length pre) latex_str = pre).
  { rewrite Ht, firstn_app, firstn_all, Nat.sub_diag. simpl.
    apply app_nil_r. }
  assert (E2 : skipn (length pre + length w) latex_str = rest).
  { rewrite Ht, app_assoc, skipn_app, skipn_all2
      by (rewrite length_app; lia).
    rewrite length_app, Nat.sub_diag. reflexivity. }
  rewrite E1. rewrite E2 in Hsub.
  exists pre, w, rest, body'. repeat split; assumption.
Qed.

Lemma remove_math_keeps_preamble_witness :
  exists pre marker body body',
    lit "\title{T}\begin{document}We have $x$ here."
      = pre ++ marker ++ body
    /\ matches MAIN_TEX_PATT (length pre) marker body
    /\ remove_math (lit "\title{T}\begin{document}We have $x$ here.")
       = Ok (pre ++ marker ++ body')
    /\ subseq body' body.
Proof.
  apply (@remove_math_keeps_preamble
           (lit "\title{T}\begin{document}We have $x$ here.")).
  vm_compute. reflexivity.
Defined.

Example remove_math_sample :
  remove_math (lit "\title{T}\begin{document}We have $x$ here.")
  = Ok (lit "\title{T}\begin{document}We have  here.").
Proof. vm_compute. reflexivity. Qed.

(** ** Author texts with a comma *)

Lemma match_at_and must pos s :
  match_at (seqs [ws; lits "and"; ws]) must pos s
  = if and_at s then Some (pos + 5, []) else None.
Proof.
  unfold match_at, ws.
  change (lits "and")
    with (Seq (Chr (N.eqb (code "a")))
            (Seq (Chr (N.eqb (code "n"))) (Chr (N.eqb (code "d"))))).
  cbn [seqs run].
  destruct s as [|c1 [|c2 [|c3 [|c4 [|c5 s]]]]]; cbn [and_at];
    repeat match goal with
           | |- context [if ?b then _ else _] =>
               lazymatch b with
               | is_space _ => destruct b
               | N.eqb _ _ => destruct b
               end; cbn [andb]
           end; try reflexivity.
  replace (Nat.eqb (S (S (S (S (S pos))))) pos) with false
    by (symmetry; apply Nat.eqb_neq; lia).
  rewrite andb_false_r. repeat f_equal. lia.
Qed.

Ltac and_cases :=
  cbn [app and_at];
  repeat match goal with
         | |- context [is_space ?c] => is_var c; destruct (is_space c)
         | |- context [N.eqb ?p ?c] => is_var c; destruct (N.eqb p c)
         end;
  reflexivity.

Lemma and_at_comma a b : and_at (a ++ code "," :: b) = and_at a.
Proof.
  destruct a as [|c1 [|c2 [|c3 [|c4 [|c5 a]]]]].
  - destruct b as [|x1 [|x2 [|x3 [|x4 b]]]]; and_cases.
  - destruct b as [|x1 [|x2 [|x3 b]]]; and_cases.
  - destruct b as [|x1 [|x2 b]]; and_cases.
  - destruct b as [|x1 b]; and_cases.
  - and_cases.
  - reflexivity.
Qed.

Lemma and_at_length s : and_at s = true -> 5 <= length s.
Proof.
  destruct s as [|c1 [|c2 [|c3 [|c4 [|c5 s]]]]]; try discriminate.
  intros _. simpl. lia.
Qed.

Lemma sub_and_nil : sub (seqs [ws; lits "and"; ws]) [TLit (lit ",")] [] = [].
Proof. reflexivity. Qed.

(** The substitution of [and] on either side of a comma. *)
Lemma sub_and_comma : forall a b,
  sub (seqs [ws; lits "and"; ws]) [TLit (lit ",")] (a ++ code "," :: b)
  = sub (seqs [ws; lits "and"; ws]) [TLit (lit ",")] a
    ++ code "," :: sub (seqs [ws; lits "and"; ws]) [TLit (lit ",")] b.
Proof.
  intros a b. remember (length a) as n eqn:Hn.
  revert a Hn. induction n as [n IH] using lt_wf_ind. intros a Hn.
  pose proof (@match_at_and false 0 (a ++ code "," :: b)) as Hm.
  pose proof (@match_at_and false 0 a) as Ha.
  rewrite and_at_comma in Hm.
  destruct (and_at a) eqn:E.
  - pose proof (and_at_length _ E) as Hl.
    rewrite (@sub_head_match (seqs [ws; lits "and"; ws])
               [TLit (lit ",")] _ _ eq_refl Hm) by (simpl; lia).
    rewrite (@sub_head_match (seqs [ws; lits "and"; ws])
               [TLit (lit ",")] _ _ eq_refl Ha) by (simpl; lia).
    cbn [fst Nat.add expand flat_map]. rewrite !app_nil_r.
    rewrite skipn_app.
    replace (5 - length a) with 0 by lia. rewrite skipn_O.
    rewrite (IH (length (skipn 5 a))) with (a := skipn 5 a);
      [|rewrite length_skipn; lia | reflexivity].
    rewrite <- app_assoc. reflexivity.
  - destruct a as [|c a].
    + cbn [app] in *. rewrite (@sub_head_none (seqs [ws; lits "and"; ws])
                 [TLit (lit ",")] _ _ eq_refl Hm).
      reflexivity.
    + cbn [app] in *.
      rewrite (@sub_head_none (seqs [ws; lits "and"; ws])
                 [TLit (lit ",")] _ _ eq_refl Hm).
      rewrite (@sub_head_none (seqs [ws; lits "and"; ws])
                 [TLit (lit ",")] _ _ eq_refl Ha).
      rewrite (IH (length a)) with (a := a); [reflexivity | | reflexivity].
      simpl in Hn. lia.
Qed.

Lemma split_on_app sep : forall x y,
  split_on sep (x ++ sep :: y) = split_on sep x ++ split_on sep y.
Proof.
  induction x as [|c x IH]; intros y.
  - simpl. rewrite N.eqb_refl. reflexivity.
  - simpl. rewrite IH. destruct (c =? sep)%N; [reflexivity|].
    destruct (split_on sep x) as [|w l] eqn:E; [|reflexivity].
    exfalso. destruct x; simpl in E; [discriminate|].
    destruct (_ =? _)%N; [discriminate|].
    destruct (split_on sep x); discriminate.
Qed.

Lemma author_names_comma a b :
  author_names (a ++ code "," :: b) = author_names a ++ author_names b.
Proof.
  unfold author_names. rewrite sub_and_comma.
  change (sub ws [TLit (lit " ")]) with blank. rewrite !blank_map.
  rewrite map_app. cbn [map].
  change (blank_char (code ",")) with (code ",").
  rewrite split_on_app, map_app, filter_app. reflexivity.
Qed.

Lemma mapM_app {A B} (f : A -> result B) : forall l1 l2,
  mapM f (l1 ++ l2)
  = (xs <- mapM f l1 ;; ys <- mapM f l2 ;; Ok (xs ++ ys)).
Proof.
  induction l1 as [|a l1 IH]; intros l2; simpl.
  - destruct (mapM f l2); reflexivity.
  - destruct (f a) as [b|e]; simpl; [|reflexivity].
    rewrite IH. destruct (mapM f l1) as [xs|e]; simpl; [|reflexivity].
    destruct (mapM f l2); reflexivity.
Qed.

(** X25.  The authors of a text with a comma are the authors of the
    text before the comma followed by those of the text after it:
    neither the substitution of [and] nor the cut into names reaches
    across a comma.  An exception on either side is the exception of
    the whole, the one on the left first. *)
Theorem process_authors_comma a b minimal :
  process_authors (a ++ code "," :: b) minimal
  = (xs <- process_authors a minimal ;;
     ys <- process_authors b minimal ;;
     Ok (xs ++ ys)).
Proof.
  unfold process_authors. rewrite author_names_comma. apply mapM_app.
Qed.

(** * The local name of an archive *)

Lemma split_on_absent sep : forall s,
  (forall c, In c s -> c <> sep) -> split_on sep s = [s].
Proof.
  induction s as [|c s IH]; intros H; [reflexivity|].
  simpl. destruct (N.eqb_spec c sep) as [->|Hne].
  - exfalso. apply (H sep); [left|]; reflexivity.
  - rewrite IH; [reflexivity|]. intros x Hx. apply H. right. assumption.
Qed.

Lemma split_on_first sep : forall a b,
  (forall c, In c a -> c <> sep) ->
  split_on sep (a ++ sep :: b) = a :: split_on sep b.
Proof.
  induction a as [|c a IH]; intros b H.
  - simpl. rewrite N.eqb_refl. reflexivity.
  - simpl. destruct (N.eqb_spec c sep) as [->|Hne].
    + exfalso. apply (H sep); [left|]; reflexivity.
    + rewrite IH; [reflexivity|]. intros x Hx. apply H. right. assumption.
Qed.

Lemma split_on_join sep : forall s, join [sep] (split_on sep s) = s.
Proof.
  induction s as [|c s IH]; [reflexivity|].
  simpl. destruct (N.eqb_spec c sep) as [->|Hne].
  - destruct (split_on sep s) as [|w l] eqn:E.
    + destruct s; simpl in E; [discriminate|].
      destruct (_ =? _)%N; [discriminate|].
      destruct (split_on sep s); discriminate.
    + change (join [sep] ([] :: w :: l)) with (sep :: join [sep] (w :: l)).
      rewrite IH. reflexivity.
  - destruct (split_on sep s) as [|w l] eqn:E.
    + destruct s; simpl in E; [discriminate|].
      destruct (_ =? _)%N; [discriminate|].
      destruct (split_on sep s); discriminate.
    + rewrite <- IH. destruct l; reflexivity.
Qed.

Lemma join_dir_relative d fname :
  (forall c, In c fname -> c <> code "/") -> join_dir d fname = d ++ fname.
Proof.
  intros H. unfold join_dir. destruct fname as [|c fname]; [reflexivity|].
  cbn [startswith lit map list_ascii_of_string].
  change (N_of_ascii "/") with (code "/").
  destruct (N.eqb_spec (code "/") c) as [<-|]; [|reflexivity].
  exfalso. apply (H _ (or_introl eq_refl)). reflexivity.
Qed.

(** X24.  The local name of an archive is defined exactly for the
    manifest entries with one slash: the text is then a directory, the
    slash and a file name, and the local name is the file name in the
    download directory.  On any other entry the unpacking fails and the
    loop stops. *)
Theorem local_arxiv_tar_one_slash text p :
  local_arxiv_tar text = Some p
  <-> exists d fname,
        text = d ++ code "/" :: fname
        /\ (forall c, In c d -> c <> code "/")
        /\ (forall c, In c fname -> c <> code "/")
        /\ p = BULK_DIR ++ fname.
Proof.
  unfold local_arxiv_tar, unpack2. split.
  - pose proof (split_on_pieces (code "/") text) as F.
    pose proof (split_on_join (code "/") text) as J.
    destruct (split_on (code "/") text) as [|d [|fname [|x l]]];
      try discriminate.
    intros H. injection H as <-.
    pose proof (Forall_inv F) as Hd.
    pose proof (Forall_inv (Forall_inv_tail F)) as Hf. cbv beta in Hd, Hf.
    exists d, fname. split; [symmetry; exact J|].
    split; [intros c Hc; apply (Hd c Hc)|].
    split; [intros c Hc; apply (Hf c Hc)|].
    apply join_dir_relative. intros c Hc. apply (Hf c Hc).
  - intros (d & fname & -> & Hd & Hf & ->).
    rewrite split_on_first, split_on_absent by assumption.
    rewrite join_dir_relative by assumption. reflexivity.
Qed.

Example local_arxiv_tar_sample :
  local_arxiv_tar (lit "src/arXiv_src_0001_001.tar")
  = Some (lit "data/bulk_arxiv/arXiv_src_0001_001.tar").
Proof. vm_compute. reflexivity. Qed.

Example local_arxiv_tar_two_slashes :
  local_arxiv_tar (lit "src/2001/arXiv_src_0001_001.tar") = None.
Proof. vm_compute. reflexivity. Qed.
